(** * SIC Lang: a shallow embedding of the interpreter core

    The development follows [interpreter.cpp]: the value model of [types.hpp]
    ([Element], [Array], [Stack], [FunctionDict]), the shape inference
    ([getShape]), the broadcasting arithmetic ([applyBinaryOp]), the table of
    built-in words ([initBuiltIns]) and the token evaluator ([evaluate]).

    Numbers are IEEE-754 binary64 values (Rocq's primitive [float]); the few
    C++ library and language primitives the interpreter relies on
    ([std::floor], the conversions between [double] and the integer types) are
    written out over the [SpecFloat] view of a float.  A built-in runs in a
    small state monad over the stack and the two output streams, whose failure
    outcomes are the two ways a C++ run can leave the defined, returning path:
    an uncaught [std::bad_variant_access] and undefined behaviour. *)

From Stdlib Require Import ZArith Floats Ascii String Lia.
From stdpp Require Import base option list gmap strings.

Open Scope string_scope.
Open Scope Z_scope.
Open Scope nat_scope.
Open Scope list_scope.

(** ** Value model ([types.hpp]) *)

(** [Element = std::variant<wchar_t, double, String, Array>], with
    [struct Array : std::vector<Element>]. *)
#[local] Unset Elimination Schemes.
Inductive Element : Type :=
| EChar (c : ascii)
| ENum (d : float)
| EText (s : string)
| EArr (a : list Element).
#[local] Set Elimination Schemes.

Abbreviation Array := (list Element).
(** [Stack = std::stack<Array>]; the head of the list is the top. *)
Abbreviation Stack := (list (list Element)).
(** [FunctionDict = std::map<String, std::vector<String>>]. *)
Abbreviation FunctionDict := (gmap string (list string)).

(** [std::holds_alternative<Array>] and [std::holds_alternative<double>]. *)
Definition holdsArray (e : Element) : bool :=
  match e with EArr _ => true | _ => false end.

Definition holdsDouble (e : Element) : bool :=
  match e with ENum _ => true | _ => false end.

(** An induction principle that reaches the elements of a nested array. *)
Fixpoint Element_nested_ind (P : Element → Prop)
  (Hc : ∀ c, P (EChar c)) (Hn : ∀ d, P (ENum d)) (Ht : ∀ s, P (EText s))
  (Ha : ∀ a, Forall P a → P (EArr a)) (e : Element) : P e :=
  match e with
  | EChar c => Hc c
  | ENum d => Hn d
  | EText s => Ht s
  | EArr a =>
      Ha a ((fix go (l : list Element) : Forall P l :=
               match l with
               | [] => Forall_nil_2 P
               | x :: l' => Forall_cons_2 P x l' (Element_nested_ind P Hc Hn Ht Ha x) (go l')
               end) a)
  end.

(** ** The machine a built-in acts on *)

(** The data stack together with the two streams the interpreter writes:
    [std::wcout] as the text written so far, [std::wcerr] as the list of
    diagnostic lines (every write to it in the source is one line closed by
    [std::endl]). *)
Record Machine : Type := mkMachine {
  stack : Stack;
  wcout : string;
  wcerr : list string
}.

(** How a run of C++ code can end. *)
Inductive outcome (A : Type) : Type :=
| Done (a : A)
| BadVariantAccess
| Undefined.
Arguments Done {A} a.
Arguments BadVariantAccess {A}.
Arguments Undefined {A}.

Definition M (A : Type) : Type := Machine → outcome (A * Machine).

#[global] Instance M_ret : MRet M := λ A a m, Done (a, m).
#[global] Instance M_bind : MBind M := λ A B k c m,
  match c m with
  | Done (a, m') => k a m'
  | BadVariantAccess => BadVariantAccess
  | Undefined => Undefined
  end.

Definition throw_bad_variant_access {A} : M A := λ _, BadVariantAccess.
Definition undefined_behaviour {A} : M A := λ _, Undefined.

(** [std::wcerr << line << std::endl]. *)
Definition wcerr_line (line : string) : M unit :=
  λ m, Done (tt, mkMachine (stack m) (wcout m) (wcerr m ++ [line])).

(** [std::wcout << text]. *)
Definition wcout_put (text : string) : M unit :=
  λ m, Done (tt, mkMachine (stack m) (wcout m ++ text) (wcerr m)).

Definition stack_size : M nat := λ m, Done (length (stack m), m).

Definition get_stack : M Stack := λ m, Done (stack m, m).

(** [s.push(a)]. *)
Definition push (a : Array) : M unit :=
  λ m, Done (tt, mkMachine (a :: stack m) (wcout m) (wcerr m)).

(** [s.top()] and [s.pop()]; both are undefined on an empty stack. *)
Definition top : M Array :=
  λ m, match stack m with a :: _ => Done (a, m) | [] => Undefined end.

Definition pop : M unit :=
  λ m, match stack m with
       | _ :: s => Done (tt, mkMachine s (wcout m) (wcerr m))
       | [] => Undefined
       end.

(** [v[i]] of a [std::vector]: no bounds check, so reading past the end is
    undefined behaviour. *)
Definition at_index {A} (v : list A) (i : nat) : M A :=
  match v !! i with Some x => mret x | None => undefined_behaviour end.

(** [std::get<Array>(e)] and [std::get<double>(e)] throw when the variant
    holds another alternative. *)
Definition getArray (e : Element) : M Array :=
  match e with EArr a => mret a | _ => throw_bad_variant_access end.

Definition getDouble (e : Element) : M float :=
  match e with ENum d => mret d | _ => throw_bad_variant_access end.

(** A counted [for (size_t i = 0; i < n; ++i)] loop over a loop state [St],
    whose body either continues with a new state or returns [R] from the
    enclosing function. *)
Fixpoint for_loop_from {St R : Type} (count i : nat) (body : nat → St → M (St + R)) (s : St)
  : M (St + R) :=
  match count with
  | O => mret (inl s)
  | S count' =>
      r ← body i s;
      match r with
      | inl s' => for_loop_from count' (S i) body s'
      | inr v => mret (inr v)
      end
  end.

Definition for_loop {St R : Type} (n : nat) (body : nat → St → M (St + R)) (s : St) : M (St + R) :=
  for_loop_from n 0 body s.

(** The same loop when its body has no [return]. *)
Fixpoint for_count_from {St : Type} (count i : nat) (body : nat → St → M St) (s : St) : M St :=
  match count with
  | O => mret s
  | S count' => s' ← body i s; for_count_from count' (S i) body s'
  end.

Definition for_count {St : Type} (n : nat) (body : nat → St → M St) (s : St) : M St :=
  for_count_from n 0 body s.

(** A range-based [for (const auto& elem : v)] loop, same conventions. *)
Fixpoint for_each {A St R : Type} (v : list A) (body : A → St → M (St + R)) (s : St) : M (St + R) :=
  match v with
  | [] => mret (inl s)
  | x :: v' =>
      r ← body x s;
      match r with
      | inl s' => for_each v' body s'
      | inr w => mret (inr w)
      end
  end.

(** ** Library and language primitives on [double] *)

(** [static_cast<double>(n)] of an integer: the nearest binary64 value, ties
    to even (exact below 2^53). *)
Definition Z2double (z : Z) : float :=
  SF2Prim (binary_normalize prec emax z 0 false).

(** [std::floor]: zeros, infinities and NaN are returned as they are; a finite
    value with a non-negative exponent is an integer already; otherwise the
    mantissa is shifted down, rounding towards minus infinity. *)
Definition floor (x : float) : float :=
  match Prim2SF x with
  | S754_finite s m e =>
      if (0 <=? e)%Z then x
      else Z2double (Z.shiftr (cond_Zopp s (Zpos m)) (- e))
  | _ => x
  end.

(** The integer part of a double (rounding towards zero), when it has one. *)
Definition double_trunc (x : float) : option Z :=
  match Prim2SF x with
  | S754_zero _ => Some 0%Z
  | S754_finite s m e =>
      Some (cond_Zopp s (if (0 <=? e)%Z then Z.shiftl (Zpos m) e
                         else Z.shiftr (Zpos m) (- e)))
  | _ => None
  end.

Definition INT_MAX : Z := 2147483647.
Definition INT_MIN : Z := -2147483648.
(** [size_t] is 64 bits wide; its arithmetic wraps around. *)
Definition SIZE_MODULUS : Z := 2 ^ 64.

(** [static_cast<int>(x)] and [static_cast<size_t>(x)]: the truncated value
    when the target type can represent it; the conversion is undefined
    otherwise ([None]). *)
Definition static_cast_int (x : float) : option Z :=
  match double_trunc x with
  | Some z => if decide (INT_MIN ≤ z ≤ INT_MAX)%Z then Some z else None
  | None => None
  end.

Definition static_cast_size_t (x : float) : option Z :=
  match double_trunc x with
  | Some z => if decide (0 ≤ z < SIZE_MODULUS)%Z then Some z else None
  | None => None
  end.

(** A conversion whose result is undefined makes the run undefined. *)
Definition defined {A} (o : option A) : M A :=
  match o with Some a => mret a | None => undefined_behaviour end.

(** ** Shape inference ([Interpreter::getShape]) *)

(** The uniformity test of [getShape]: every later element is an Array whose
    size is that of the first. *)
Definition isUniformWith (firstSize : nat) (rest : Array) : bool :=
  forallb (λ e, match e with
                | EArr sub => Nat.eqb (length sub) firstSize
                | _ => false
                end) rest.

(** [getShape] appends to [shape] the size of [arr] and, when the first
    element is an Array and the level is uniform, the shape of that first
    element.  The recursion goes through the element that holds the array. *)
Fixpoint getShape_of (e : Element) (shape : list nat) : list nat :=
  match e with
  | EArr arr =>
      let shape := shape ++ [length arr] in
      match arr with
      | (EArr first as e0) :: rest =>
          if isUniformWith (length first) rest then getShape_of e0 shape else shape
      | _ => shape
      end
  | _ => shape
  end.

Definition getShape (arr : Array) (shape : list nat) : list nat :=
  getShape_of (EArr arr) shape.

Definition shapesEqual (shape1 shape2 : list nat) : bool :=
  bool_decide (shape1 = shape2).

(** ** Broadcasting arithmetic ([Interpreter::applyBinaryOp]) *)

Section BinaryOp.

Variable opName : string.
Variable op : float → float → float.

(** [x.size() == 1 ? x[0] : x[i]]. *)
Definition leafOperand (x : Array) (i : nat) : M Element :=
  match x with
  | [e] => mret e
  | _ => at_index x i
  end.

(** [x.size() == 1 && holds_alternative<Array>(x[0]) ? get<Array>(x[0])
    : get<Array>(x[i])]. *)
Definition subOperand (x : Array) (i : nat) : M Array :=
  match x with
  | [EArr sub] => mret sub
  | _ => xi ← at_index x i; getArray xi
  end.

(** The body of the leaf loop: one position of the result, or the empty
    Array returned after a diagnostic. *)
Definition leafStep (x y : Array) (i : nat) (res : Array) : M (Array + Array) :=
  xElem ← leafOperand x i;
  yElem ← leafOperand y i;
  if negb (holdsDouble xElem) || negb (holdsDouble yElem) then
    wcerr_line ("Error: " ++ opName ++ " requires numeric arguments");;
    mret (inr [])
  else
    yVal ← getDouble yElem;
    if String.eqb opName "/" && PrimFloat.eqb yVal 0 then
      wcerr_line "Error: Division by zero";;
      mret (inr [])
    else
      xVal ← getDouble xElem;
      mret (inl (res ++ [ENum (op xVal yVal)])).

(** The body of the loop over sub-arrays; [recurse] is the recursive call on
    the rest of the shape.  An empty sub-result makes the whole call return
    the empty Array. *)
Definition nestedStep (recurse : Array → Array → M Array) (x y : Array) (i : nat) (res : Array)
  : M (Array + Array) :=
  xSub ← subOperand x i;
  ySub ← subOperand y i;
  subRes ← recurse xSub ySub;
  match subRes with
  | [] => mret (inr [])
  | _ => mret (inl (res ++ [EArr subRes]))
  end.

(** What a function returns after a loop that may return early: the value of
    the early [return], or the accumulated result. *)
Definition loopResult {A} (r : A + A) : A :=
  match r with inl res => res | inr early => early end.

(** The lambda [applyOpRecursive]. *)
Fixpoint applyOpRecursive (x y : Array) (shape : list nat) {struct shape} : M Array :=
  match shape with
  | [] => undefined_behaviour
  | [n] =>
      r ← for_loop n (leafStep x y) [];
      mret (loopResult r)
  | size :: subShape =>
      r ← for_loop size
            (nestedStep (λ xSub ySub, applyOpRecursive xSub ySub subShape) x y) [];
      mret (loopResult r)
  end.

(** [a.size() == 1 && !holds_alternative<Array>(a[0]) &&
    holds_alternative<double>(a[0])]. *)
Definition isScalar (a : Array) : bool :=
  match a with
  | [e] => negb (holdsArray e) && holdsDouble e
  | _ => false
  end.

(** The tail of [applyBinaryOp]: an empty result is dropped, any other is
    pushed. *)
Definition pushResult (result : Array) : M unit :=
  match result with
  | [] => mret tt
  | _ => push result
  end.

Definition applyBinaryOp : M unit :=
  n ← stack_size;
  if decide (n < 2) then
    wcerr_line ("Error: Insufficient stack elements for " ++ opName)
  else
    b ← top; pop;;
    a ← top; pop;;
    let aIsScalar := isScalar a in
    let bIsScalar := isScalar b in
    let shapeA := getShape a [] in
    let shapeB := getShape b [] in
    if aIsScalar && negb bIsScalar then
      result ← applyOpRecursive a b shapeB; pushResult result
    else if bIsScalar && negb aIsScalar then
      result ← applyOpRecursive a b shapeA; pushResult result
    else if shapesEqual shapeA shapeB then
      result ← applyOpRecursive a b shapeA; pushResult result
    else
      wcerr_line ("Error: " ++ opName ++ " requires a scalar or arrays of equal shape").

End BinaryOp.

(** ** Printing ([Interpreter::printArray]) *)

Definition newline : string := String (ascii_of_nat 10) EmptyString.
Definition quote : string := String (ascii_of_nat 34) EmptyString.

Fixpoint spaces (n : nat) : string :=
  match n with
  | O => EmptyString
  | S n' => String " "%char (spaces n')
  end.

Section Printing.

(** [std::wcout << value] for a [double] is the stream library's formatting;
    it is left as a parameter. *)
Variable showDouble : float → string.

(** The text [printArray(arr, indent)] writes, for the array held by [e]. *)
Fixpoint printArray_of (e : Element) (indent : nat) : string :=
  match e with
  | EArr arr =>
      spaces (indent * 2) +:+ "[" +:+
      match arr with
      | [] => "]"
      | _ =>
          if existsb holdsArray arr then
            newline +:+
            (fix items (l : Array) : string :=
               match l with
               | [] => EmptyString
               | value :: l' =>
                   match value with
                   | EArr _ => printArray_of value (indent + 1)
                   | ENum d => spaces ((indent + 1) * 2) +:+ showDouble d
                   | EChar c => spaces ((indent + 1) * 2) +:+ String c EmptyString
                   | EText s => spaces ((indent + 1) * 2) +:+ quote +:+ s +:+ quote
                   end +:+
                   match l' with
                   | [] => newline
                   | _ => "," +:+ newline
                   end +:+ items l'
               end) arr +:+
            spaces (indent * 2) +:+ "]"
          else
            (fix items (l : Array) : string :=
               match l with
               | [] => EmptyString
               | value :: l' =>
                   match value with
                   | EArr _ => printArray_of value indent
                   | ENum d => showDouble d
                   | EChar c => String c EmptyString
                   | EText s => quote +:+ s +:+ quote
                   end +:+
                   match l' with
                   | [] => EmptyString
                   | _ => " "
                   end +:+ items l'
               end) arr +:+
            "]"
      end
  | _ => EmptyString
  end.

Definition printArray (arr : Array) (indent : nat) : M unit :=
  wcout_put (printArray_of (EArr arr) indent).

End Printing.

(** ** The built-in words ([Interpreter::initBuiltIns]) *)

Definition builtin_cat : M unit :=
  n ← stack_size;
  if decide (n < 2) then
    wcerr_line "Error: Insufficient stack elements for cat"
  else
    b ← top; pop;;
    a ← top; pop;;
    push (a ++ b).

Definition builtin_print (showDouble : float → string) : M unit :=
  n ← stack_size;
  if decide (n = 0) then
    wcerr_line "Error: Stack empty for ."
  else
    t ← top; pop;;
    printArray showDouble t 0;;
    wcout_put newline.

(** [while (!s.empty()) s.pop();] *)
Definition builtin_clear : M unit :=
  λ m, Done (tt, mkMachine [] (wcout m) (wcerr m)).

Definition builtin_swap : M unit :=
  n ← stack_size;
  if decide (n < 2) then
    wcerr_line "Error: Insufficient stack elements for swap"
  else
    t ← top; pop;;
    second ← top; pop;;
    push t;;
    push second.

Definition builtin_dup : M unit :=
  n ← stack_size;
  if decide (n = 0) then
    wcerr_line "Error: Stack empty for dup"
  else
    t ← top;
    push t.

(** The loop of [range]: [static_cast<double>(i)] for [i] from 0 up to, not
    including, [n]. *)
Definition rangeElements (n : Z) : Array :=
  map (λ i, ENum (Z2double (Z.of_nat i))) (seq 0 (Z.to_nat n)).

Definition builtin_range : M unit :=
  n ← stack_size;
  if decide (n = 0) then
    wcerr_line "Error: Stack empty for range"
  else
    t ← top; pop;;
    match t with
    | [ENum val] =>
        if PrimFloat.ltb val 0 || negb (PrimFloat.eqb (floor val) val) then
          wcerr_line "Error: range requires a non-negative integer"
        else
          bound ← defined (static_cast_int val);
          push (rangeElements bound)
    | _ => wcerr_line "Error: range requires a scalar numeric argument"
    end.

(** *** reshape *)

(** One round of the loop over the shape array: the dimensions read so far
    and the running product, which is a [size_t] and wraps around. *)
Definition reshapeDimStep (elem : Element) (st : list Z * Z) : M (list Z * Z + unit) :=
  let '(dims, total_size) := st in
  match elem with
  | ENum val =>
      if PrimFloat.leb val 0 || negb (PrimFloat.eqb (floor val) val) then
        wcerr_line "Error: reshape dimensions must be positive integers";;
        mret (inr tt)
      else
        dim ← defined (static_cast_size_t val);
        mret (inl (dims ++ [dim], (total_size * dim) mod SIZE_MODULUS)%Z)
  | _ =>
      wcerr_line "Error: reshape shape must contain numeric values";;
      mret (inr tt)
  end.

(** The lambda [buildArray(dimIdx, dims, dataIdx)].  The first argument here
    is [dims] from position [dimIdx] on, so [dimIdx == dims.size() - 1] reads
    "one dimension is left"; the reference [dataIdx] is returned with the
    result. *)
Fixpoint buildArray (data : Array) (dims : list Z) (dataIdx : nat) : Array * nat :=
  match dims with
  | [] => ([], dataIdx)
  | [d] =>
      Nat.iter (Z.to_nat d)
        (λ '(result, idx),
           match data !! idx with
           | Some e => (result ++ [e], S idx)
           | None => (result, idx)
           end) ([], dataIdx)
  | d :: rest =>
      Nat.iter (Z.to_nat d)
        (λ '(result, idx),
           let '(sub, idx') := buildArray data rest idx in
           (result ++ [EArr sub], idx')) ([], dataIdx)
  end.

Definition builtin_reshape : M unit :=
  n ← stack_size;
  if decide (n < 2) then
    wcerr_line "Error: Insufficient stack elements for reshape"
  else
    shape ← top; pop;;
    data ← top; pop;;
    match shape with
    | [] => wcerr_line "Error: reshape requires a non-empty shape array"
    | _ =>
        r ← for_each shape reshapeDimStep ([], 1%Z);
        match r with
        | inr _ => mret tt
        | inl (dims, total_size) =>
            if decide (Z.of_nat (length data) ≠ total_size) then
              wcerr_line "Error: Data size does not match shape dimensions"
            else
              push (fst (buildArray data dims 0))
        end
    end.

(** *** dim *)

(** The error path of [getDims]: the diagnostic, then [s.push(result)] with
    the captured (still empty) result array. *)
Definition reportNonUniform (result : Array) : M unit :=
  wcerr_line "Error: Non-uniform array for dim";;
  push result.

(** One round of the loop of [getDims] over [current]; the loop state is
    [(hasArrays, subSize)], and [inr tt] is a [return]. *)
Definition getDimsStep (result current : Array) (i : nat) (st : bool * nat)
  : M (bool * nat + unit) :=
  let '(hasArrays, subSize) := st in
  elem ← at_index current i;
  match elem with
  | EArr subArr =>
      if decide (i = 0) then mret (inl (true, length subArr))
      else if decide (length subArr ≠ subSize) then
        reportNonUniform result;;
        mret (inr tt)
      else mret (inl (hasArrays, subSize))
  | _ =>
      if decide (i = 0) then mret (inr tt)
      else
        reportNonUniform result;;
        mret (inr tt)
  end.

(** The lambda [getDims(current, dims)], for the array held by [e]; the
    updated [dims] is returned. *)
Fixpoint getDims_of (result : Array) (e : Element) (dims : list nat) : M (list nat) :=
  match e with
  | EArr current =>
      match current with
      | [] => mret (dims ++ [0])
      | first :: _ =>
          let dims := dims ++ [length current] in
          r ← for_loop (length current) (getDimsStep result current) (false, 0);
          match r with
          | inl (true, _) => getDims_of result first dims
          | _ => mret dims
          end
      end
  | _ => throw_bad_variant_access
  end.

Definition getDims (result : Array) (current : Array) (dims : list nat) : M (list nat) :=
  getDims_of result (EArr current) dims.

Definition isEmpty {A} (v : list A) : bool :=
  match v with [] => true | _ => false end.

(** [arr.size() == 1 && !holds_alternative<Array>(arr[0])]. *)
Definition isLoneNonArray (arr : Array) : bool :=
  match arr with
  | [e] => negb (holdsArray e)
  | _ => false
  end.

Definition builtin_dim : M unit :=
  n ← stack_size;
  if decide (n = 0) then
    wcerr_line "Error: Stack empty for dim"
  else
    arr ← top; pop;;
    let result : Array := [] in
    if isLoneNonArray arr then push result
    else
      dims ← getDims result arr [];
      if isEmpty dims && negb (isEmpty result) then mret tt
      else push (result ++ map (λ dim, ENum (Z2double (Z.of_nat dim))) dims).

(** *** matmul *)

(** The validation of one row: it must be an Array of Numbers. *)
Definition matmulCheckRow (row : Element) (_ : unit) : M (unit + unit) :=
  match row with
  | EArr r =>
      for_each r (λ elem _,
        if holdsDouble elem then mret (inl tt)
        else
          wcerr_line "Error: matmul requires numeric elements";;
          mret (inr tt)) tt
  | _ =>
      wcerr_line "Error: matmul requires 2D numeric arrays";;
      mret (inr tt)
  end.

(** [std::get<double>(std::get<Array>(a[i])[k])]. *)
Definition matrixEntry (a : Array) (i k : nat) : M float :=
  ai ← at_index a i;
  row ← getArray ai;
  aik ← at_index row k;
  getDouble aik.

Definition matmulProduct (a b : Array) (m n p : nat) : M Array :=
  for_count m (λ i result,
    row ← for_count p (λ j row,
      sum ← for_count n (λ k sum,
        a_val ← matrixEntry a i k;
        b_val ← matrixEntry b k j;
        mret (sum + a_val * b_val)%float) 0%float;
      mret (row ++ [ENum sum])) [];
    mret (result ++ [EArr row])) [].

Definition builtin_matmul : M unit :=
  n ← stack_size;
  if decide (n < 2) then
    wcerr_line "Error: Insufficient stack elements for matmul"
  else
    b ← top; pop;;
    a ← top; pop;;
    match getShape a [], getShape b [] with
    | [m; n], [n_b; p] =>
        if decide (n ≠ n_b) then
          wcerr_line "Error: Incompatible dimensions for matmul"
        else
          okA ← for_each a matmulCheckRow tt;
          match okA with
          | inr _ => mret tt
          | inl _ =>
              okB ← for_each b matmulCheckRow tt;
              match okB with
              | inr _ => mret tt
              | inl _ =>
                  result ← matmulProduct a b m n p;
                  push result
              end
          end
    | _, _ => wcerr_line "Error: matmul requires 2D arrays"
    end.

(** *** The table *)

Section BuiltIns.

(** [std::pow] and the stream formatting of a [double] belong to the C++
    library. *)
Variable pow : float → float → float.
Variable showDouble : float → string.

Definition builtIns (name : string) : option (M unit) :=
  if String.eqb name "+" then Some (applyBinaryOp "+" PrimFloat.add)
  else if String.eqb name "-" then Some (applyBinaryOp "-" PrimFloat.sub)
  else if String.eqb name "*" then Some (applyBinaryOp "*" PrimFloat.mul)
  else if String.eqb name "/" then Some (applyBinaryOp "/" PrimFloat.div)
  else if String.eqb name "^" then Some (applyBinaryOp "^" pow)
  else if String.eqb name "cat" then Some builtin_cat
  else if String.eqb name "." then Some (builtin_print showDouble)
  else if String.eqb name "clear" then Some builtin_clear
  else if String.eqb name "swap" then Some builtin_swap
  else if String.eqb name "dup" then Some builtin_dup
  else if String.eqb name "range" then Some builtin_range
  else if String.eqb name "reshape" then Some builtin_reshape
  else if String.eqb name "dim" then Some builtin_dim
  else if String.eqb name "matmul" then Some builtin_matmul
  else None.

End BuiltIns.

(** ** Literals ([isNumber] ... [parseArray]) *)

Definition front (token : string) : option ascii := head (list_ascii_of_string token).
Definition back (token : string) : option ascii := last (list_ascii_of_string token).

Definition quoteChar : ascii := ascii_of_nat 34.
Definition backslashChar : ascii := ascii_of_nat 92.
Definition tabChar : ascii := ascii_of_nat 9.

Definition isStringLiteral (token : string) : bool :=
  (2 <=? String.length token) &&
  bool_decide (front token = Some quoteChar) && bool_decide (back token = Some quoteChar).

Definition isArrayLiteral (token : string) : bool :=
  (2 <=? String.length token) &&
  bool_decide (front token = Some "["%char) && bool_decide (back token = Some "]"%char).

(** [std::iswalnum(c) || c == L'_' || c > 127]: below 128 the alphanumeric
    characters are the ASCII digits and letters, and from 128 on the test
    holds whatever the locale answers. *)
Definition isNameChar (c : ascii) : bool :=
  let n := nat_of_ascii c in
  ((48 <=? n) && (n <=? 57)) || ((65 <=? n) && (n <=? 90)) || ((97 <=? n) && (n <=? 122))
  || (n =? 95) || (127 <? n).

Definition isFunctionName (token : string) : bool :=
  if String.eqb token "" || String.eqb token ":end" || String.eqb token ":dump" then false
  else forallb isNameChar (list_ascii_of_string token).

(** [current.erase(0, current.find_first_not_of(L" \t"));
     current.erase(current.find_last_not_of(L" \t") + 1);] *)
Definition isBlank (c : ascii) : bool :=
  Ascii.eqb c " "%char || Ascii.eqb c tabChar.

Fixpoint dropBlanks (l : list ascii) : list ascii :=
  match l with
  | c :: l' => if isBlank c then dropBlanks l' else l
  | [] => []
  end.

Definition trimBlanks (current : list ascii) : list ascii :=
  rev (dropBlanks (rev (dropBlanks current))).

(** The scanner state of [parseArrayTokens]. *)
Record Scan : Type := mkScan {
  scanTokens : list string;
  scanCurrent : list ascii;
  bracketDepth : Z;
  inQuotes : bool
}.

(** [tokens.push_back(current)] after trimming, when something is left. *)
Definition flushToken (tokens : list string) (current : list ascii) : list string :=
  match trimBlanks current with
  | [] => tokens
  | t => tokens ++ [string_of_list_ascii t]
  end.

(** One round of the scanning loop; [prev] is [input[i - 1]]. *)
Definition scanStep (prev c : ascii) (s : Scan) : Scan :=
  let add := scanCurrent s ++ [c] in
  if Ascii.eqb c quoteChar && negb (Ascii.eqb prev backslashChar) then
    mkScan (scanTokens s) add (bracketDepth s) (negb (inQuotes s))
  else if inQuotes s then
    mkScan (scanTokens s) add (bracketDepth s) (inQuotes s)
  else if Ascii.eqb c "["%char then
    mkScan (scanTokens s) add (bracketDepth s + 1) (inQuotes s)
  else if Ascii.eqb c "]"%char then
    mkScan (scanTokens s) add (bracketDepth s - 1) (inQuotes s)
  else if Ascii.eqb c ","%char && (bracketDepth s =? 0)%Z then
    mkScan (flushToken (scanTokens s) (scanCurrent s)) [] (bracketDepth s) (inQuotes s)
  else
    mkScan (scanTokens s) add (bracketDepth s) (inQuotes s).

Fixpoint scanLoop (prev : ascii) (chars : list ascii) (s : Scan) : Scan :=
  match chars with
  | [] => s
  | c :: chars' => scanLoop c chars' (scanStep prev c s)
  end.

(** The loop runs over [input[1 .. length - 2]]; callers pass an array
    literal, which has at least its two brackets. *)
Definition parseArrayTokens (input : string) : list string :=
  match list_ascii_of_string input with
  | first :: others =>
      let s := scanLoop first (removelast others) (mkScan [] [] 0 false) in
      flushToken (scanTokens s) (scanCurrent s)
  | [] => []
  end.

Section Parser.

(** [std::stod]: the value read from the longest numeric prefix, or no value
    when the call throws. *)
Variable stod : string → option float.

Definition isNumber (token : string) : bool :=
  match stod token with Some _ => true | None => false end.

Definition isWChar (token : string) : bool :=
  (String.length token =? 1) && negb (isNumber token).

(** [parseElement], with [parseArray] unfolded at its recursive use.  The
    pieces of an array literal are shorter than the literal, so the length of
    the token bounds the depth of the recursion. *)
Fixpoint parseElement_depth (depth : nat) (token : string) : Element :=
  match stod token with
  | Some number => ENum number
  | None =>
      if isStringLiteral token then
        EText (substring 1 (String.length token - 2) token)
      else if isWChar token then
        match front token with Some c => EChar c | None => EText token end
      else if isArrayLiteral token then
        match depth with
        | O => EArr []
        | S depth' => EArr (map (parseElement_depth depth') (parseArrayTokens token))
        end
      else EText token
  end.

Definition parseElement (token : string) : Element :=
  parseElement_depth (String.length token) token.

Definition parseArray (token : string) : Array :=
  if isArrayLiteral token then map parseElement (parseArrayTokens token)
  else [parseElement token].

End Parser.

(** ** The evaluator ([Interpreter::evaluate]) *)

(** The interpreter's own state: the dictionary of user words beside the
    machine the built-ins act on. *)
Record Interp : Type := mkInterp {
  functions : FunctionDict;
  machine : Machine
}.

(** A result of evaluation: [None] when the recursion bound of the model ran
    out, otherwise how the C++ run ended. *)
Abbreviation Run := (option (outcome Interp)).

(** Runs a built-in (or any code that only touches the machine). *)
Definition onMachine (c : M unit) (st : Interp) : outcome Interp :=
  match c (machine st) with
  | Done (_, m) => Done (mkInterp (functions st) m)
  | BadVariantAccess => BadVariantAccess
  | Undefined => Undefined
  end.

(** Continues with [k] after a run that returned. *)
Definition andThen (r : Run) (k : Interp → Run) : Run :=
  match r with
  | Some (Done st) => k st
  | other => other
  end.

Section Evaluate.

Variable pow : float → float → float.
Variable showDouble : float → string.
Variable stod : string → option float.

(** The [:dump] branch: the stack is printed from the top and restored. *)
Fixpoint printAll (s : Stack) : M unit :=
  match s with
  | [] => mret tt
  | a :: s' => printArray showDouble a 0;; wcout_put newline;; printAll s'
  end.

Definition dumpStack : M unit :=
  wcout_put ("Stack:" +:+ newline);;
  s ← get_stack;
  match s with
  | [] => wcout_put ("(empty)" +:+ newline)
  | _ => printAll s
  end.

(** [token.size() > 1 && token[0] == L':'] *)
Definition isHeader (token : string) : bool :=
  (1 <? String.length token) && bool_decide (front token = Some ":"%char).

(** The loop of [evaluate] over the tokens that are left, with the locals
    [defining], [funcName] and [funcBody]; [call] evaluates the body of a
    user word ([evaluate(functions[token], true)]). *)
Fixpoint evaluateLoop (call : list string → Interp → Run) (isFunctionBody : bool)
    (tokens : list string) (defining : bool) (funcName : string) (funcBody : list string)
    (st : Interp) {struct tokens} : Run :=
  match tokens with
  | [] => Some (Done st)
  | token :: rest =>
      if String.eqb token ":dump" then
        andThen (Some (onMachine dumpStack st))
          (evaluateLoop call isFunctionBody rest defining funcName funcBody)
      else if negb isFunctionBody && negb defining && isHeader token then
        let funcName := substring 1 (String.length token - 1) token in
        if negb (isEmpty rest) && isFunctionName funcName then
          evaluateLoop call isFunctionBody rest true funcName funcBody st
        else
          andThen (Some (onMachine (wcerr_line "Error: Invalid function definition") st))
            (evaluateLoop call isFunctionBody rest defining funcName funcBody)
      else if defining then
        if String.eqb token ":end" then
          evaluateLoop call isFunctionBody rest false funcName []
            (mkInterp (<[funcName := funcBody]> (functions st)) (machine st))
        else
          evaluateLoop call isFunctionBody rest defining funcName (funcBody ++ [token]) st
      else
        match functions st !! token with
        | Some body =>
            andThen (call body st)
              (evaluateLoop call isFunctionBody rest defining funcName funcBody)
        | None =>
            match builtIns pow showDouble token with
            | Some builtin =>
                andThen (Some (onMachine builtin st))
                  (evaluateLoop call isFunctionBody rest defining funcName funcBody)
            | None =>
                andThen (Some (onMachine (push (parseArray stod token)) st))
                  (evaluateLoop call isFunctionBody rest defining funcName funcBody)
            end
        end
  end.

(** [evaluate(tokens, isFunctionBody)].  A word may call itself, so the depth
    of nested word calls is bounded by [depth]. *)
Fixpoint evaluate (depth : nat) (tokens : list string) (isFunctionBody : bool) (st : Interp)
  : Run :=
  match depth with
  | O => None
  | S depth' =>
      evaluateLoop (λ body, evaluate depth' body true) isFunctionBody tokens false "" [] st
  end.

End Evaluate.

(** ** The tokenizer ([Interpreter::tokenize]) *)

Section Tokenizer.

(** [std::iswspace] answers by the locale; it is left as a parameter. *)
Variable iswspace : ascii → bool.

(** [if (!current.empty()) { tokens.push_back(current); current.clear(); }] *)
Definition pushCurrent (tokens : list string) (current : list ascii) : list string :=
  match current with
  | [] => tokens
  | _ => tokens ++ [string_of_list_ascii current]
  end.

(** [input[i - 1] == L'\\'], false when [i == 0]. *)
Definition escaped (prev : option ascii) : bool :=
  match prev with
  | Some p => Ascii.eqb p backslashChar
  | None => false
  end.

(** One round of the loop of [tokenize]; [prev] is [input[i - 1]], absent in
    the first round. *)
Definition tokenizeStep (prev : option ascii) (c : ascii) (s : Scan) : Scan :=
  let add := scanCurrent s ++ [c] in
  if Ascii.eqb c quoteChar && negb (escaped prev) then
    mkScan (scanTokens s) add (bracketDepth s) (negb (inQuotes s))
  else if inQuotes s then
    mkScan (scanTokens s) add (bracketDepth s) (inQuotes s)
  else if Ascii.eqb c "["%char then
    mkScan (scanTokens s) add (bracketDepth s + 1) (inQuotes s)
  else if Ascii.eqb c "]"%char then
    let depth := (bracketDepth s - 1)%Z in
    if (depth =? 0)%Z && negb (isEmpty add) then
      mkScan (scanTokens s ++ [string_of_list_ascii add]) [] depth (inQuotes s)
    else
      mkScan (scanTokens s) add depth (inQuotes s)
  else if iswspace c && (bracketDepth s =? 0)%Z && negb (inQuotes s) then
    mkScan (pushCurrent (scanTokens s) (scanCurrent s)) [] (bracketDepth s) (inQuotes s)
  else
    mkScan (scanTokens s) add (bracketDepth s) (inQuotes s).

Fixpoint tokenizeLoop (prev : option ascii) (chars : list ascii) (s : Scan) : Scan :=
  match chars with
  | [] => s
  | c :: chars' => tokenizeLoop (Some c) chars' (tokenizeStep prev c s)
  end.

Definition tokenize (input : string) : list string :=
  let s := tokenizeLoop None (list_ascii_of_string input) (mkScan [] [] 0 false) in
  pushCurrent (scanTokens s) (scanCurrent s).

End Tokenizer.

(** ** A line of input ([Interpreter::process]) *)

Section Process.

Variable pow : float → float → float.
Variable showDouble : float → string.
Variable stod : string → option float.
Variable iswspace : ascii → bool.

(** [process(input)]: the line is cut into tokens, which are evaluated from
    the top level. *)
Definition process (depth : nat) (input : string) (st : Interp) : Run :=
  evaluate pow showDouble stod depth (tokenize iswspace input) false st.

End Process.

(** *** The [:dump] branch, loop by loop *)

Section DumpLoops.

Variable showDouble : float → string.

(** [while (!stack.empty()) { temp.push(stack.top()); printArray(stack.top());
    std::wcout << std::endl; stack.pop(); }] on the interpreter's stack, the
    local [temp] and the output. *)
Fixpoint dumpDrain (stack temp : Stack) (out : string) : Stack * Stack * string :=
  match stack with
  | [] => (stack, temp, out)
  | t :: stack' =>
      dumpDrain stack' (t :: temp) ((out +:+ printArray_of showDouble (EArr t) 0) +:+ newline)
  end.

(** [while (!temp.empty()) { stack.push(temp.top()); temp.pop(); }] *)
Fixpoint dumpRestore (stack temp : Stack) : Stack * Stack :=
  match temp with
  | [] => (stack, temp)
  | t :: temp' => dumpRestore (t :: stack) temp'
  end.

Definition dumpLoops (m : Machine) : Machine :=
  let out := wcout m +:+ ("Stack:" +:+ newline) in
  match stack m with
  | [] => mkMachine (stack m) (out +:+ ("(empty)" +:+ newline)) (wcerr m)
  | _ =>
      let '(stack1, temp1, out1) := dumpDrain (stack m) [] out in
      let '(stack2, _) := dumpRestore stack1 temp1 in
      mkMachine stack2 out1 (wcerr m)
  end.

End DumpLoops.

(** * Properties *)

(** ** Vocabulary *)

(** The machine with one more diagnostic line. *)
Definition withDiagnostic (line : string) (m : Machine) : Machine :=
  mkMachine (stack m) (wcout m) (wcerr m ++ [line]).

(** The number of stack items each checking built-in requires. *)
Definition requiredItems : list (string * nat) :=
  [("+", 2); ("-", 2); ("*", 2); ("/", 2); ("^", 2); ("cat", 2); ("swap", 2);
   ("matmul", 2); ("reshape", 2); (".", 1); ("dup", 1); ("range", 1); ("dim", 1)].

(** The dispatch of [applyBinaryOp]: the shape the element-wise recursion is
    run with, if any. *)
Definition broadcastShape (a b : Array) : option (list nat) :=
  if isScalar a && negb (isScalar b) then Some (getShape b [])
  else if isScalar b && negb (isScalar a) then Some (getShape a [])
  else if shapesEqual (getShape a []) (getShape b []) then Some (getShape a [])
  else None.

(** The two diagnostics of the leaf loop of [applyBinaryOp]. *)
Definition leafDiagnostic (opName line : string) : Prop :=
  line = "Error: " +:+ opName +:+ " requires numeric arguments" ∨
  (opName = "/" ∧ line = "Error: Division by zero").

(** What a run of the element-wise recursion can do to the machine: nothing,
    or add one leaf diagnostic, and then it returned the empty Array. *)
Definition quietOrFailed (opName : string) (m : Machine) (res : Array) (m' : Machine) : Prop :=
  m' = m ∨ (res = [] ∧ ∃ line, leafDiagnostic opName line ∧ m' = withDiagnostic line m).

(** The element a leaf loop reads at position [i]: the sole element of a
    one-element operand, the element at [i] otherwise. *)
Definition leafValue (x : Array) (i : nat) : option Element :=
  match x with
  | [e] => Some e
  | _ => x !! i
  end.

(** Non-uniformity that [dim] meets: at some level along the chain of first
    elements, the first element is an Array and a later element is not an
    Array of the same size. *)
Inductive spineNonUniform : Array → Prop :=
| nonUniform_here first others :
    isUniformWith (length first) others = false →
    spineNonUniform (EArr first :: others)
| nonUniform_below first others :
    isUniformWith (length first) others = true →
    spineNonUniform first →
    spineNonUniform (EArr first :: others).

(** The machine after the error path of [getDims]. *)
Definition afterNonUniform (result : Array) (m : Machine) : Machine :=
  mkMachine (result :: stack m) (wcout m) (wcerr m ++ ["Error: Non-uniform array for dim"]).

(** The matrix product as the specification words it: entry [(i, j)] is the
    sum over [k] of [a[i][k] * b[k][j]], accumulated in double precision from
    [0.0] in increasing [k]. *)
Definition entry (a : Array) (i k : nat) : float :=
  match a !! i with
  | Some (EArr row) => match row !! k with Some (ENum d) => d | _ => 0%float end
  | _ => 0%float
  end.

Definition dotProduct (a b : Array) (n i j : nat) : float :=
  fold_left (λ sum k, (sum + entry a i k * entry b k j)%float) (seq 0 n) 0%float.

Definition matrixProduct (a b : Array) (m n p : nat) : Array :=
  map (λ i, EArr (map (λ j, ENum (dotProduct a b n i j)) (seq 0 p))) (seq 0 m).

(** Every row is an Array whose elements are all Numbers. *)
Definition numericRows (a : Array) : bool :=
  forallb (λ row, match row with EArr r => forallb holdsDouble r | _ => false end) a.

(** [a] is an [m] by [n] matrix of Numbers. *)
Definition isMatrix (a : Array) (m n : nat) : Prop :=
  length a = m ∧
  Forall (λ e, ∃ row, e = EArr row ∧ length row = n ∧ Forall (λ x, holdsDouble x = true) row) a.

(** The test [reshape] applies to a shape element: a Number that is positive
    and equal to its floor. *)
Definition isPositiveInteger (e : Element) : bool :=
  match e with
  | ENum val => negb (PrimFloat.leb val 0) && PrimFloat.eqb (floor val) val
  | _ => false
  end.

(** A shape element that passes the test converts to a [size_t]. *)
Definition convertible (e : Element) : Prop :=
  ∀ val, e = ENum val → isPositiveInteger e = true → is_Some (static_cast_size_t val).

(** The shape element [e] is a positive-integer Number of value [d]. *)
Definition isDimension (e : Element) (d : Z) : Prop :=
  ∃ val, e = ENum val ∧ isPositiveInteger e = true ∧ static_cast_size_t val = Some d.

Definition product (dims : list Z) : Z := fold_right Z.mul 1%Z dims.

Definition productNat (dims : list nat) : nat := fold_right Nat.mul 1 dims.

(** Row-major nesting as the specification words it: the last dimension is
    the innermost level, and the elements of [data] are consumed from left to
    right, the [k]-th sub-array of a level starting [k] times the size of a
    sub-array further on. *)
Fixpoint rowMajor (dims : list nat) (data : Array) : Array :=
  match dims with
  | [] => []
  | [d] => take d data
  | d :: rest =>
      map (λ k, EArr (rowMajor rest (drop (k * productNat rest) data))) (seq 0 d)
  end.

(** The elements [levels] levels down, from left to right. *)
Fixpoint flattenLevels (levels : nat) (a : Array) : Array :=
  match levels with
  | O => a
  | S levels' =>
      concat (map (λ e, match e with
                        | EArr sub => flattenLevels levels' sub
                        | _ => [e]
                        end) a)
  end.

(** The running product of [reshape], kept in a [size_t]. *)
Definition wrappedProduct (total : Z) (dims : list Z) : Z :=
  fold_left (λ t d, (t * d) mod SIZE_MODULUS)%Z dims total.

(** The interpreter after [name] has been bound to [body]. *)
Definition define (name : string) (body : list string) (st : Interp) : Interp :=
  mkInterp (<[name := body]> (functions st)) (machine st).

(** A token that can stand in a stored body: it neither ends the definition
    nor is taken by the stack dump. *)
Definition storable (token : string) : Prop := token ≠ ":end" ∧ token ≠ ":dump".

(** The stack a run leaves, when it returns. *)
Definition finalStack (r : Run) : option Stack :=
  match r with
  | Some (Done st) => Some (stack (machine st))
  | _ => None
  end.

(** The words of the example: [double] is [dup +], [quad] is [double double],
    and 3 is on the stack. *)
Definition exampleInterp : Interp :=
  mkInterp (<["quad" := ["double"; "double"]]> (<["double" := ["dup"; "+"]]> ∅))
    (mkMachine [[ENum 3]] "" []).

(** *** The element-wise combination *)

(** [arr] is an array of Numbers of exactly the shape [shape]. *)
Fixpoint numbersOfShape (shape : list nat) (arr : Array) : Prop :=
  match shape with
  | [] => False
  | [n] => length arr = n ∧ Forall (λ e, holdsDouble e = true) arr
  | n :: rest =>
      length arr = n ∧
      Forall (λ e, match e with EArr sub => numbersOfShape rest sub | _ => False end) arr
  end.

(** The numbers of a nested array, from left to right. *)
Fixpoint numbersIn (e : Element) : list float :=
  match e with
  | ENum d => [d]
  | EArr a => concat (map numbersIn a)
  | _ => []
  end.

Section Elementwise.

Variable op : float → float → float.

(** The element-wise combination of two nested arrays of one shape. *)
Fixpoint combine (x y : Element) {struct x} : Element :=
  match x, y with
  | ENum a, ENum b => ENum (op a b)
  | EArr xs, EArr ys =>
      EArr ((fix go (xs ys : Array) {struct xs} : Array :=
               match xs, ys with
               | x' :: xs', y' :: ys' => combine x' y' :: go xs' ys'
               | _, _ => []
               end) xs ys)
  | _, _ => x
  end.

Definition combineArrays (xs ys : Array) : Array :=
  match combine (EArr xs) (EArr ys) with EArr r => r | _ => [] end.

End Elementwise.

(** The Number and the sub-array at a position. *)
Definition numberAt (x : Array) (i : nat) : float :=
  match x !! i with Some (ENum d) => d | _ => 0%float end.

Definition arrayAt (x : Array) (i : nat) : Array :=
  match x !! i with Some (EArr sub) => sub | _ => [] end.

(** *** Leaf-level errors *)

(** The diagnostic that a pair of corresponding leaves calls for, if any: a
    leaf that is not a Number, or a zero on the right of [/]. *)
Definition leafFault (opName : string) (x y : Element) : option string :=
  match x, y with
  | ENum _, ENum divisor =>
      if String.eqb opName "/" && PrimFloat.eqb divisor 0
      then Some "Error: Division by zero"
      else None
  | _, _ => Some ("Error: " +:+ opName +:+ " requires numeric arguments")
  end.

(** The first leaf-level error among the corresponding leaves of two lists,
    from left to right. *)
Fixpoint firstFault (opName : string) (xs ys : list Element) : option string :=
  match xs, ys with
  | x :: xs', y :: ys' =>
      match leafFault opName x y with
      | Some line => Some line
      | None => firstFault opName xs' ys'
      end
  | _, _ => None
  end.

(** The leaves of a nested array, from left to right. *)
Fixpoint leavesIn (e : Element) : list Element :=
  match e with
  | EArr a => concat (map leavesIn a)
  | _ => [e]
  end.

(** [arr] is nested regularly to the shape [shape]; its leaves are elements
    of any kind but Arrays. *)
Fixpoint elementsOfShape (shape : list nat) (arr : Array) : Prop :=
  match shape with
  | [] => False
  | [n] => length arr = n ∧ Forall (λ e, holdsArray e = false) arr
  | n :: rest =>
      length arr = n ∧
      Forall (λ e, match e with EArr sub => elementsOfShape rest sub | _ => False end) arr
  end.

(** The scalar [s] as the leaf list of a broadcast over [arr]: one copy for
    each element. *)
Definition replicated (s : float) (arr : Array) : list Element :=
  map (λ _, ENum s) arr.

(** *** Definitions and straight-line code *)

(** The tokens of a body that a definition stores: all but [:dump]. *)
Definition storedTokens (body : list string) : list string :=
  filter (λ token, token ≠ ":dump") body.

(** The number of [:dump] tokens in a body. *)
Definition dumpCount (body : list string) : nat :=
  length (filter (λ token, token = ":dump") body).

(** The interpreter after [n] stack dumps. *)
Definition dumped (showDouble : float → string) (n : nat) (st : Interp) : Interp :=
  mkInterp (functions st) (Nat.iter n (dumpLoops showDouble) (machine st)).

(** A token of straight-line code for the dictionary [dict]: not [:dump],
    no header, and no word of [dict]. *)
Definition plainToken (dict : FunctionDict) (token : string) : Prop :=
  token ≠ ":dump" ∧ isHeader token = false ∧ dict !! token = None.

Section StraightLine.

Variable pow : float → float → float.
Variable showDouble : float → string.
Variable stod : string → option float.

(** What such a token does: the built-in of that name runs, and a token
    that names none is parsed and pushed. *)
Definition plainStep (token : string) : M unit :=
  match builtIns pow showDouble token with
  | Some builtin => builtin
  | None => push (parseArray stod token)
  end.

(** Straight-line code runs its tokens in order; a throw or undefined
    behaviour ends the run. *)
Fixpoint runPlain (tokens : list string) : M unit :=
  match tokens with
  | [] => mret tt
  | token :: rest => plainStep token;; runPlain rest
  end.

End StraightLine.

(** The body [body] with the tokens [new] in place of each token [w]. *)
Definition inlined (w : string) (new body : list string) : list string :=
  flat_map (λ token, if String.eqb token w then new else [token]) body.

(** ** More vocabulary *)

(** The sizes of a shape as the Numbers [dim] pushes. *)
Definition sizesAsDoubles (dims : list nat) : Array :=
  map (λ dim, ENum (Z2double (Z.of_nat dim))) dims.

(** What a built-in may do to the machine: replace at most two arrays at the
    top of the stack by at most two, and add at most one diagnostic line. *)
Definition localEffect (m m' : Machine) : Prop :=
  ∃ (popped pushed base : Stack) (lines : list string),
    stack m = popped ++ base ∧ stack m' = pushed ++ base ∧
    length popped ≤ 2 ∧ length pushed ≤ 2 ∧
    wcerr m' = wcerr m ++ lines ∧ length lines ≤ 1.

(** The built-ins that always return. *)
Definition alwaysReturning : list string :=
  ["cat"; "."; "clear"; "swap"; "dup"; "dim"; "matmul"].

(** A character that is neither a quote nor a bracket. *)
Definition plain (c : ascii) : bool :=
  negb (Ascii.eqb c quoteChar) && negb (Ascii.eqb c "["%char) && negb (Ascii.eqb c "]"%char).

(** The character before the next one, after [chars] have been read. *)
Definition prevAfter (prev : option ascii) (chars : list ascii) : option ascii :=
  fold_left (λ _ c, Some c) chars prev.

(** The rest of a bracketed group, read at depth [d]: no quote, and the
    bracket that takes the depth back to zero is the last character. *)
Fixpoint closes (d : nat) (l : list ascii) : bool :=
  match l with
  | [] => false
  | c :: l' =>
      if Ascii.eqb c quoteChar then false
      else if Ascii.eqb c "["%char then closes (S d) l'
      else if Ascii.eqb c "]"%char then
        match d with
        | 0 => false
        | 1 => isEmpty l'
        | S d' => closes d' l'
        end
      else closes d l'
  end.

(** The rest of a quoted string, read after [prev]: the first quote that no
    backslash precedes is the last character. *)
Fixpoint closesQuote (prev : ascii) (l : list ascii) : bool :=
  match l with
  | [] => false
  | c :: l' =>
      if Ascii.eqb c quoteChar && negb (Ascii.eqb prev backslashChar) then isEmpty l'
      else closesQuote c l'
  end.

Section Items.

Variable iswspace : ascii → bool.

(** A word: not empty, without white space, quotes or brackets. *)
Definition isWord (w : list ascii) : bool :=
  negb (isEmpty w) && forallb (λ c, plain c && negb (iswspace c)) w.

(** A bracketed group, from its opening bracket to the matching one. *)
Definition isGroup (g : list ascii) : bool :=
  match g with
  | c :: l => Ascii.eqb c "["%char && closes 1 l
  | [] => false
  end.

(** A quoted string, from its opening quote to the closing one. *)
Definition isQuoted (q : list ascii) : bool :=
  match q with
  | c :: l => Ascii.eqb c quoteChar && closesQuote c l
  | [] => false
  end.

Definition isItem (item : string) : bool :=
  let l := list_ascii_of_string item in
  isWord l || isGroup l || isQuoted l.

(** A white-space character that is not taken for anything else. *)
Definition isSeparator (sp : ascii) : bool :=
  iswspace sp && plain sp && negb (Ascii.eqb sp backslashChar).

End Items.

(** The scanner state [s] with the tokens [before] in front of its own. *)
Definition withTokens (before : list string) (s : Scan) : Scan :=
  mkScan (before ++ scanTokens s) (scanCurrent s) (bracketDepth s) (inQuotes s).

(** White space as the "C" locale has it: the space, and the control
    characters from the tab to the carriage return. *)
Definition isspaceC (c : ascii) : bool :=
  let n := nat_of_ascii c in
  (n =? 32) || ((9 <=? n) && (n <=? 13)).

(** An element of an array literal, read at bracket depth [d]: no quote, the
    brackets match, and no comma stands outside brackets. *)
Fixpoint element (d : nat) (l : list ascii) : bool :=
  match l with
  | [] => d =? 0
  | c :: l' =>
      if Ascii.eqb c quoteChar then false
      else if Ascii.eqb c "["%char then element (S d) l'
      else if Ascii.eqb c "]"%char then
        match d with
        | 0 => false
        | S d' => element d' l'
        end
      else if Ascii.eqb c ","%char then negb (d =? 0) && element d l'
      else element d l'
  end.

Definition isElement (item : string) : bool := element 0 (list_ascii_of_string item).

Definition noComma (token : string) : bool :=
  forallb (λ c, negb (Ascii.eqb c ","%char)) (list_ascii_of_string token).

(** The token an element leaves, if any: the element without the blanks
    around it, unless nothing is left. *)
Definition tokenOf (item : string) : list string :=
  match trimBlanks (list_ascii_of_string item) with
  | [] => []
  | t => [string_of_list_ascii t]
  end.

(** A text of spaces and tabs. *)
Definition allBlank (s : string) : bool := forallb isBlank (list_ascii_of_string s).

(** [t] is [item] without the blanks around it: it starts and ends with a
    character that is no blank. *)
Definition trimmedFrom (item t : string) : Prop :=
  ∃ before after c1 c2,
    item = before +:+ t +:+ after ∧ allBlank before = true ∧ allBlank after = true ∧
    front t = Some c1 ∧ isBlank c1 = false ∧ back t = Some c2 ∧ isBlank c2 = false.

(** The tokens cut from the elements of a literal: a blank element leaves
    none, any other the text between the blanks around it. *)
Inductive cutTokens : list string → list string → Prop :=
| cut_nil : cutTokens [] []
| cut_blank item items tokens :
    allBlank item = true → cutTokens items tokens → cutTokens (item :: items) tokens
| cut_token item t items tokens :
    trimmedFrom item t → cutTokens items tokens → cutTokens (item :: items) (t :: tokens).

(** After [n] characters, no token and no current text is longer than [n]. *)
Definition within (n : nat) (s : Scan) : Prop :=
  Forall (λ t, String.length t ≤ n) (scanTokens s) ∧ length (scanCurrent s) ≤ n.

Section Showing.

Variable showDouble : float → string.

(** What [printArray] writes for an element that is not an Array. *)
Definition showElement (e : Element) : string :=
  match e with
  | ENum d => showDouble d
  | EChar c => String c EmptyString
  | EText s => quote +:+ s +:+ quote
  | EArr _ => EmptyString
  end.

End Showing.

(** A token taken as it stands: a single character as that character, any
    other token as its text. *)
Definition asText (token : string) : Element :=
  match list_ascii_of_string token with
  | [c] => EChar c
  | _ => EText token
  end.

(** The lines of a stack dump after [out]: each array from the top of the
    stack down, on a line of its own. *)
Definition dumpLines (showDouble : float → string) (s : Stack) (out : string) : string :=
  fold_left (λ out a, (out +:+ printArray_of showDouble (EArr a) 0) +:+ newline) s out.


(** ** Running the monad *)

Lemma bind_Done {A B} (c : M A) (k : A → M B) (m m' : Machine) (a : A) :
  c m = Done (a, m') → (c ≫= k) m = k a m'.
Proof. intros H. unfold mbind, M_bind. now rewrite H. Qed.

Lemma bind_BadVariantAccess {A B} (c : M A) (k : A → M B) (m : Machine) :
  c m = BadVariantAccess → (c ≫= k) m = BadVariantAccess.
Proof. intros H. unfold mbind, M_bind. now rewrite H. Qed.

Lemma bind_Done_inv {A B} (c : M A) (k : A → M B) (m m' : Machine) (b : B) :
  (c ≫= k) m = Done (b, m') → ∃ a m1, c m = Done (a, m1) ∧ k a m1 = Done (b, m').
Proof.
  unfold mbind, M_bind. destruct (c m) as [[a m1] | |]; try discriminate. eauto.
Qed.

(** One step of a run whose first command returns by computation. *)
Ltac mstep := erewrite bind_Done by reflexivity.
Ltac mstep_in H := erewrite bind_Done in H by reflexivity.

(** ** Loops *)

(** A loop whose every round keeps an invariant [P] of the loop state and the
    machine, and establishes [Q] when it returns early, ends in [P] or [Q]. *)
Lemma for_loop_from_inv {St R : Type} (P : St → Machine → Prop) (Q : R → Machine → Prop)
    (body : nat → St → M (St + R)) :
  (∀ i s m r m', P s m → body i s m = Done (r, m') →
     match r with inl s' => P s' m' | inr v => Q v m' end) →
  ∀ count i s m r m', P s m → for_loop_from count i body s m = Done (r, m') →
     match r with inl s' => P s' m' | inr v => Q v m' end.
Proof.
  intros Hbody count. induction count as [| count IH]; intros i s m r m' HP Hrun.
  - simpl in Hrun. injection Hrun as <- <-. exact HP.
  - simpl in Hrun. apply bind_Done_inv in Hrun as ([s1 | v] & m1 & Hb & Hrun).
    + apply (IH (S i) s1 m1); [| exact Hrun]. exact (Hbody i s m (inl s1) m1 HP Hb).
    + injection Hrun as <- <-. exact (Hbody i s m (inr v) m1 HP Hb).
Qed.

Lemma for_loop_from_ext {St R : Type} (body1 body2 : nat → St → M (St + R)) :
  (∀ i s m, body1 i s m = body2 i s m) →
  ∀ count i s m, for_loop_from count i body1 s m = for_loop_from count i body2 s m.
Proof.
  intros Hext count. induction count as [| count IH]; intros i s m; [reflexivity |].
  simpl. unfold mbind, M_bind. rewrite Hext.
  destruct (body2 i s m) as [[[s1 | v] m1] | |]; auto.
Qed.

Lemma for_count_from_pure {St : Type} (f : nat → St → St) (body : nat → St → M St)
    (count i0 : nat) (s : St) (m : Machine) :
  (∀ i s, i0 ≤ i < i0 + count → body i s m = Done (f i s, m)) →
  for_count_from count i0 body s m = Done (fold_left (λ s i, f i s) (seq i0 count) s, m).
Proof.
  revert i0 s. induction count as [| count IH]; intros i0 s Hbody; [reflexivity |].
  simpl. rewrite (bind_Done _ _ _ _ _ (Hbody i0 s ltac:(lia))).
  apply IH. intros i s' Hi. apply Hbody. lia.
Qed.

Lemma fold_left_snoc {A B} (g : A → B) (l : list A) (acc : list B) :
  fold_left (λ res i, res ++ [g i]) l acc = acc ++ map g l.
Proof.
  revert acc. induction l as [| x l IH]; intros acc; simpl; [now rewrite app_nil_r |].
  rewrite IH. now rewrite <- app_assoc.
Qed.

Lemma for_each_check {A} (ok : A → bool) (body : A → unit → M (unit + unit)) (v : list A)
    (m : Machine) :
  (∀ x, ok x = true → body x tt m = Done (inl tt, m)) →
  (∀ x, ok x = false → ∃ line, body x tt m = Done (inr tt, withDiagnostic line m)) →
  if forallb ok v then for_each v body tt m = Done (inl tt, m)
  else ∃ line, for_each v body tt m = Done (inr tt, withDiagnostic line m).
Proof.
  intros Hok Hbad. induction v as [| x v IH]; [reflexivity |].
  simpl. destruct (ok x) eqn:Hx; simpl.
  - rewrite (bind_Done _ _ _ _ _ (Hok x Hx)). exact IH.
  - destruct (Hbad x Hx) as (line & Hrun). exists line.
    now rewrite (bind_Done _ _ _ _ _ Hrun).
Qed.

(** ** Facts about doubles *)

(** Addition and multiplication of doubles are commutative. *)
Lemma double_add_comm (x y : float) : (x + y)%float = (y + x)%float.
Proof.
  apply Prim2SF_inj. rewrite !add_spec. unfold SF64add.
  destruct (Prim2SF x) as [sx | sx | | sx mx ex], (Prim2SF y) as [sy | sy | | sy my ey];
    try reflexivity; try (destruct sx, sy; reflexivity).
  unfold SFadd. now rewrite Z.min_comm, Z.add_comm.
Qed.

Lemma double_mul_comm (x y : float) : (x * y)%float = (y * x)%float.
Proof.
  apply Prim2SF_inj. rewrite !mul_spec. unfold SF64mul.
  destruct (Prim2SF x) as [sx | sx | | sx mx ex], (Prim2SF y) as [sy | sy | | sy my ey];
    try reflexivity; try (destruct sx, sy; reflexivity).
  unfold SFmul. now rewrite xorb_comm, Pos.mul_comm, Z.add_comm.
Qed.

(** *** Integers as doubles *)

Section IntegerDoubles.

Local Open Scope Z_scope.

Lemma iter_xO_spec (p k : positive) :
  Zpos (Pos.iter xO p k) = Zpos p * 2 ^ Zpos k ∧
  Zpos (digits2_pos (Pos.iter xO p k)) = Zpos (digits2_pos p) + Zpos k.
Proof.
  induction k as [| k IH] using Pos.peano_ind.
  - simpl. lia.
  - rewrite Pos.iter_succ. destruct IH as [IH1 IH2].
    change (digits2_pos (Pos.iter xO p k)~0) with (Pos.succ (digits2_pos (Pos.iter xO p k))).
    rewrite Pos2Z.inj_xO, IH1, !Pos2Z.inj_succ, IH2, Z.pow_succ_r by lia. lia.
Qed.

Lemma shl_align_spec (p : positive) (e e' : Z) mz ez :
  e' ≤ e → shl_align p e e' = (mz, ez) →
  ez = e' ∧ Zpos mz = Zpos p * 2 ^ (e - e') ∧
  Zpos (digits2_pos mz) = Zpos (digits2_pos p) + (e - e').
Proof.
  intros Hle. unfold shl_align. destruct (e' - e) as [| k | k] eqn:Hd; try lia.
  - intros [= <- <-]. replace (e - e') with 0 by lia. simpl. lia.
  - intros [= <- <-]. replace (e - e') with (Zpos k) by lia.
    split; [reflexivity | apply iter_xO_spec].
Qed.

(** Rounding a mantissa that is already canonical leaves it alone. *)
Lemma binary_round_aux_canonical (s : bool) (m : positive) (e : Z) :
  bounded prec emax m e = true →
  binary_round_aux prec emax s (Zpos m) e loc_Exact = S754_finite s m e.
Proof.
  unfold bounded, canonical_mantissa. intros [Hc He]%andb_prop.
  apply Z.eqb_eq in Hc. 
  unfold binary_round_aux, shr_fexp. unfold Zdigits2. rewrite Hc, Z.sub_diag.
  simpl shr. cbv iota beta. simpl round_nearest_even. unfold Zdigits2. rewrite Hc, Z.sub_diag. simpl.
  now rewrite He.
Qed.

Lemma binary_normalize_small (p : positive) mz ez :
  Zpos (digits2_pos p) ≤ 53 →
  shl_align p 0 (Zpos (digits2_pos p) - 53) = (mz, ez) →
  binary_normalize prec emax (Zpos p) 0 false = S754_finite false mz ez.
Proof.
  intros Hd Hs. unfold binary_normalize, binary_round.
  assert (Hf : fexp prec emax (Zpos (digits2_pos p) + 0) = Zpos (digits2_pos p) - 53).
  { unfold fexp, emin, prec, emax. lia. }
  rewrite Hf, Hs. apply binary_round_aux_canonical.
  apply shl_align_spec in Hs as (-> & Hm & Hdig); [| lia].
  unfold bounded, canonical_mantissa. apply andb_true_intro. split.
  - apply Z.eqb_eq. rewrite Hdig. unfold fexp, emin, prec, emax. lia.
  - apply Z.leb_le. unfold prec, emax. lia.
Qed.

Lemma digits2_pos_bounds (p : positive) :
  2 ^ (Zpos (digits2_pos p) - 1) ≤ Zpos p < 2 ^ Zpos (digits2_pos p).
Proof.
  induction p as [p IH | p IH |]; simpl digits2_pos.
  - rewrite Pos2Z.inj_succ, Z.pow_succ_r by lia.
    replace (Z.succ (Zpos (digits2_pos p)) - 1) with (Z.succ (Zpos (digits2_pos p) - 1)) by lia.
    rewrite Z.pow_succ_r by lia. lia.
  - rewrite Pos2Z.inj_succ, Z.pow_succ_r by lia.
    replace (Z.succ (Zpos (digits2_pos p)) - 1) with (Z.succ (Zpos (digits2_pos p) - 1)) by lia.
    rewrite Z.pow_succ_r by lia. lia.
  - simpl. lia.
Qed.

Lemma digits2_pos_small (p : positive) : Zpos p < 2 ^ 53 → Zpos (digits2_pos p) ≤ 53.
Proof.
  intros Hp. destruct (Z_le_gt_dec (Zpos (digits2_pos p)) 53) as [H | H]; [exact H |].
  pose proof (digits2_pos_bounds p) as [Hlow _].
  assert (2 ^ 53 ≤ 2 ^ (Zpos (digits2_pos p) - 1)) by (apply Z.pow_le_mono_r; lia). lia.
Qed.

(** The [SpecFloat] view of a positive integer below 2^53 converted to a
    double: the integer shifted up to a 53-bit mantissa. *)
Lemma Prim2SF_Z2double_small (p : positive) :
  Zpos p < 2 ^ 53 →
  ∃ mz ez, Prim2SF (Z2double (Zpos p)) = S754_finite false mz ez ∧
           -52 ≤ ez ≤ 0 ∧ Zpos mz = Zpos p * 2 ^ (- ez).
Proof.
  intros Hp. pose proof (digits2_pos_small p Hp) as Hd.
  destruct (shl_align p 0 (Zpos (digits2_pos p) - 53)) as [mz ez] eqn:Hs.
  exists mz, ez. unfold Z2double. rewrite (binary_normalize_small p mz ez Hd Hs).
  apply shl_align_spec in Hs as Hspec; [| lia]. destruct Hspec as (-> & Hm & Hdig).
  split; [| split; [lia | rewrite Hm; f_equal; lia]].
  apply Prim2SF_SF2Prim. unfold valid_binary, bounded, canonical_mantissa.
  apply andb_true_intro. split.
  - apply Z.eqb_eq. rewrite Hdig. unfold fexp, emin, prec, emax. lia.
  - apply Z.leb_le. unfold prec, emax. lia.
Qed.

Lemma double_eqb_refl_finite (x : float) s m e :
  Prim2SF x = S754_finite s m e → PrimFloat.eqb x x = true.
Proof.
  intros H. rewrite FloatAxioms.eqb_spec, H. unfold SFeqb, SFcompare.
  rewrite Z.compare_refl, Pos.compare_cont_refl. now destruct s.
Qed.

(** A non-negative integer below 2^53, as a double, passes the integrality
    test of the built-ins and converts back to itself. *)
Lemma Z2double_small_integer (n : Z) :
  0 ≤ n < 2 ^ 53 →
  PrimFloat.ltb (Z2double n) 0 = false ∧
  PrimFloat.eqb (floor (Z2double n)) (Z2double n) = true ∧
  double_trunc (Z2double n) = Some n.
Proof.
  intros [Hn0 Hn]. destruct n as [| p | p]; [| | lia].
  - repeat split; reflexivity.
  - destruct (Prim2SF_Z2double_small p Hn) as (mz & ez & HSF & Hez & Hm).
    assert (Hshift : ez < 0 → Z.shiftr (Zpos mz) (- ez) = Zpos p).
    { intros Hneg. rewrite Z.shiftr_div_pow2, Hm by lia.
      apply Z.div_mul. apply Z.pow_nonzero; lia. }
    assert (Hfloor : floor (Z2double (Zpos p)) = Z2double (Zpos p)).
    { unfold floor. rewrite HSF. destruct (0 <=? ez) eqn:Hcmp; [reflexivity |].
      apply Z.leb_gt in Hcmp. simpl cond_Zopp. now rewrite Hshift. }
    split; [| split].
    + rewrite FloatAxioms.ltb_spec, HSF. reflexivity.
    + rewrite Hfloor. exact (double_eqb_refl_finite _ _ _ _ HSF).
    + unfold double_trunc. rewrite HSF. simpl cond_Zopp. f_equal.
      destruct (0 <=? ez) eqn:Hcmp.
      * apply Z.leb_le in Hcmp. assert (ez = 0) as -> by lia.
        rewrite Z.shiftl_0_r, Hm. simpl. lia.
      * apply Z.leb_gt in Hcmp. now apply Hshift.
Qed.

Lemma iter_pos_as_Pos_iter {A} (f : A → A) (k : positive) (x : A) :
  SpecFloat.iter_pos f k x = Pos.iter f x k.
Proof.
  revert x. induction k as [k IH | k IH |]; intros x; simpl; [| | reflexivity].
  - rewrite !IH. now rewrite <- !Pos.iter_swap.
  - now rewrite !IH.
Qed.

Lemma shr_1_iter_xO (m k : positive) :
  Pos.iter shr_1 {| shr_m := Zpos (Pos.iter xO m k); shr_r := false; shr_s := false |} k =
  {| shr_m := Zpos m; shr_r := false; shr_s := false |}.
Proof.
  induction k as [| k IH] using Pos.peano_ind; [reflexivity |].
  rewrite !Pos.iter_succ, <- Pos.iter_swap. exact IH.
Qed.

(** Converting the integer [m * 2^k] gives back the double [(m, k)]. *)
Lemma binary_normalize_shifted (m k : positive) :
  bounded prec emax m (Zpos k) = true →
  binary_normalize prec emax (Zpos (Pos.iter xO m k)) 0 false = S754_finite false m (Zpos k).
Proof.
  intros Hb. pose proof Hb as Hb'.
  unfold bounded, canonical_mantissa in Hb'. apply andb_prop in Hb' as [Hc He].
  apply Z.eqb_eq in Hc. apply Z.leb_le in He.
  destruct (iter_xO_spec m k) as [_ Hdig].
  unfold binary_normalize, binary_round.
  rewrite Hdig, Z.add_0_r, Hc. unfold shl_align. rewrite Z.sub_0_r. cbv beta iota zeta.
  unfold binary_round_aux, shr_fexp.
  change (Zdigits2 (Z.pos (Pos.iter xO m k))) with (Z.pos (digits2_pos (Pos.iter xO m k))).
  rewrite Hdig, Z.add_0_r, Hc, Z.sub_0_r.
  unfold shr at 1.
  change (shr_record_of_loc (Z.pos (Pos.iter xO m k)) loc_Exact)
    with {| shr_m := Z.pos (Pos.iter xO m k); shr_r := false; shr_s := false |}.
  rewrite iter_pos_as_Pos_iter, shr_1_iter_xO. cbv beta iota zeta.
  simpl shr_m. simpl loc_of_shr_record. simpl round_nearest_even.
  change (Zdigits2 (Z.pos m)) with (Z.pos (digits2_pos m)).
  rewrite Z.add_0_l, Hc, Z.sub_diag. simpl.
  apply Z.leb_le in He. now rewrite He.
Qed.

Lemma SFeqb_finite_eq (x : spec_float) (m : positive) (e : Z) :
  SFeqb x (S754_finite false m e) = true → x = S754_finite false m e.
Proof.
  unfold SFeqb, SFcompare. destruct x as [s | s | | s m' e']; try discriminate.
  - now destruct s.
  - destruct s; [discriminate |].
    destruct (e' ?= e) eqn:He; try discriminate.
    destruct (Pos.compare_cont Eq m' m) eqn:Hm; try discriminate.
    intros _. apply Z.compare_eq in He. apply Pos.compare_eq in Hm. now subst.
Qed.

(** A positive double that passes the integrality test and fits [size_t] is
    the double of its integer value. *)
Lemma size_t_round_trip (val : float) (d : Z) :
  PrimFloat.leb val 0 = false →
  PrimFloat.eqb (floor val) val = true →
  static_cast_size_t val = Some d →
  Z2double d = val ∧ 1 ≤ d < SIZE_MODULUS.
Proof.
  intros Hpos Hint Hcast.
  rewrite FloatAxioms.leb_spec in Hpos. rewrite FloatAxioms.eqb_spec in Hint.
  unfold static_cast_size_t, double_trunc in Hcast. unfold floor in Hint.
  pose proof (Prim2SF_valid val) as Hvalid.
  pose proof (SF2Prim_Prim2SF val) as Hback.
  change (Prim2SF 0) with (S754_zero false) in Hpos.
  destruct (Prim2SF val) as [s | s | | s m e] eqn:HSF; try discriminate.
  - destruct s; [discriminate |]. simpl cond_Zopp in *.
    assert (Hgoal : Z2double d = val → Z2double d = val ∧ 1 ≤ d < SIZE_MODULUS).
    { intros Hd. split; [exact Hd |].
      destruct (0 <=? e) eqn:Hcmp;
        match type of Hcast with context [decide ?P] => destruct (decide P) as [Hr | Hr] end;
        try discriminate; injection Hcast as <-.
      - split; [| lia]. apply Z.leb_le in Hcmp. rewrite Z.shiftl_mul_pow2 by lia.
        assert (0 < 2 ^ e) by (apply Z.pow_pos_nonneg; lia). nia.
      - split; [| lia].
        destruct (Z.shiftr (Z.pos m) (- e)) as [| q | q] eqn:Hq; [| lia | lia].
        exfalso. rewrite <- HSF in Hback at 1. 
        assert (Hz : val = 0%float).
        { rewrite <- Hd. reflexivity. }
        rewrite Hz in HSF. discriminate HSF. }
    apply Hgoal. clear Hgoal.
    destruct (0 <=? e) eqn:Hcmp.
    + apply Z.leb_le in Hcmp.
      match type of Hcast with context [decide ?P] => destruct (decide P) as [Hr | Hr] end;
        try discriminate. injection Hcast as <-.
      rewrite <- Hback. unfold Z2double. f_equal.
      destruct e as [| k | k]; [| | lia].
      * rewrite Z.shiftl_0_r. unfold binary_normalize, binary_round.
        simpl valid_binary in Hvalid. pose proof Hvalid as Hb.
        unfold bounded, canonical_mantissa in Hb. apply andb_prop in Hb as [Hc He].
        apply Z.eqb_eq in Hc. rewrite Hc. unfold shl_align. simpl Z.sub.
        now apply binary_round_aux_canonical.
      * destruct (iter_xO_spec m k) as [Hval _].
        rewrite Z.shiftl_mul_pow2, <- Hval by lia.
        now apply binary_normalize_shifted.
    + apply SFeqb_finite_eq in Hint. rewrite <- HSF in Hint. apply Prim2SF_inj in Hint.
      match type of Hcast with context [decide ?P] => destruct (decide P) as [Hr | Hr] end;
        try discriminate. injection Hcast as <-. exact Hint.
Qed.

End IntegerDoubles.

(** ** Stack underflow *)

(** C10: a built-in that finds fewer stack items than it requires prints one
    diagnostic line and leaves the machine otherwise as it was: the stack is
    unchanged, nothing is written to the output, and the check comes before
    any pop. *)
Theorem underflow_is_not_destructive
    (pow : float → float → float) (showDouble : float → string)
    (name : string) (required : nat) (m : Machine) :
  In (name, required) requiredItems →
  length (stack m) < required →
  ∃ builtin line,
    builtIns pow showDouble name = Some builtin ∧
    builtin m = Done (tt, withDiagnostic line m).
Proof.
  intros Hin Hlen. unfold requiredItems in Hin. simpl in Hin.
  repeat (destruct Hin as [Hin | Hin];
          [ injection Hin as <- <-; eexists; eexists; split; [reflexivity |] | ]);
    try contradiction.
  all: destruct m as [s out err]; simpl in Hlen.
  all: destruct s as [| a [| b s]]; simpl in Hlen; try lia.
  all: reflexivity.
Qed.

(** [swap] on a stack that holds a single item. *)
Lemma underflow_is_not_destructive_witness :
  ∃ builtin line,
    builtIns PrimFloat.mul (λ _, "") "swap" = Some builtin ∧
    builtin (mkMachine [[ENum 1]] "" []) =
      Done (tt, withDiagnostic line (mkMachine [[ENum 1]] "" [])).
Proof.
  apply (underflow_is_not_destructive PrimFloat.mul (λ _, "") "swap" 2).
  - unfold requiredItems. do 6 right. left. reflexivity.
  - simpl. lia.
Defined.

(** ** The element-wise recursion *)

Section BinaryOpFacts.

Variable opName : string.
Variable op : float → float → float.

Lemma applyOpRecursive_leaf x y n :
  applyOpRecursive opName op x y [n] =
  (r ← for_loop n (leafStep opName op x y) []; mret (loopResult r)).
Proof. reflexivity. Qed.

Lemma applyOpRecursive_nested x y size n shape :
  applyOpRecursive opName op x y (size :: n :: shape) =
  (r ← for_loop size
         (nestedStep (λ xSub ySub, applyOpRecursive opName op xSub ySub (n :: shape)) x y) [];
   mret (loopResult r)).
Proof. reflexivity. Qed.

Lemma applyBinaryOp_run a b rest out err :
  applyBinaryOp opName op (mkMachine (b :: a :: rest) out err) =
  match broadcastShape a b with
  | Some shape =>
      (result ← applyOpRecursive opName op a b shape; pushResult result)
        (mkMachine rest out err)
  | None =>
      Done (tt, mkMachine rest out
                  (err ++ ["Error: " +:+ opName +:+ " requires a scalar or arrays of equal shape"]))
  end.
Proof.
  unfold applyBinaryOp, broadcastShape.
  rewrite (bind_Done _ _ _ _ _ (eq_refl : stack_size _ = Done (_, _))).
  destruct (decide (length (stack (mkMachine (b :: a :: rest) out err)) < 2)) as [Hlt | _];
    [simpl in Hlt; lia |].
  do 4 mstep.
  destruct (isScalar a && negb (isScalar b)); [reflexivity |].
  destruct (isScalar b && negb (isScalar a)); [reflexivity |].
  destruct (shapesEqual (getShape a []) (getShape b [])); reflexivity.
Qed.

(** Reading an operand does not touch the machine. *)
Lemma leafOperand_pure x i m e m' : leafOperand x i m = Done (e, m') → m' = m.
Proof.
  unfold leafOperand, at_index. destruct x as [| e0 [| e1 x]]; simpl.
  - destruct i; discriminate.
  - now intros [= _ <-].
  - destruct ((e0 :: e1 :: x) !! i); [now intros [= _ <-] | discriminate].
Qed.

Lemma at_index_pure {A} (v : list A) i m (x : A) m' : at_index v i m = Done (x, m') → m' = m.
Proof. unfold at_index. destruct (v !! i); [now intros [= _ <-] | discriminate]. Qed.

Lemma getArray_pure e m a m' : getArray e m = Done (a, m') → m' = m.
Proof. destruct e; try discriminate. now intros [= _ <-]. Qed.

Lemma subOperand_pure x i m a m' : subOperand x i m = Done (a, m') → m' = m.
Proof.
  assert (Hgen : (xi ← at_index x i; getArray xi) m = Done (a, m') → m' = m).
  { intros H. apply bind_Done_inv in H as (xi & m1 & H1 & H2).
    apply at_index_pure in H1 as ->. now apply getArray_pure in H2. }
  unfold subOperand. destruct x as [| [] [| e1 x]]; try exact Hgen.
  now intros [= _ <-].
Qed.

Lemma leafStep_effect x y i res m r m' :
  leafStep opName op x y i res m = Done (r, m') →
  match r with
  | inl _ => m' = m
  | inr v => v = [] ∧ ∃ line, leafDiagnostic opName line ∧ m' = withDiagnostic line m
  end.
Proof.
  unfold leafStep. intros Hrun.
  apply bind_Done_inv in Hrun as (xElem & m1 & Hx & Hrun). apply leafOperand_pure in Hx as ->.
  apply bind_Done_inv in Hrun as (yElem & m2 & Hy & Hrun). apply leafOperand_pure in Hy as ->.
  destruct (negb (holdsDouble xElem) || negb (holdsDouble yElem)) eqn:Hnum.
  - injection Hrun as <- <-. split; [reflexivity |]. eexists. split; [left |]; reflexivity.
  - destruct yElem; simpl in Hnum; try (rewrite orb_true_r in Hnum; discriminate).
    destruct xElem; simpl in Hnum; try discriminate.
    mstep_in Hrun.
    destruct (String.eqb opName "/") eqn:Hname; simpl in Hrun.
    + destruct (PrimFloat.eqb d 0); injection Hrun as <- <-; [| reflexivity].
      split; [reflexivity |]. eexists. split; [right |]; [| reflexivity].
      split; [now apply String.eqb_eq | reflexivity].
    + injection Hrun as <- <-. reflexivity.
Qed.

Lemma nestedStep_effect recurse x y i res m r m' :
  (∀ xSub ySub m0 sub m1,
     recurse xSub ySub m0 = Done (sub, m1) → quietOrFailed opName m0 sub m1) →
  nestedStep recurse x y i res m = Done (r, m') →
  match r with
  | inl _ => m' = m
  | inr v => v = [] ∧ quietOrFailed opName m [] m'
  end.
Proof.
  intros Hrec Hb. unfold nestedStep in Hb.
  apply bind_Done_inv in Hb as (xSub & mx & Hx & Hb). apply subOperand_pure in Hx as ->.
  apply bind_Done_inv in Hb as (ySub & my & Hy & Hb). apply subOperand_pure in Hy as ->.
  apply bind_Done_inv in Hb as (subRes & ms & Hsub & Hb). apply Hrec in Hsub.
  destruct subRes as [| e subRes]; injection Hb as <- <-.
  - split; [reflexivity | exact Hsub].
  - destruct Hsub as [-> | [Hnil _]]; [reflexivity | discriminate].
Qed.

(** The recursion prints at most one line, and returns the empty Array when
    it does. *)
Lemma applyOpRecursive_effect shape : ∀ x y m res m',
  applyOpRecursive opName op x y shape m = Done (res, m') → quietOrFailed opName m res m'.
Proof.
  induction shape as [| n shape IH]; intros x y m res m' Hrun; [discriminate |].
  destruct shape as [| n' shape'].
  - rewrite applyOpRecursive_leaf in Hrun.
    apply bind_Done_inv in Hrun as (r & m1 & Hloop & Hret). injection Hret as <- <-.
    apply (for_loop_from_inv (λ _ m1, m1 = m)
             (λ v m1, v = [] ∧ ∃ line, leafDiagnostic opName line ∧ m1 = withDiagnostic line m))
      in Hloop; [| | reflexivity].
    + destruct r as [res | v]; [left; exact Hloop | right; exact Hloop].
    + intros i s m0 r0 m0' -> Hb. exact (leafStep_effect _ _ _ _ _ _ _ Hb).
  - rewrite applyOpRecursive_nested in Hrun.
    apply bind_Done_inv in Hrun as (r & m1 & Hloop & Hret). injection Hret as <- <-.
    apply (for_loop_from_inv (λ _ m1, m1 = m)
             (λ v m1, v = [] ∧ quietOrFailed opName m [] m1)) in Hloop; [| | reflexivity].
    + destruct r as [res | v]; [left; exact Hloop | destruct Hloop as [-> Hq]; exact Hq].
    + intros i s m0 r0 m0' -> Hb. exact (nestedStep_effect _ _ _ _ _ _ _ _ IH Hb).
Qed.

End BinaryOpFacts.

(** ** Facts about inferred shapes *)

Lemma getShape_of_app (e : Element) : ∀ shape,
  getShape_of e shape = shape ++ getShape_of e [].
Proof.
  induction e as [c | d | s | arr IH] using Element_nested_ind; intros shape;
    try (simpl; now rewrite app_nil_r).
  simpl. destruct arr as [| e0 rest]; [reflexivity |].
  destruct e0 as [| | | first]; try reflexivity.
  destruct (isUniformWith (length first) rest); [| reflexivity].
  apply Forall_cons_1 in IH as [IH0 _].
  rewrite (IH0 (shape ++ _)), (IH0 [_]). now rewrite app_assoc.
Qed.

(** The shape of an array is its size alone, or its size followed by the
    shape of its first element when that element is an Array and the level
    is uniform. *)
Lemma getShape_unfold (arr : Array) :
  getShape arr [] =
  length arr ::
  match arr with
  | EArr first :: rest =>
      if isUniformWith (length first) rest then getShape first [] else []
  | _ => []
  end.
Proof.
  unfold getShape. simpl. destruct arr as [| e0 rest]; [reflexivity |].
  destruct e0 as [| | | first]; try reflexivity.
  destruct (isUniformWith (length first) rest); [| reflexivity].
  exact (getShape_of_app (EArr first) [_]).
Qed.

Lemma getShape_scalar (s : float) : getShape [ENum s] [] = [1].
Proof. reflexivity. Qed.

(** ** Scalar against nested array *)

Section ScalarBroadcast.

Variable opName : string.
Variable op : float → float → float.

Lemma for_loop_first_throws {St R} (n : nat) (body : nat → St → M (St + R)) s m :
  body 0 s m = BadVariantAccess → for_loop (S n) body s m = BadVariantAccess.
Proof. intros H. unfold for_loop. simpl. now apply bind_BadVariantAccess. Qed.

Lemma recursion_scalar_left_throws (s : float) (y : Array) size n shape m :
  applyOpRecursive opName op [ENum s] y (S size :: n :: shape) m = BadVariantAccess.
Proof.
  rewrite applyOpRecursive_nested. apply bind_BadVariantAccess.
  apply for_loop_first_throws. reflexivity.
Qed.

Lemma recursion_scalar_right_throws (s : float) first others size n shape m :
  applyOpRecursive opName op (EArr first :: others) [ENum s] (S size :: n :: shape) m
  = BadVariantAccess.
Proof.
  rewrite applyOpRecursive_nested. apply bind_BadVariantAccess.
  apply for_loop_first_throws. unfold nestedStep.
  assert (Hx : subOperand (EArr first :: others) 0 m = Done (first, m))
    by (destruct others; reflexivity).
  rewrite (bind_Done _ _ _ _ _ Hx). reflexivity.
Qed.

Lemma isScalar_nested first others : isScalar (EArr first :: others) = false.
Proof. destruct others; reflexivity. Qed.

End ScalarBroadcast.

(** C1 (where the code departs from it): a scalar against an array of rank two
    or more.  The element-wise recursion asks the scalar operand for a
    sub-array, [std::get<Array>] throws, and no result is pushed; this
    happens in both operand orders. *)
Theorem scalar_against_nested_array_throws
    (opName : string) (op : float → float → float)
    (s : float) (first others : Array) (rest : Stack) (out : string) (err : list string) :
  isUniformWith (length first) others = true →
  applyBinaryOp opName op
    (mkMachine ((EArr first :: others) :: [ENum s] :: rest) out err) = BadVariantAccess ∧
  applyBinaryOp opName op
    (mkMachine ([ENum s] :: (EArr first :: others) :: rest) out err) = BadVariantAccess.
Proof.
  intros Huniform.
  assert (Hshape : ∃ n shape,
             getShape (EArr first :: others) [] = S (length others) :: n :: shape).
  { rewrite getShape_unfold, Huniform, (getShape_unfold first). simpl. eauto. }
  destruct Hshape as (n & shape & Hshape).
  split; rewrite applyBinaryOp_run; unfold broadcastShape;
    rewrite isScalar_nested; simpl; rewrite Hshape; apply bind_BadVariantAccess.
  - apply recursion_scalar_left_throws.
  - apply recursion_scalar_right_throws.
Qed.

(** [2 [[1 2] [3 4]] +] and [[[1 2] [3 4]] 2 +]. *)
Lemma scalar_against_nested_array_throws_witness :
  applyBinaryOp "+" PrimFloat.add
    (mkMachine ((EArr [ENum 1; ENum 2] :: [EArr [ENum 3; ENum 4]]) :: [ENum 2] :: []) "" [])
    = BadVariantAccess ∧
  applyBinaryOp "+" PrimFloat.add
    (mkMachine ([ENum 2] :: (EArr [ENum 1; ENum 2] :: [EArr [ENum 3; ENum 4]]) :: []) "" [])
    = BadVariantAccess.
Proof.
  apply (scalar_against_nested_array_throws "+" PrimFloat.add 2
           [ENum 1; ENum 2] [EArr [ENum 3; ENum 4]] [] "" []).
  reflexivity.
Defined.

(** The other departure: operands without elements.  The empty result is
    taken for the error marker, so nothing is pushed and nothing is
    reported. *)
Lemma empty_operands_push_nothing
    (opName : string) (op : float → float → float)
    (rest : Stack) (out : string) (err : list string) :
  applyBinaryOp opName op (mkMachine ([] :: [] :: rest) out err)
  = Done (tt, mkMachine rest out err).
Proof. reflexivity. Qed.

(** ** Operand order of the scalar broadcast *)

Section Symmetry.

Variable opName : string.
Variable op : float → float → float.
Hypothesis op_comm : ∀ x y, op x y = op y x.
Hypothesis not_division : opName ≠ "/".

Lemma leafOperand_run x i m :
  leafOperand x i m =
  match leafValue x i with
  | Some e => Done (e, m)
  | None => Undefined
  end.
Proof.
  unfold leafOperand, leafValue, at_index. destruct x as [| e0 [| e1 x]]; try reflexivity.
  destruct ((e0 :: e1 :: x) !! i); reflexivity.
Qed.

Lemma leafStep_comm x y i res m :
  leafStep opName op x y i res m = leafStep opName op y x i res m.
Proof.
  unfold leafStep, mbind, M_bind. rewrite !leafOperand_run.
  destruct (leafValue x i) as [xElem |] eqn:Hx, (leafValue y i) as [yElem |] eqn:Hy;
    rewrite ?leafOperand_run, ?Hx, ?Hy; try reflexivity.
  destruct xElem as [| xv | |], yElem as [| yv | |]; try reflexivity.
  simpl. apply String.eqb_neq in not_division. rewrite not_division. simpl.
  now rewrite op_comm.
Qed.

Lemma recursion_leaf_comm x y n m :
  applyOpRecursive opName op x y [n] m = applyOpRecursive opName op y x [n] m.
Proof.
  rewrite !applyOpRecursive_leaf. unfold mbind, M_bind, for_loop.
  now rewrite (for_loop_from_ext _ _ (leafStep_comm x y)).
Qed.

Lemma recursion_scalar_comm (s : float) (A : Array) m :
  applyOpRecursive opName op [ENum s] A (getShape A []) m =
  applyOpRecursive opName op A [ENum s] (getShape A []) m.
Proof.
  rewrite getShape_unfold.
  destruct A as [| [| | | first] others]; try apply recursion_leaf_comm.
  destruct (isUniformWith (length first) others); [| apply recursion_leaf_comm].
  rewrite (getShape_unfold first). simpl length.
  now rewrite recursion_scalar_left_throws, recursion_scalar_right_throws.
Qed.

Lemma broadcastShape_scalar_left (s : float) (A : Array) :
  broadcastShape [ENum s] A = Some (getShape A []).
Proof.
  unfold broadcastShape. destruct (isScalar A) eqn:HA; [| reflexivity].
  destruct A as [| [] [| e A]]; try discriminate. reflexivity.
Qed.

Lemma broadcastShape_scalar_right (s : float) (A : Array) :
  broadcastShape A [ENum s] = Some (getShape A []).
Proof.
  unfold broadcastShape. destruct (isScalar A) eqn:HA; [| reflexivity].
  destruct A as [| [] [| e A]]; try discriminate. reflexivity.
Qed.

End Symmetry.

(** For a commutative operation the scalar broadcast does not depend on the
    operand order. *)
Lemma broadcast_symmetric_when_commutative
    (opName : string) (op : float → float → float)
    (s : float) (A : Array) (rest : Stack) (out : string) (err : list string) :
  (∀ x y, op x y = op y x) →
  opName ≠ "/" →
  applyBinaryOp opName op (mkMachine (A :: [ENum s] :: rest) out err) =
  applyBinaryOp opName op (mkMachine ([ENum s] :: A :: rest) out err).
Proof.
  intros Hcomm Hname. rewrite !applyBinaryOp_run.
  rewrite broadcastShape_scalar_left, broadcastShape_scalar_right.
  unfold mbind, M_bind. now rewrite (recursion_scalar_comm opName op Hcomm Hname).
Qed.

(** ** Where the broadcast works *)

Section CombineEquations.

Variable op : float → float → float.

Lemma combineArrays_cons x xs y ys :
  combineArrays op (x :: xs) (y :: ys) = combine op x y :: combineArrays op xs ys.
Proof. reflexivity. Qed.

Lemma combineArrays_nil_l ys : combineArrays op [] ys = [].
Proof. reflexivity. Qed.

Lemma combine_arrays xs ys : combine op (EArr xs) (EArr ys) = EArr (combineArrays op xs ys).
Proof. reflexivity. Qed.

End CombineEquations.

(** A loop whose body never returns early folds its body over the indices. *)
Lemma for_loop_from_continue {St R : Type} (f : nat → St → St) (body : nat → St → M (St + R))
    (count i0 : nat) (s : St) (m : Machine) :
  (∀ i s, i0 ≤ i < i0 + count → body i s m = Done (inl (f i s), m)) →
  for_loop_from count i0 body s m = Done (inl (fold_left (λ s i, f i s) (seq i0 count) s), m).
Proof.
  revert i0 s. induction count as [| count IH]; intros i0 s Hbody; [reflexivity |].
  simpl. rewrite (bind_Done _ _ _ _ _ (Hbody i0 s ltac:(lia))).
  apply IH. intros i s' Hi. apply Hbody. lia.
Qed.

Section ElementwiseFacts.

Variable opName : string.
Variable op : float → float → float.

(** The leaf loop over positions that hold Numbers. *)
Lemma recursion_leaf_values (x y : Array) (n : nat) (fx fy : nat → float) (m : Machine) :
  (∀ i, i < n → leafValue x i = Some (ENum (fx i)) ∧ leafValue y i = Some (ENum (fy i))) →
  (opName = "/" → ∀ i, i < n → PrimFloat.eqb (fy i) 0 = false) →
  applyOpRecursive opName op x y [n] m =
  Done (map (λ i, ENum (op (fx i) (fy i))) (seq 0 n), m).
Proof.
  intros Hvalues Hzero. rewrite applyOpRecursive_leaf. unfold for_loop.
  assert (Hloop : ∀ i res, 0 ≤ i < 0 + n →
            leafStep opName op x y i res m = Done (inl (res ++ [ENum (op (fx i) (fy i))]), m)).
  2: { rewrite (bind_Done _ _ _ _ _
                  (for_loop_from_continue (λ i res, res ++ [ENum (op (fx i) (fy i))])
                     _ n 0 [] m Hloop)).
       simpl loopResult. now rewrite fold_left_snoc. }
  intros i res Hi. destruct (Hvalues i ltac:(lia)) as [Hx Hy].
  unfold leafStep, mbind, M_bind. rewrite leafOperand_run, Hx, leafOperand_run, Hy. simpl.
  destruct (String.eqb opName "/") eqn:Hname; [| reflexivity].
  apply String.eqb_eq in Hname. now rewrite (Hzero Hname i ltac:(lia)).
Qed.

Lemma subOperand_run (x : Array) (i : nat) (sub : Array) (m : Machine) :
  x !! i = Some (EArr sub) → subOperand x i m = Done (sub, m).
Proof.
  intros Hx. unfold subOperand, at_index.
  destruct x as [| e0 [| e1 x]]; [discriminate | |].
  - destruct i; [| discriminate]. injection Hx as ->. reflexivity.
  - destruct e0; rewrite Hx; reflexivity.
Qed.

(** The loop over sub-arrays whose recursive calls return non-empty
    results. *)
Lemma recursion_nested_values (recurse : Array → Array → M Array) (x y : Array) (n : nat)
    (fx fy result : nat → Array) (m : Machine) :
  (∀ i, i < n → x !! i = Some (EArr (fx i)) ∧ y !! i = Some (EArr (fy i))) →
  (∀ i, i < n → recurse (fx i) (fy i) m = Done (result i, m) ∧ result i ≠ []) →
  for_loop n (nestedStep recurse x y) [] m =
  Done (inl (map (λ i, EArr (result i)) (seq 0 n)), m).
Proof.
  intros Hsubs Hresult. unfold for_loop.
  rewrite (for_loop_from_continue (λ i res, res ++ [EArr (result i)]) _ n 0 [] m).
  - now rewrite fold_left_snoc.
  - intros i res Hi. destruct (Hsubs i ltac:(lia)) as [Hx Hy].
    destruct (Hresult i ltac:(lia)) as [Hrun Hnonempty].
    unfold nestedStep.
    rewrite (bind_Done _ _ _ _ _ (subOperand_run x i _ m Hx)).
    rewrite (bind_Done _ _ _ _ _ (subOperand_run y i _ m Hy)).
    rewrite (bind_Done _ _ _ _ _ Hrun).
    destruct (result i); [contradiction | reflexivity].
Qed.

End ElementwiseFacts.

Section CombineFacts.

Variable opName : string.
Variable op : float → float → float.

Lemma leafValue_lookup (x : Array) (i : nat) : i < length x → leafValue x i = x !! i.
Proof.
  destruct x as [| e0 [| e1 x]]; try reflexivity.
  simpl. intros Hi. now replace i with 0 by lia.
Qed.

Lemma lookup_number (x : Array) (i : nat) :
  Forall (λ e, holdsDouble e = true) x → i < length x → x !! i = Some (ENum (numberAt x i)).
Proof.
  intros Hx Hi. unfold numberAt.
  destruct (lookup_lt_is_Some_2 x i Hi) as [e He]. rewrite He.
  rewrite Forall_lookup in Hx. specialize (Hx i e He). now destruct e.
Qed.

Lemma lookup_array (P : Array → Prop) (x : Array) (i : nat) :
  Forall (λ e, match e with EArr sub => P sub | _ => False end) x → i < length x →
  x !! i = Some (EArr (arrayAt x i)) ∧ P (arrayAt x i).
Proof.
  intros Hx Hi. unfold arrayAt.
  destruct (lookup_lt_is_Some_2 x i Hi) as [e He]. rewrite He.
  rewrite Forall_lookup in Hx. specialize (Hx i e He). now destruct e.
Qed.

Lemma combineArrays_numbers (x y : Array) :
  Forall (λ e, holdsDouble e = true) x → Forall (λ e, holdsDouble e = true) y →
  length x = length y →
  map (λ i, ENum (op (numberAt x i) (numberAt y i))) (seq 0 (length x)) = combineArrays op x y.
Proof.
  intros Hx. revert y. induction Hx as [| e x He Hx IH]; intros y Hy Hlen; [reflexivity |].
  destruct Hy as [| e' y He' Hy]; [discriminate |].
  simpl length. simpl seq. rewrite <- seq_shift, map_cons, map_map, combineArrays_cons.
  f_equal.
  - destruct e, e'; try discriminate. reflexivity.
  - apply IH; [assumption | simpl in Hlen; lia].
Qed.

Lemma combineArrays_arrays (P Q : Array → Prop) (x y : Array) :
  Forall (λ e, match e with EArr sub => P sub | _ => False end) x →
  Forall (λ e, match e with EArr sub => Q sub | _ => False end) y →
  length x = length y →
  map (λ i, EArr (combineArrays op (arrayAt x i) (arrayAt y i))) (seq 0 (length x)) =
  combineArrays op x y.
Proof.
  intros Hx. revert y. induction Hx as [| e x He Hx IH]; intros y Hy Hlen; [reflexivity |].
  destruct Hy as [| e' y He' Hy]; [discriminate |].
  simpl length. simpl seq. rewrite <- seq_shift, map_cons, map_map, combineArrays_cons.
  f_equal.
  - destruct e, e'; try contradiction. reflexivity.
  - apply IH; [assumption | simpl in Hlen; lia].
Qed.

Lemma numbersIn_lookup (y : Array) (i : nat) (e : Element) (P : float → Prop) :
  Forall P (numbersIn (EArr y)) → y !! i = Some e → Forall P (numbersIn e).
Proof.
  intros Hall He. simpl in Hall. rewrite Forall_concat, Forall_fmap in Hall.
  rewrite Forall_lookup in Hall. exact (Hall i e He).
Qed.

Lemma numbersOfShape_leaf (n : nat) (arr : Array) :
  numbersOfShape [n] arr ↔ length arr = n ∧ Forall (λ e, holdsDouble e = true) arr.
Proof. reflexivity. Qed.

Lemma numbersOfShape_nested (size n : nat) (shape : list nat) (arr : Array) :
  numbersOfShape (size :: n :: shape) arr ↔
  length arr = size ∧
  Forall (λ e, match e with EArr sub => numbersOfShape (n :: shape) sub | _ => False end) arr.
Proof. reflexivity. Qed.

(** On two arrays of Numbers of one shape with positive dimensions, and a
    divisor free of zeros, the recursion returns the element-wise
    combination, which has that shape again, and leaves the machine alone. *)
Lemma recursion_combines (shape : list nat) : ∀ (x y : Array) (m : Machine),
  numbersOfShape shape x → numbersOfShape shape y →
  Forall (λ n, 1 ≤ n) shape →
  (opName = "/" → Forall (λ v, PrimFloat.eqb v 0 = false) (numbersIn (EArr y))) →
  applyOpRecursive opName op x y shape m = Done (combineArrays op x y, m) ∧
  numbersOfShape shape (combineArrays op x y).
Proof.
  induction shape as [| size shape IH]; intros x y m Hx Hy Hpos Hzero; [contradiction |].
  destruct shape as [| n shape].
  - apply numbersOfShape_leaf in Hx as [Hlx Hnx], Hy as [Hly Hny].
    rewrite numbersOfShape_leaf.
    rewrite <- (combineArrays_numbers x y Hnx Hny ltac:(lia)). rewrite Hlx.
    split; [| split; [now rewrite length_map, length_seq |]].
    + apply recursion_leaf_values.
      * intros i Hi. rewrite !leafValue_lookup by lia.
        split; apply lookup_number; (assumption || lia).
      * intros Hname i Hi. specialize (Hzero Hname).
        exact (Forall_inv (numbersIn_lookup y i (ENum (numberAt y i))
                             (λ v, PrimFloat.eqb v 0 = false) Hzero
                             (lookup_number y i Hny ltac:(lia)))).
    + apply Forall_fmap, Forall_forall. intros i _. reflexivity.
  - apply numbersOfShape_nested in Hx as [Hlx Hax], Hy as [Hly Hay].
    apply Forall_cons_1 in Hpos as [Hsize Hpos].
    assert (Hsub : ∀ i, i < size →
              applyOpRecursive opName op (arrayAt x i) (arrayAt y i) (n :: shape) m =
              Done (combineArrays op (arrayAt x i) (arrayAt y i), m) ∧
              numbersOfShape (n :: shape) (combineArrays op (arrayAt x i) (arrayAt y i))).
    { intros i Hi.
      destruct (lookup_array _ x i Hax ltac:(lia)) as [Hxi Hxs].
      destruct (lookup_array _ y i Hay ltac:(lia)) as [Hyi Hys].
      apply IH; try assumption.
      intros Hname. exact (numbersIn_lookup y i (EArr (arrayAt y i)) (λ v, PrimFloat.eqb v 0 = false)
               (Hzero Hname) Hyi). }
    assert (Hnonempty : ∀ sub, numbersOfShape (n :: shape) sub → sub ≠ []).
    { intros sub Hs ->. apply Forall_cons_1 in Hpos as [Hn _].
      destruct shape; simpl in Hs; destruct Hs as [Hs _]; simpl in Hs; lia. }
    rewrite numbersOfShape_nested.
    rewrite <- (combineArrays_arrays _ _ x y Hax Hay ltac:(lia)). rewrite Hlx.
    split; [| split; [now rewrite length_map, length_seq |]].
    + rewrite applyOpRecursive_nested.
      assert (Hsubs : ∀ i, i < size →
                x !! i = Some (EArr (arrayAt x i)) ∧ y !! i = Some (EArr (arrayAt y i))).
      { intros i Hi.
        split; [apply (lookup_array _ x i Hax) | apply (lookup_array _ y i Hay)]; lia. }
      assert (Hresult : ∀ i, i < size →
                applyOpRecursive opName op (arrayAt x i) (arrayAt y i) (n :: shape) m =
                Done (combineArrays op (arrayAt x i) (arrayAt y i), m) ∧
                combineArrays op (arrayAt x i) (arrayAt y i) ≠ []).
      { intros i Hi. split; [apply (Hsub i Hi) | apply Hnonempty, (Hsub i Hi)]. }
      now rewrite (bind_Done _ _ _ _ _
                     (recursion_nested_values _ x y size _ _ _ m Hsubs Hresult)).
    + apply Forall_fmap, Forall_forall. intros i Hi.
      apply elem_of_seq in Hi. apply (Hsub i). lia.
Qed.

End CombineFacts.

Section BroadcastFacts.

Variable opName : string.
Variable op : float → float → float.

Lemma numbersOfShape_length (n : nat) (shape : list nat) (arr : Array) :
  numbersOfShape (n :: shape) arr → length arr = n.
Proof. destruct shape; intros [Hlen _]; exact Hlen. Qed.

Lemma getShape_numbers (shape : list nat) : ∀ arr : Array,
  numbersOfShape shape arr → Forall (λ n, 1 ≤ n) shape → getShape arr [] = shape.
Proof.
  induction shape as [| size shape IH]; intros arr Harr Hpos; [contradiction |].
  rewrite getShape_unfold. destruct shape as [| n shape].
  - destruct Harr as [Hlen Hnum]. rewrite Hlen. f_equal.
    destruct Hnum as [| e arr He _]; [reflexivity |]. now destruct e.
  - apply numbersOfShape_nested in Harr as [Hlen Harr]. rewrite Hlen. f_equal.
    apply Forall_cons_1 in Hpos as [Hsize Hpos].
    destruct Harr as [| e arr He Harr]; [simpl in Hlen; lia |].
    destruct e as [| | | first]; try contradiction.
    replace (isUniformWith (length first) arr) with true; [now apply IH |].
    symmetry. apply forallb_forall. intros e He'.
    apply list_elem_of_In in He'. rewrite Forall_forall in Harr. specialize (Harr e He').
    destruct e as [| | | sub]; try contradiction.
    apply Nat.eqb_eq.
    now rewrite (numbersOfShape_length _ _ _ Harr), (numbersOfShape_length _ _ _ He).
Qed.

Lemma isScalar_numbers (shape : list nat) (a b : Array) :
  numbersOfShape shape a → numbersOfShape shape b → isScalar a = isScalar b.
Proof.
  destruct shape as [| size [| n shape]]; [contradiction | |].
  - intros [Hla Ha] [Hlb Hb].
    destruct Ha as [| x [| x' a] Hx Ha], Hb as [| y [| y' b] Hy Hb];
      simpl in Hla, Hlb; try lia; try reflexivity.
    destruct x, y; try discriminate. reflexivity.
  - intros Ha Hb.
    apply numbersOfShape_nested in Ha as [Hla Ha], Hb as [Hlb Hb].
    destruct Ha as [| x [| x' a] Hx Ha], Hb as [| y [| y' b] Hy Hb];
      simpl in Hla, Hlb; try lia; try reflexivity.
    destruct x, y; try contradiction. reflexivity.
Qed.

Lemma broadcastShape_numbers (shape : list nat) (a b : Array) :
  numbersOfShape shape a → numbersOfShape shape b → Forall (λ n, 1 ≤ n) shape →
  broadcastShape a b = Some shape.
Proof.
  intros Ha Hb Hpos. unfold broadcastShape, shapesEqual.
  rewrite (isScalar_numbers shape a b Ha Hb), andb_negb_r.
  rewrite (getShape_numbers shape a Ha Hpos), (getShape_numbers shape b Hb Hpos).
  now rewrite bool_decide_eq_true_2.
Qed.

(** Two arrays of Numbers of one shape with positive dimensions are
    replaced by their element-wise combination, of that shape again. *)
Lemma broadcast_of_equal_shapes (shape : list nat) (a b : Array) (rest : Stack)
    (out : string) (err : list string) :
  numbersOfShape shape a → numbersOfShape shape b →
  Forall (λ n, 1 ≤ n) shape →
  (opName = "/" → Forall (λ v, PrimFloat.eqb v 0 = false) (numbersIn (EArr b))) →
  applyBinaryOp opName op (mkMachine (b :: a :: rest) out err) =
  Done (tt, mkMachine (combineArrays op a b :: rest) out err) ∧
  numbersOfShape shape (combineArrays op a b).
Proof.
  intros Ha Hb Hpos Hzero.
  destruct (recursion_combines opName op shape a b (mkMachine rest out err) Ha Hb Hpos Hzero)
    as [Hrun Hshape].
  split; [| exact Hshape].
  rewrite applyBinaryOp_run, (broadcastShape_numbers shape a b Ha Hb Hpos).
  rewrite (bind_Done _ _ _ _ _ Hrun).
  destruct (combineArrays op a b) eqn:Hres; [| reflexivity].
  destruct shape as [| size shape]; [contradiction |].
  apply numbersOfShape_length in Hshape. apply Forall_cons_1 in Hpos as [Hsize _].
  simpl in Hshape. lia.
Qed.

Lemma map_nth_seq {A B : Type} (g : A → B) (d : A) (vs : list A) :
  map (λ i, g (nth i vs d)) (seq 0 (length vs)) = map g vs.
Proof.
  induction vs as [| v vs IH]; [reflexivity |].
  simpl length. simpl seq. rewrite <- seq_shift, map_cons, map_map. simpl. now f_equal.
Qed.

Lemma leafValue_numbers (vs : list float) (i : nat) :
  i < length vs → leafValue (map ENum vs) i = Some (ENum (nth i vs 0%float)).
Proof.
  intros Hi. rewrite leafValue_lookup by now rewrite length_map.
  revert i Hi. induction vs as [| v vs IH]; intros i Hi; [simpl in Hi; lia |].
  destruct i; [reflexivity |]. apply IH. simpl in Hi. lia.
Qed.

Lemma getShape_flat (vs : list float) : getShape (map ENum vs) [] = [length vs].
Proof. rewrite getShape_unfold, length_map. now destruct vs. Qed.

Lemma isScalar_flat (vs : list float) : isScalar (map ENum vs) = bool_decide (length vs = 1).
Proof. now destruct vs as [| v [| v' vs]]. Qed.

Lemma broadcastShape_scalar_flat (s : float) (vs : list float) :
  broadcastShape [ENum s] (map ENum vs) = Some [length vs].
Proof.
  unfold broadcastShape, shapesEqual. rewrite getShape_flat.
  destruct vs as [| v [| v' vs]]; reflexivity.
Qed.

Lemma broadcastShape_flat_scalar (s : float) (vs : list float) :
  broadcastShape (map ENum vs) [ENum s] = Some [length vs].
Proof.
  unfold broadcastShape, shapesEqual. rewrite getShape_flat.
  destruct vs as [| v [| v' vs]]; reflexivity.
Qed.

(** A scalar below a non-empty flat array of Numbers is combined with each
    of them, the scalar as the left operand. *)
Lemma broadcast_of_scalar_left (s : float) (vs : list float) (rest : Stack)
    (out : string) (err : list string) :
  vs ≠ [] →
  (opName = "/" → Forall (λ v, PrimFloat.eqb v 0 = false) vs) →
  applyBinaryOp opName op (mkMachine (map ENum vs :: [ENum s] :: rest) out err) =
  Done (tt, mkMachine (map (λ v, ENum (op s v)) vs :: rest) out err).
Proof.
  intros Hvs Hzero. rewrite applyBinaryOp_run, broadcastShape_scalar_flat.
  assert (Hvalues : ∀ i, i < length vs →
            leafValue [ENum s] i = Some (ENum s) ∧
            leafValue (map ENum vs) i = Some (ENum (nth i vs 0%float))).
  { intros i Hi. split; [reflexivity | now apply leafValue_numbers]. }
  assert (Hdivisor : opName = "/" → ∀ i, i < length vs →
            PrimFloat.eqb (nth i vs 0%float) 0 = false).
  { intros Hname i Hi. specialize (Hzero Hname). rewrite Forall_forall in Hzero.
    apply Hzero, list_elem_of_In, nth_In, Hi. }
  rewrite (bind_Done _ _ _ _ _
             (recursion_leaf_values opName op _ _ (length vs) (λ _, s) _ _ Hvalues Hdivisor)).
  rewrite (map_nth_seq (λ v, ENum (op s v))). now destruct vs.
Qed.

(** A scalar above a non-empty flat array of Numbers is combined with each
    of them, the scalar as the right operand. *)
Lemma broadcast_of_scalar_right (s : float) (vs : list float) (rest : Stack)
    (out : string) (err : list string) :
  vs ≠ [] →
  (opName = "/" → PrimFloat.eqb s 0 = false) →
  applyBinaryOp opName op (mkMachine ([ENum s] :: map ENum vs :: rest) out err) =
  Done (tt, mkMachine (map (λ v, ENum (op v s)) vs :: rest) out err).
Proof.
  intros Hvs Hzero. rewrite applyBinaryOp_run, broadcastShape_flat_scalar.
  assert (Hvalues : ∀ i, i < length vs →
            leafValue (map ENum vs) i = Some (ENum (nth i vs 0%float)) ∧
            leafValue [ENum s] i = Some (ENum s)).
  { intros i Hi. split; [now apply leafValue_numbers | reflexivity]. }
  rewrite (bind_Done _ _ _ _ _
             (recursion_leaf_values opName op _ _ (length vs) _ (λ _, s) _ Hvalues
                (λ Hname _ _, Hzero Hname))).
  rewrite (map_nth_seq (λ v, ENum (op v s))). now destruct vs.
Qed.

End BroadcastFacts.

(** [[1,2],[3,4]] [[10,20],[30,40]] + leaves [[11,22],[33,44]]. *)
Example sum_of_two_matrices :
  applyBinaryOp "+" PrimFloat.add
    (mkMachine [[EArr [ENum 10; ENum 20]; EArr [ENum 30; ENum 40]];
                [EArr [ENum 1; ENum 2]; EArr [ENum 3; ENum 4]]] "" []) =
  Done (tt, mkMachine [[EArr [ENum 11; ENum 22]; EArr [ENum 33; ENum 44]]] "" []).
Proof.
  refine (proj1 (broadcast_of_equal_shapes "+" PrimFloat.add [2; 2] _ _ [] "" [] _ _ _ _)).
  - split; [reflexivity |]. repeat constructor.
  - split; [reflexivity |]. repeat constructor.
  - repeat constructor.
  - discriminate.
Qed.

(** [2] [1,2,3] - leaves [1,0,-1]: the scalar is the left operand. *)
Example scalar_minus_flat_array :
  applyBinaryOp "-" PrimFloat.sub
    (mkMachine [[ENum 1; ENum 2; ENum 3]; [ENum 2]] "" []) =
  Done (tt, mkMachine [[ENum 1; ENum 0; ENum (-1)]] "" []).
Proof.
  refine (broadcast_of_scalar_left "-" PrimFloat.sub 2 [1; 2; 3]%float [] "" [] _ _);
    discriminate.
Qed.
(** ** Leaf-level errors *)

Section LeafFaults.

Variable opName : string.
Variable op : float → float → float.

Lemma firstFault_app (xs1 ys1 xs2 ys2 : list Element) :
  length xs1 = length ys1 →
  firstFault opName (xs1 ++ xs2) (ys1 ++ ys2) =
  match firstFault opName xs1 ys1 with
  | Some line => Some line
  | None => firstFault opName xs2 ys2
  end.
Proof.
  revert ys1. induction xs1 as [| x xs1 IH]; intros [| y ys1] Hlen; try discriminate.
  - reflexivity.
  - simpl. destruct (leafFault opName x y); [reflexivity |]. apply IH. now injection Hlen.
Qed.

Lemma leafFault_diagnostic (x y : Element) (line : string) :
  leafFault opName x y = Some line → leafDiagnostic opName line.
Proof.
  unfold leafFault, leafDiagnostic.
  destruct x, y; try (intros [= <-]; now left).
  destruct (String.eqb opName "/") eqn:Hname; simpl; [| discriminate].
  destruct (PrimFloat.eqb _ 0); [| discriminate].
  intros [= <-]. right. split; [now apply String.eqb_eq | reflexivity].
Qed.

Lemma firstFault_diagnostic (xs ys : list Element) (line : string) :
  firstFault opName xs ys = Some line → leafDiagnostic opName line.
Proof.
  revert ys. induction xs as [| x xs IH]; intros [| y ys]; try discriminate.
  simpl. destruct (leafFault opName x y) eqn:Hxy; [| apply IH].
  intros [= <-]. exact (leafFault_diagnostic _ _ _ Hxy).
Qed.

(** One round of the leaf loop. *)
Lemma leafStep_outcome (x y : Array) (i : nat) (xElem yElem : Element) (res : Array)
    (m : Machine) :
  leafValue x i = Some xElem → leafValue y i = Some yElem →
  leafStep opName op x y i res m =
  match leafFault opName xElem yElem with
  | Some line => Done (inr [], withDiagnostic line m)
  | None => Done (inl (res ++ [combine op xElem yElem]), m)
  end.
Proof.
  intros Hx Hy. unfold leafStep, mbind, M_bind. rewrite !leafOperand_run, Hx.
  rewrite leafOperand_run, Hy.
  destruct xElem as [| xVal | |], yElem as [| yVal | |]; try reflexivity.
  simpl. destruct (String.eqb opName "/" && PrimFloat.eqb yVal 0); reflexivity.
Qed.

(** The leaf loop from position [i] on, over the leaves [xs] and [ys] that
    the operands supply from there. *)
Lemma leaf_loop_outcome (x y : Array) (xs : list Element) : ∀ (ys : list Element) (i : nat)
    (res : Array) (m : Machine),
  length xs = length ys →
  (∀ k e, xs !! k = Some e → leafValue x (i + k) = Some e) →
  (∀ k e, ys !! k = Some e → leafValue y (i + k) = Some e) →
  for_loop_from (length xs) i (leafStep opName op x y) res m =
  match firstFault opName xs ys with
  | Some line => Done (inr [], withDiagnostic line m)
  | None => Done (inl (res ++ combineArrays op xs ys), m)
  end.
Proof.
  induction xs as [| xElem xs IH]; intros [| yElem ys] i res m Hlen Hx Hy; try discriminate.
  - simpl. now rewrite app_nil_r.
  - cbn [length for_loop_from firstFault].
    pose proof (Hx 0 xElem eq_refl) as Hx0. pose proof (Hy 0 yElem eq_refl) as Hy0.
    rewrite Nat.add_0_r in Hx0, Hy0.
    unfold mbind, M_bind. rewrite (leafStep_outcome x y i xElem yElem res m Hx0 Hy0).
    destruct (leafFault opName xElem yElem) as [line |]; [reflexivity |].
    rewrite (IH ys).
    + rewrite combineArrays_cons, <- app_assoc. reflexivity.
    + now injection Hlen.
    + intros k e Hk. replace (S i + k) with (i + S k) by lia. now apply Hx.
    + intros k e Hk. replace (S i + k) with (i + S k) by lia. now apply Hy.
Qed.

Lemma recursion_leaf_outcome (x y : Array) (xs ys : list Element) (m : Machine) :
  length xs = length ys →
  (∀ k e, xs !! k = Some e → leafValue x k = Some e) →
  (∀ k e, ys !! k = Some e → leafValue y k = Some e) →
  applyOpRecursive opName op x y [length xs] m =
  match firstFault opName xs ys with
  | Some line => Done ([], withDiagnostic line m)
  | None => Done (combineArrays op xs ys, m)
  end.
Proof.
  intros Hlen Hx Hy. rewrite applyOpRecursive_leaf. unfold for_loop, mbind, M_bind.
  rewrite (leaf_loop_outcome x y xs ys 0 [] m Hlen Hx Hy).
  destruct (firstFault opName xs ys); reflexivity.
Qed.

(** One round of the loop over sub-arrays. *)
Lemma nestedStep_outcome (recurse : Array → Array → M Array) (x y : Array) (i : nat)
    (xSub ySub : Array) (res : Array) (m : Machine) (r : outcome (Array * Machine)) :
  x !! i = Some (EArr xSub) → y !! i = Some (EArr ySub) →
  recurse xSub ySub m = r →
  nestedStep recurse x y i res m =
  match r with
  | Done ([], m') => Done (inr [], m')
  | Done (subRes, m') => Done (inl (res ++ [EArr subRes]), m')
  | BadVariantAccess => BadVariantAccess
  | Undefined => Undefined
  end.
Proof.
  intros Hx Hy Hr. unfold nestedStep.
  rewrite (bind_Done _ _ _ _ _ (subOperand_run x i _ m Hx)).
  rewrite (bind_Done _ _ _ _ _ (subOperand_run y i _ m Hy)).
  unfold mbind, M_bind. rewrite Hr. destruct r as [[[| e sub] m'] | |]; reflexivity.
Qed.

Lemma leavesIn_cons (e : Element) (arr : Array) :
  leavesIn (EArr (e :: arr)) = leavesIn e ++ leavesIn (EArr arr).
Proof. reflexivity. Qed.

Lemma leavesIn_flat (arr : Array) :
  Forall (λ e, holdsArray e = false) arr → leavesIn (EArr arr) = arr.
Proof.
  induction 1 as [| e arr He _ IH]; [reflexivity |].
  rewrite leavesIn_cons, IH. now destruct e.
Qed.

Lemma elementsOfShape_leaf (n : nat) (arr : Array) :
  elementsOfShape [n] arr ↔ length arr = n ∧ Forall (λ e, holdsArray e = false) arr.
Proof. reflexivity. Qed.

Lemma elementsOfShape_nested (size n : nat) (shape : list nat) (arr : Array) :
  elementsOfShape (size :: n :: shape) arr ↔
  length arr = size ∧
  Forall (λ e, match e with EArr sub => elementsOfShape (n :: shape) sub | _ => False end) arr.
Proof. reflexivity. Qed.

Lemma elementsOfShape_length (n : nat) (shape : list nat) (arr : Array) :
  elementsOfShape (n :: shape) arr → length arr = n.
Proof. destruct shape; intros [Hlen _]; exact Hlen. Qed.

(** A regular array has as many leaves as its shape says. *)
Lemma length_leavesIn (shape : list nat) : ∀ arr : Array,
  elementsOfShape shape arr → length (leavesIn (EArr arr)) = productNat shape.
Proof.
  induction shape as [| size shape IH]; intros arr Harr; [contradiction |].
  destruct shape as [| n shape].
  - destruct Harr as [Hlen Hflat]. rewrite leavesIn_flat by exact Hflat. simpl. lia.
  - apply elementsOfShape_nested in Harr as [Hlen Harr]. subst size.
    induction Harr as [| e arr He _ IHarr]; [reflexivity |].
    destruct e as [| | | sub]; try contradiction.
    rewrite leavesIn_cons, length_app, (IH sub He), IHarr. reflexivity.
Qed.

(** An array with a leaf has no dimension zero. *)
Lemma leaves_positive (shape : list nat) : ∀ arr : Array,
  elementsOfShape shape arr → leavesIn (EArr arr) ≠ [] → Forall (λ n, 1 ≤ n) shape.
Proof.
  induction shape as [| size shape IH]; intros arr Harr Hleaves; [contradiction |].
  destruct shape as [| n shape].
  - destruct Harr as [Hlen Hflat]. rewrite leavesIn_flat in Hleaves by exact Hflat.
    repeat constructor. destruct arr; [contradiction | simpl in Hlen; lia].
  - apply elementsOfShape_nested in Harr as [Hlen Harr]. constructor.
    + destruct arr; [contradiction | simpl in Hlen; lia].
    + clear Hlen. induction Harr as [| e arr He _ IHarr]; [contradiction |].
      destruct e as [| | | sub]; try contradiction.
      destruct (leavesIn (EArr sub)) as [| leaf leaves] eqn:Hsub.
      * apply IHarr. now rewrite leavesIn_cons, Hsub in Hleaves.
      * apply (IH sub He). now rewrite Hsub.
Qed.

Lemma firstFault_leaves (xs ys : list Element) (line : string) :
  firstFault opName xs ys = Some line → xs ≠ [].
Proof. now destruct xs. Qed.

(** The loop over sub-arrays from position [i] on, when the recursive call
    on regular sub-arrays either reports the first leaf-level error or
    returns a combination that is not empty. *)
Lemma nested_loop_outcome (recurse : Array → Array → M Array) (P : Array → Prop) (x y : Array) :
  (∀ xSub ySub m, P xSub → P ySub →
     recurse xSub ySub m =
     match firstFault opName (leavesIn (EArr xSub)) (leavesIn (EArr ySub)) with
     | Some line => Done ([], withDiagnostic line m)
     | None => Done (combineArrays op xSub ySub, m)
     end) →
  (∀ xSub ySub, P xSub → P ySub →
     combineArrays op xSub ySub ≠ [] ∧
     length (leavesIn (EArr xSub)) = length (leavesIn (EArr ySub))) →
  ∀ (xs ys : Array) (i : nat) (res : Array) (m : Machine),
    length xs = length ys →
    Forall (λ e, match e with EArr sub => P sub | _ => False end) xs →
    Forall (λ e, match e with EArr sub => P sub | _ => False end) ys →
    (∀ k e, xs !! k = Some e → x !! (i + k) = Some e) →
    (∀ k e, ys !! k = Some e → y !! (i + k) = Some e) →
    for_loop_from (length xs) i (nestedStep recurse x y) res m =
    match firstFault opName (leavesIn (EArr xs)) (leavesIn (EArr ys)) with
    | Some line => Done (inr [], withDiagnostic line m)
    | None => Done (inl (res ++ combineArrays op xs ys), m)
    end.
Proof.
  intros Hrec Hsub xs.
  induction xs as [| xe xs IH]; intros [| ye ys] i res m Hlen Hxs Hys Hx Hy; try discriminate.
  - simpl. now rewrite app_nil_r.
  - apply Forall_cons_1 in Hxs as [Hxe Hxs], Hys as [Hye Hys].
    destruct xe as [| | | xSub], ye as [| | | ySub]; try contradiction.
    pose proof (Hx 0 _ eq_refl) as Hx0. pose proof (Hy 0 _ eq_refl) as Hy0.
    rewrite Nat.add_0_r in Hx0, Hy0.
    destruct (Hsub xSub ySub Hxe Hye) as [Hne Hleaves].
    cbn [length for_loop_from]. unfold mbind, M_bind.
    rewrite (nestedStep_outcome recurse x y i xSub ySub res m _ Hx0 Hy0
               (Hrec xSub ySub m Hxe Hye)).
    rewrite !leavesIn_cons, (firstFault_app _ _ _ _ Hleaves).
    destruct (firstFault opName (leavesIn (EArr xSub)) (leavesIn (EArr ySub))) as [line |];
      [reflexivity |].
    destruct (combineArrays op xSub ySub) as [| e0 sub] eqn:Hcomb; [contradiction |].
    rewrite (IH ys).
    + rewrite combineArrays_cons, combine_arrays, Hcomb, <- app_assoc. reflexivity.
    + now injection Hlen.
    + exact Hxs.
    + exact Hys.
    + intros k e Hk. replace (S i + k) with (i + S k) by lia. now apply Hx.
    + intros k e Hk. replace (S i + k) with (i + S k) by lia. now apply Hy.
Qed.

(** On two regular arrays of one shape with positive dimensions the
    recursion reports the first leaf-level error among their corresponding
    leaves and returns the empty Array; without such an error it returns the
    element-wise combination, which is not empty. *)
Lemma recursion_outcome (shape : list nat) : ∀ (x y : Array) (m : Machine),
  elementsOfShape shape x → elementsOfShape shape y → Forall (λ n, 1 ≤ n) shape →
  applyOpRecursive opName op x y shape m =
  match firstFault opName (leavesIn (EArr x)) (leavesIn (EArr y)) with
  | Some line => Done ([], withDiagnostic line m)
  | None => Done (combineArrays op x y, m)
  end.
Proof.
  induction shape as [| size shape IH]; intros x y m Hx Hy Hpos; [contradiction |].
  destruct shape as [| n shape].
  - destruct Hx as [Hlx Hfx], Hy as [Hly Hfy].
    rewrite !leavesIn_flat by assumption. subst size.
    apply recursion_leaf_outcome; [lia | |];
      intros k e Hk; rewrite leafValue_lookup; try assumption;
      apply lookup_lt_Some in Hk; lia.
  - apply Forall_cons_1 in Hpos as [Hsize Hpos].
    apply elementsOfShape_nested in Hx as [Hlx Hax], Hy as [Hly Hay].
    rewrite applyOpRecursive_nested. unfold for_loop, mbind, M_bind. subst size.
    assert (Hsub : ∀ xSub ySub,
              elementsOfShape (n :: shape) xSub → elementsOfShape (n :: shape) ySub →
              combineArrays op xSub ySub ≠ [] ∧
              length (leavesIn (EArr xSub)) = length (leavesIn (EArr ySub))).
    { intros xSub ySub Hxs Hys. split.
      - apply Forall_cons_1 in Hpos as [Hn _].
        pose proof (elementsOfShape_length _ _ _ Hxs) as Hl1.
        pose proof (elementsOfShape_length _ _ _ Hys) as Hl2.
        destruct xSub as [| e1 xSub], ySub as [| e2 ySub]; simpl in Hl1, Hl2; try lia.
        now rewrite combineArrays_cons.
      - now rewrite (length_leavesIn _ _ Hxs), (length_leavesIn _ _ Hys). }
    rewrite (nested_loop_outcome
               (λ xSub ySub, applyOpRecursive opName op xSub ySub (n :: shape))
               (elementsOfShape (n :: shape)) x y
               (λ xSub ySub m0 Hxs Hys, IH xSub ySub m0 Hxs Hys Hpos) Hsub
               x y 0 [] m (eq_sym Hly) Hax Hay (λ k e Hk, Hk) (λ k e Hk, Hk)).
    destruct (firstFault opName (leavesIn (EArr x)) (leavesIn (EArr y))); reflexivity.
Qed.

(** *** The dispatch on regular operands *)

Lemma getShape_elements (shape : list nat) : ∀ arr : Array,
  elementsOfShape shape arr → Forall (λ n, 1 ≤ n) shape → getShape arr [] = shape.
Proof.
  induction shape as [| size shape IH]; intros arr Harr Hpos; [contradiction |].
  rewrite getShape_unfold. destruct shape as [| n shape].
  - destruct Harr as [Hlen Hflat]. rewrite Hlen. f_equal.
    destruct Hflat as [| e arr He _]; [reflexivity |]. now destruct e.
  - apply elementsOfShape_nested in Harr as [Hlen Harr]. rewrite Hlen. f_equal.
    apply Forall_cons_1 in Hpos as [Hsize Hpos].
    destruct Harr as [| e arr He Harr]; [simpl in Hlen; lia |].
    destruct e as [| | | first]; try contradiction.
    replace (isUniformWith (length first) arr) with true; [now apply IH |].
    symmetry. apply forallb_forall. intros e He'.
    apply list_elem_of_In in He'. rewrite Forall_forall in Harr. specialize (Harr e He').
    destruct e as [| | | sub]; try contradiction.
    apply Nat.eqb_eq.
    now rewrite (elementsOfShape_length _ _ _ Harr), (elementsOfShape_length _ _ _ He).
Qed.

Lemma broadcastShape_same (shape : list nat) (a b : Array) :
  getShape a [] = shape → getShape b [] = shape → broadcastShape a b = Some shape.
Proof.
  intros Ha Hb. unfold broadcastShape, shapesEqual. rewrite Ha, Hb.
  rewrite bool_decide_eq_true_2 by reflexivity.
  destruct (isScalar a && negb (isScalar b)), (isScalar b && negb (isScalar a)); reflexivity.
Qed.

Lemma getShape_of_flat (arr : Array) :
  Forall (λ e, holdsArray e = false) arr → getShape arr [] = [length arr].
Proof.
  intros Hflat. rewrite getShape_unfold.
  destruct Hflat as [| e arr He _]; [reflexivity |]. now destruct e.
Qed.

Lemma broadcastShape_flat_below_scalar (s : float) (arr : Array) :
  Forall (λ e, holdsArray e = false) arr → broadcastShape arr [ENum s] = Some [length arr].
Proof.
  intros Hflat. rewrite broadcastShape_scalar_right. f_equal. now apply getShape_of_flat.
Qed.

Lemma broadcastShape_flat_above_scalar (s : float) (arr : Array) :
  Forall (λ e, holdsArray e = false) arr → broadcastShape [ENum s] arr = Some [length arr].
Proof.
  intros Hflat. rewrite broadcastShape_scalar_left. f_equal. now apply getShape_of_flat.
Qed.

Lemma lookup_replicated (s : float) (arr : Array) (k : nat) (e : Element) :
  replicated s arr !! k = Some e → leafValue [ENum s] k = Some e.
Proof.
  unfold replicated. rewrite list_lookup_fmap. destruct (arr !! k); [| discriminate].
  now intros [= <-].
Qed.

(** What [applyBinaryOp] does once the recursion has reported an error. *)
Lemma applyBinaryOp_fault (a b : Array) (shape : list nat) (line : string)
    (rest : Stack) (out : string) (err : list string) :
  broadcastShape a b = Some shape →
  applyOpRecursive opName op a b shape (mkMachine rest out err) =
    Done ([], withDiagnostic line (mkMachine rest out err)) →
  applyBinaryOp opName op (mkMachine (b :: a :: rest) out err) =
  Done (tt, mkMachine rest out (err ++ [line])).
Proof.
  intros Hshape Hrun. rewrite applyBinaryOp_run, Hshape.
  now rewrite (bind_Done _ _ _ _ _ Hrun).
Qed.

Lemma fault_between_equal_shapes (shape : list nat) (a b : Array) (line : string)
    (rest : Stack) (out : string) (err : list string) :
  elementsOfShape shape a → elementsOfShape shape b →
  firstFault opName (leavesIn (EArr a)) (leavesIn (EArr b)) = Some line →
  applyBinaryOp opName op (mkMachine (b :: a :: rest) out err) =
  Done (tt, mkMachine rest out (err ++ [line])).
Proof.
  intros Ha Hb Hfault.
  pose proof (leaves_positive shape a Ha (firstFault_leaves _ _ _ Hfault)) as Hpos.
  apply (applyBinaryOp_fault a b shape).
  - apply broadcastShape_same; now apply getShape_elements.
  - now rewrite (recursion_outcome shape a b _ Ha Hb Hpos), Hfault.
Qed.

Lemma fault_under_scalar (s : float) (b : Array) (line : string)
    (rest : Stack) (out : string) (err : list string) :
  Forall (λ e, holdsArray e = false) b →
  firstFault opName (replicated s b) b = Some line →
  applyBinaryOp opName op (mkMachine (b :: [ENum s] :: rest) out err) =
  Done (tt, mkMachine rest out (err ++ [line])).
Proof.
  intros Hflat Hfault. apply (applyBinaryOp_fault [ENum s] b [length b]).
  - now apply broadcastShape_flat_above_scalar.
  - replace (length b) with (length (replicated s b)) by apply length_map.
    rewrite (recursion_leaf_outcome [ENum s] b (replicated s b) b).
    + now rewrite Hfault.
    + apply length_map.
    + apply lookup_replicated.
    + intros k e Hk. rewrite leafValue_lookup; [exact Hk |]. now apply lookup_lt_Some in Hk.
Qed.

Lemma fault_over_scalar (s : float) (a : Array) (line : string)
    (rest : Stack) (out : string) (err : list string) :
  Forall (λ e, holdsArray e = false) a →
  firstFault opName a (replicated s a) = Some line →
  applyBinaryOp opName op (mkMachine ([ENum s] :: a :: rest) out err) =
  Done (tt, mkMachine rest out (err ++ [line])).
Proof.
  intros Hflat Hfault. apply (applyBinaryOp_fault a [ENum s] [length a]).
  - now apply broadcastShape_flat_below_scalar.
  - rewrite (recursion_leaf_outcome a [ENum s] a (replicated s a)).
    + now rewrite Hfault.
    + symmetry. apply length_map.
    + intros k e Hk. rewrite leafValue_lookup; [exact Hk |]. now apply lookup_lt_Some in Hk.
    + apply lookup_replicated.
Qed.

End LeafFaults.

(** C6 (where the code follows it, and where it does not): where the
    element-wise recursion reaches the leaves (two regular arrays of one
    shape, or a scalar against a flat array) the first pair of corresponding
    leaves in error (a leaf that is not a Number, or a zero on the right of
    [/]) ends the built-in with exactly one diagnostic line, the one for
    that pair; nothing is pushed, and the stack is the original one without
    its top two items.  Against an array of rank two the scalar is never
    replicated down to the leaves: [2 [[1,"x"],[3,4]]] and
    [[[1,2],[3,4]] 0], whose leaf-level errors the claim wants reported, end
    in an uncaught [std::bad_variant_access] without a diagnostic. *)
Theorem leaf_error_is_destructive
    (opName : string) (op : float → float → float)
    (rest : Stack) (out : string) (err : list string) :
  (∀ (shape : list nat) (a b : Array) (line : string),
     elementsOfShape shape a → elementsOfShape shape b →
     firstFault opName (leavesIn (EArr a)) (leavesIn (EArr b)) = Some line →
     leafDiagnostic opName line ∧
     applyBinaryOp opName op (mkMachine (b :: a :: rest) out err) =
     Done (tt, mkMachine rest out (err ++ [line]))) ∧
  (∀ (s : float) (b : Array) (line : string),
     Forall (λ e, holdsArray e = false) b →
     firstFault opName (replicated s b) b = Some line →
     leafDiagnostic opName line ∧
     applyBinaryOp opName op (mkMachine (b :: [ENum s] :: rest) out err) =
     Done (tt, mkMachine rest out (err ++ [line]))) ∧
  (∀ (s : float) (a : Array) (line : string),
     Forall (λ e, holdsArray e = false) a →
     firstFault opName a (replicated s a) = Some line →
     leafDiagnostic opName line ∧
     applyBinaryOp opName op (mkMachine ([ENum s] :: a :: rest) out err) =
     Done (tt, mkMachine rest out (err ++ [line]))) ∧
  applyBinaryOp opName op
    (mkMachine ([EArr [ENum 1; EText "x"]; EArr [ENum 3; ENum 4]] :: [ENum 2] :: rest) out err)
    = BadVariantAccess ∧
  applyBinaryOp opName op
    (mkMachine ([ENum 0] :: [EArr [ENum 1; ENum 2]; EArr [ENum 3; ENum 4]] :: rest) out err)
    = BadVariantAccess.
Proof.
  split; [| split; [| split; [| split]]].
  - intros shape a b line Ha Hb Hfault.
    split; [exact (firstFault_diagnostic _ _ _ _ Hfault) |].
    now apply (fault_between_equal_shapes opName op shape).
  - intros s b line Hflat Hfault.
    split; [exact (firstFault_diagnostic _ _ _ _ Hfault) |].
    now apply fault_under_scalar.
  - intros s a line Hflat Hfault.
    split; [exact (firstFault_diagnostic _ _ _ _ Hfault) |].
    now apply fault_over_scalar.
  - rewrite applyBinaryOp_run. apply bind_BadVariantAccess.
    apply recursion_scalar_left_throws.
  - rewrite applyBinaryOp_run. apply bind_BadVariantAccess.
    apply recursion_scalar_right_throws.
Qed.

(** [[[1,2],[3,4]] [[1,1],[0,1]] /] with an array below: the zero divisor
    is reported, and only the array below is left. *)
Lemma leaf_error_is_destructive_witness :
  leafDiagnostic "/" "Error: Division by zero" ∧
  applyBinaryOp "/" PrimFloat.div
    (mkMachine ([EArr [ENum 1; ENum 1]; EArr [ENum 0; ENum 1]]
                :: [EArr [ENum 1; ENum 2]; EArr [ENum 3; ENum 4]]
                :: [[ENum 9]]) "" []) =
  Done (tt, mkMachine [[ENum 9]] "" ([] ++ ["Error: Division by zero"])).
Proof.
  apply (proj1 (leaf_error_is_destructive "/" PrimFloat.div [[ENum 9]] "" []) [2; 2]
           [EArr [ENum 1; ENum 2]; EArr [ENum 3; ENum 4]]
           [EArr [ENum 1; ENum 1]; EArr [ENum 0; ENum 1]]).
  - split; [reflexivity |]. repeat constructor.
  - split; [reflexivity |]. repeat constructor.
  - reflexivity.
Defined.

(** A text among the Numbers of a flat array, under a scalar and between
    two arrays of one shape. *)
Example text_leaf_is_reported :
  applyBinaryOp "+" PrimFloat.add
    (mkMachine ([ENum 1; EText "x"; EChar "y"] :: [ENum 2] :: []) "" []) =
    Done (tt, mkMachine [] "" ["Error: + requires numeric arguments"]) ∧
  applyBinaryOp "+" PrimFloat.add
    (mkMachine ([EArr [ENum 1; ENum 2]; EArr [ENum 3; EText "x"]]
                :: [EArr [ENum 1; ENum 2]; EArr [ENum 3; ENum 4]] :: []) "" []) =
    Done (tt, mkMachine [] "" ["Error: + requires numeric arguments"]).
Proof. split; vm_compute; reflexivity. Qed.

(** ** The scalar on either side *)

(** C7 (as amended): for the commutative built-ins [+] and [*], the scalar
    broadcast does not depend on the operand order: with the scalar below the
    array or above it, the built-in leaves the same machine (the same result
    values, the same diagnostic, or the same failure).  A [float] here has
    one NaN, so that result values which are NaN count as the same whatever
    the sign and payload the hardware gives them.  For every operation the
    order decides on which side the scalar stands: against a flat array of
    Numbers that is not empty, the scalar below the array is the left operand
    at each element and the scalar above it the right operand (for [/], with
    no zero among the divisors); the two results are the same only where the
    operation gives the same value on both sides. *)
Theorem commutative_broadcast_is_symmetric
    (pow : float → float → float) (showDouble : float → string)
    (s : float) (rest : Stack) (out : string) (err : list string) :
  (∀ (name : string) (builtin : M unit) (A : Array),
     name = "+" ∨ name = "*" →
     builtIns pow showDouble name = Some builtin →
     builtin (mkMachine (A :: [ENum s] :: rest) out err) =
     builtin (mkMachine ([ENum s] :: A :: rest) out err)) ∧
  (∀ (opName : string) (op : float → float → float) (vs : list float),
     vs ≠ [] →
     (opName = "/" → PrimFloat.eqb s 0 = false ∧ Forall (λ v, PrimFloat.eqb v 0 = false) vs) →
     applyBinaryOp opName op (mkMachine (map ENum vs :: [ENum s] :: rest) out err) =
       Done (tt, mkMachine (map (λ v, ENum (op s v)) vs :: rest) out err) ∧
     applyBinaryOp opName op (mkMachine ([ENum s] :: map ENum vs :: rest) out err) =
       Done (tt, mkMachine (map (λ v, ENum (op v s)) vs :: rest) out err)).
Proof.
  split.
  - intros name builtin A [-> | ->] [= <-].
    + apply broadcast_symmetric_when_commutative; [exact double_add_comm | discriminate].
    + apply broadcast_symmetric_when_commutative; [exact double_mul_comm | discriminate].
  - intros opName op vs Hvs Hzero. split.
    + apply broadcast_of_scalar_left; [exact Hvs |]. intros Hname. now apply Hzero.
    + apply broadcast_of_scalar_right; [exact Hvs |]. intros Hname. now apply Hzero.
Qed.

(** [2 [1 2 3] *] and [[1 2 3] 2 *]. *)
Lemma commutative_broadcast_is_symmetric_witness :
  applyBinaryOp "*" PrimFloat.mul
    (mkMachine ([ENum 1; ENum 2; ENum 3] :: [ENum 2] :: []) "" []) =
  applyBinaryOp "*" PrimFloat.mul
    (mkMachine ([ENum 2] :: [ENum 1; ENum 2; ENum 3] :: []) "" []).
Proof.
  apply (proj1 (commutative_broadcast_is_symmetric PrimFloat.mul (λ _, "") 2 [] "" []) "*"
           (applyBinaryOp "*" PrimFloat.mul) [ENum 1; ENum 2; ENum 3]).
  - right. reflexivity.
  - reflexivity.
Defined.

(** C7 as stated fails for the operations that are not commutative:
    [2 [1 2 3] -] leaves [[1 0 -1]] and [[1 2 3] 2 -] leaves [[-1 0 1]]. *)
Lemma subtraction_broadcast_depends_on_order :
  applyBinaryOp "-" PrimFloat.sub
    (mkMachine ([ENum 1; ENum 2; ENum 3] :: [ENum 2] :: []) "" [])
    = Done (tt, mkMachine [[ENum 1; ENum 0; ENum (-1)]] "" []) ∧
  applyBinaryOp "-" PrimFloat.sub
    (mkMachine ([ENum 2] :: [ENum 1; ENum 2; ENum 3] :: []) "" [])
    = Done (tt, mkMachine [[ENum (-1); ENum 0; ENum 1]] "" []) ∧
  applyBinaryOp "-" PrimFloat.sub
    (mkMachine ([ENum 1; ENum 2; ENum 3] :: [ENum 2] :: []) "" [])
  ≠ applyBinaryOp "-" PrimFloat.sub
    (mkMachine ([ENum 2] :: [ENum 1; ENum 2; ENum 3] :: []) "" []).
Proof.
  assert (H1 : applyBinaryOp "-" PrimFloat.sub
                 (mkMachine ([ENum 1; ENum 2; ENum 3] :: [ENum 2] :: []) "" [])
               = Done (tt, mkMachine [[ENum 1; ENum 0; ENum (-1)]] "" []))
    by (vm_compute; reflexivity).
  assert (H2 : applyBinaryOp "-" PrimFloat.sub
                 (mkMachine ([ENum 2] :: [ENum 1; ENum 2; ENum 3] :: []) "" [])
               = Done (tt, mkMachine [[ENum (-1); ENum 0; ENum 1]] "" []))
    by (vm_compute; reflexivity).
  split; [exact H1 |]. split; [exact H2 |].
  rewrite H1, H2. intros Heq.
  apply (f_equal (λ r : outcome (unit * Machine),
                    match r with
                    | Done (_, m) =>
                        match stack m with
                        | (ENum d :: _) :: _ => PrimFloat.ltb d 0
                        | _ => false
                        end
                    | _ => false
                    end)) in Heq.
  vm_compute in Heq. discriminate Heq.
Qed.

(** ** The broadcast on numbers *)

(** X1: Two arrays of Numbers of one shape, of any rank and with no dimension
    zero, are replaced by one array of that shape that holds, at each
    position, the operation applied to the element of the lower array on
    the left and that of the upper array on the right.  For [/] no divisor
    may be zero. *)
Theorem equal_shapes_combine_elementwise
    (opName : string) (op : float → float → float)
    (shape : list nat) (a b : Array) (rest : Stack) (out : string) (err : list string) :
  numbersOfShape shape a → numbersOfShape shape b →
  Forall (λ n, 1 ≤ n) shape →
  (opName = "/" → Forall (λ v, PrimFloat.eqb v 0 = false) (numbersIn (EArr b))) →
  applyBinaryOp opName op (mkMachine (b :: a :: rest) out err) =
  Done (tt, mkMachine (combineArrays op a b :: rest) out err) ∧
  numbersOfShape shape (combineArrays op a b).
Proof. apply broadcast_of_equal_shapes. Qed.

Lemma equal_shapes_combine_elementwise_witness :
  applyBinaryOp "/" PrimFloat.div
    (mkMachine ([EArr [ENum 2; ENum 4]; EArr [ENum 5; ENum 8]]
                :: [EArr [ENum 1; ENum 2]; EArr [ENum 3; ENum 4]] :: []) "" []) =
  Done (tt, mkMachine
              (combineArrays PrimFloat.div [EArr [ENum 1; ENum 2]; EArr [ENum 3; ENum 4]]
                 [EArr [ENum 2; ENum 4]; EArr [ENum 5; ENum 8]] :: []) "" []) ∧
  numbersOfShape [2; 2]
    (combineArrays PrimFloat.div [EArr [ENum 1; ENum 2]; EArr [ENum 3; ENum 4]]
       [EArr [ENum 2; ENum 4]; EArr [ENum 5; ENum 8]]).
Proof.
  apply (equal_shapes_combine_elementwise "/" PrimFloat.div [2; 2]
           [EArr [ENum 1; ENum 2]; EArr [ENum 3; ENum 4]]
           [EArr [ENum 2; ENum 4]; EArr [ENum 5; ENum 8]] [] "" []).
  - split; [reflexivity |]. repeat constructor.
  - split; [reflexivity |]. repeat constructor.
  - repeat constructor.
  - intros _. repeat constructor.
Defined.

(** X2: A scalar and a flat array of Numbers that is not empty are replaced by
    the array of the operation applied to the scalar and each Number, the
    scalar on the side on which it stands: on the left when it is the lower
    operand, on the right when it is the upper one.  For [/] neither the
    scalar nor a Number of the array may be zero. *)
Theorem scalar_broadcasts_over_a_flat_array
    (opName : string) (op : float → float → float)
    (s : float) (vs : list float) (rest : Stack) (out : string) (err : list string) :
  vs ≠ [] →
  (opName = "/" → PrimFloat.eqb s 0 = false ∧ Forall (λ v, PrimFloat.eqb v 0 = false) vs) →
  applyBinaryOp opName op (mkMachine (map ENum vs :: [ENum s] :: rest) out err) =
    Done (tt, mkMachine (map (λ v, ENum (op s v)) vs :: rest) out err) ∧
  applyBinaryOp opName op (mkMachine ([ENum s] :: map ENum vs :: rest) out err) =
    Done (tt, mkMachine (map (λ v, ENum (op v s)) vs :: rest) out err).
Proof.
  intros Hvs Hzero. split.
  - apply broadcast_of_scalar_left; [exact Hvs |]. intros Hname. now apply Hzero.
  - apply broadcast_of_scalar_right; [exact Hvs |]. intros Hname. now apply Hzero.
Qed.

Lemma scalar_broadcasts_over_a_flat_array_witness :
  applyBinaryOp "-" PrimFloat.sub
    (mkMachine (map ENum [1; 2; 3]%float :: [ENum 2] :: []) "" []) =
    Done (tt, mkMachine (map (λ v, ENum (PrimFloat.sub 2 v)) [1; 2; 3]%float :: []) "" []) ∧
  applyBinaryOp "-" PrimFloat.sub
    (mkMachine ([ENum 2] :: map ENum [1; 2; 3]%float :: []) "" []) =
    Done (tt, mkMachine (map (λ v, ENum (PrimFloat.sub v 2)) [1; 2; 3]%float :: []) "" []).
Proof.
  apply (scalar_broadcasts_over_a_flat_array "-" PrimFloat.sub 2 [1; 2; 3]%float [] "" []);
    discriminate.
Defined.

(** X3: [getShape] reads the shape of a regular array off its first elements: on
    an array of Numbers nested to the shape [shape], no dimension being
    zero, it returns [shape]. *)
Theorem inferred_shape_of_a_regular_array (shape : list nat) (arr : Array) :
  numbersOfShape shape arr → Forall (λ n, 1 ≤ n) shape → getShape arr [] = shape.
Proof. apply getShape_numbers. Qed.

Lemma inferred_shape_of_a_regular_array_witness :
  getShape [EArr [ENum 1; ENum 2; ENum 3]; EArr [ENum 4; ENum 5; ENum 6]] [] = [2; 3].
Proof.
  apply (inferred_shape_of_a_regular_array [2; 3]
           [EArr [ENum 1; ENum 2; ENum 3]; EArr [ENum 4; ENum 5; ENum 6]]).
  - split; [reflexivity |]. repeat constructor.
  - repeat constructor.
Defined.

(** X4: Two arrays of different inferred shapes, neither of them a scalar, are
    rejected: both are removed from the stack, one diagnostic is written
    and nothing is pushed. *)
Theorem mismatched_shapes_are_rejected
    (opName : string) (op : float → float → float)
    (a b : Array) (rest : Stack) (out : string) (err : list string) :
  isScalar a = false → isScalar b = false →
  getShape a [] ≠ getShape b [] →
  applyBinaryOp opName op (mkMachine (b :: a :: rest) out err) =
  Done (tt, mkMachine rest out
              (err ++ ["Error: " +:+ opName +:+ " requires a scalar or arrays of equal shape"])).
Proof.
  intros Ha Hb Hshape. rewrite applyBinaryOp_run. unfold broadcastShape, shapesEqual.
  rewrite Ha, Hb. simpl andb. cbv iota. now rewrite bool_decide_eq_false_2.
Qed.

Lemma mismatched_shapes_are_rejected_witness :
  applyBinaryOp "+" PrimFloat.add
    (mkMachine ([ENum 1; ENum 2; ENum 3] :: [ENum 1; ENum 2] :: [[ENum 9]]) "" []) =
  Done (tt, mkMachine [[ENum 9]] ""
              ([] ++ ["Error: " +:+ "+" +:+ " requires a scalar or arrays of equal shape"])).
Proof.
  apply (mismatched_shapes_are_rejected "+" PrimFloat.add [ENum 1; ENum 2]
           [ENum 1; ENum 2; ENum 3] [[ENum 9]] "" []).
  - reflexivity.
  - reflexivity.
  - discriminate.
Defined.

(** ** range *)

(** C8 (as amended): [range] pops its argument; for the double of an integer
    [n] with [0 <= n <= INT_MAX] it pushes the Array of the doubles
    [0, 1, ..., n-1]; for a scalar that is negative or differs from its
    [std::floor] it adds one diagnostic line and pushes nothing, so that the
    stack is the original one without the argument.  In particular [range]
    of 5 gives [[0 1 2 3 4]], of 0 the empty Array, and of -1, of 2.5 and of
    NaN the error.  What passes the test and is above [INT_MAX], an integer
    or plus infinity, is converted to [int] with undefined behaviour. *)
Theorem range_builds_the_integers_below
    (rest : Stack) (out : string) (err : list string) :
  (∀ n : Z, (0 ≤ n ≤ INT_MAX)%Z →
     builtin_range (mkMachine ([ENum (Z2double n)] :: rest) out err) =
     Done (tt, mkMachine
                 (map (λ i : nat, ENum (Z2double (Z.of_nat i))) (seq 0 (Z.to_nat n)) :: rest)
                 out err)) ∧
  (∀ val : float,
     PrimFloat.ltb val 0 = true ∨ PrimFloat.eqb (floor val) val = false →
     builtin_range (mkMachine ([ENum val] :: rest) out err) =
     Done (tt, mkMachine rest out (err ++ ["Error: range requires a non-negative integer"]))) ∧
  builtin_range (mkMachine ([ENum 5] :: rest) out err) =
    Done (tt, mkMachine ([ENum 0; ENum 1; ENum 2; ENum 3; ENum 4] :: rest) out err) ∧
  builtin_range (mkMachine ([ENum 0] :: rest) out err) =
    Done (tt, mkMachine ([] :: rest) out err) ∧
  builtin_range (mkMachine ([ENum (-1)] :: rest) out err) =
    Done (tt, mkMachine rest out (err ++ ["Error: range requires a non-negative integer"])) ∧
  builtin_range (mkMachine ([ENum 2.5] :: rest) out err) =
    Done (tt, mkMachine rest out (err ++ ["Error: range requires a non-negative integer"])) ∧
  builtin_range (mkMachine ([ENum nan] :: rest) out err) =
    Done (tt, mkMachine rest out (err ++ ["Error: range requires a non-negative integer"])) ∧
  (∀ n : Z, (INT_MAX < n < 2 ^ 53)%Z →
     builtin_range (mkMachine ([ENum (Z2double n)] :: rest) out err) = Undefined) ∧
  builtin_range (mkMachine ([ENum infinity] :: rest) out err) = Undefined.
Proof.
  assert (Hrun : ∀ val,
            builtin_range (mkMachine ([ENum val] :: rest) out err) =
            (if PrimFloat.ltb val 0 || negb (PrimFloat.eqb (floor val) val)
             then wcerr_line "Error: range requires a non-negative integer"
             else bound ← defined (static_cast_int val); push (rangeElements bound))
              (mkMachine rest out err)) by reflexivity.
  split; [| split; [| repeat split; try reflexivity]].
  - intros n [Hn0 Hn]. rewrite Hrun.
    destruct (Z2double_small_integer n) as (Hlt & Hint & Htrunc).
    { unfold INT_MAX in Hn. lia. }
    rewrite Hlt, Hint. simpl orb. cbv iota.
    unfold static_cast_int. rewrite Htrunc.
    destruct (decide (INT_MIN ≤ n ≤ INT_MAX)%Z) as [_ | Hout];
      [reflexivity | unfold INT_MIN in Hout; lia].
  - intros val Hbad. rewrite Hrun.
    destruct Hbad as [-> | ->]; [reflexivity |]. now rewrite orb_true_r.
  - intros n [Hn Hn53]. rewrite Hrun.
    destruct (Z2double_small_integer n) as (Hlt & Hint & Htrunc).
    { unfold INT_MAX in Hn. lia. }
    rewrite Hlt, Hint. simpl orb. cbv iota.
    unfold static_cast_int. rewrite Htrunc.
    destruct (decide (INT_MIN ≤ n ≤ INT_MAX)%Z) as [Hin | _]; [lia | reflexivity].
Qed.

(** [range] of 3. *)
Lemma range_builds_the_integers_below_witness :
  builtin_range (mkMachine ([ENum (Z2double 3)] :: []) "" []) =
  Done (tt, mkMachine
              (map (λ i : nat, ENum (Z2double (Z.of_nat i))) (seq 0 (Z.to_nat 3)) :: [])
              "" []).
Proof.
  apply (proj1 (range_builds_the_integers_below [] "" []) 3%Z).
  unfold INT_MAX. lia.
Defined.

(** C8 as stated fails in two places.  Beyond the range of [int]:
    2147483648 is a non-negative integer, the loop bound
    [static_cast<int>(val)] is then not defined, and the run does not end
    with the Array [0 .. n-1] pushed.  And for a scalar that is not an
    integer: plus infinity is neither negative nor different from its floor,
    so no error is raised for it, and the same conversion is undefined. *)
Lemma range_beyond_int_is_undefined :
  (PrimFloat.ltb (Z2double 2147483648) 0 = false ∧
   PrimFloat.eqb (floor (Z2double 2147483648)) (Z2double 2147483648) = true ∧
   builtin_range (mkMachine ([ENum (Z2double 2147483648)] :: []) "" []) = Undefined) ∧
  (PrimFloat.ltb infinity 0 = false ∧
   PrimFloat.eqb (floor infinity) infinity = true ∧
   builtin_range (mkMachine ([ENum infinity] :: []) "" []) = Undefined).
Proof. repeat split; vm_compute; reflexivity. Qed.


(** ** dim *)

Section DimFacts.

Variable result : Array.

(** The rounds of the loop after the first, over the elements [others] that
    follow [before]. *)
Lemma getDims_loop_rest (subSize : nat) (others before : Array) (m : Machine) :
  before ≠ [] →
  for_loop_from (length others) (length before)
    (getDimsStep result (before ++ others)) (true, subSize) m =
  if isUniformWith subSize others then Done (inl (true, subSize), m)
  else Done (inr tt, afterNonUniform result m).
Proof.
  revert before. induction others as [| e others IH]; intros before Hne; [reflexivity |].
  assert (Hpos : length before ≠ 0) by (destruct before; [contradiction | discriminate]).
  assert (Hat : at_index (before ++ e :: others) (length before) m = Done (e, m)).
  { unfold at_index. now rewrite list_lookup_middle. }
  simpl for_loop_from. unfold getDimsStep at 1.
  unfold mbind at 1, M_bind at 1. unfold mbind at 1, M_bind at 1. rewrite Hat.
  destruct (decide (length before = 0)) as [H0 | _]; [contradiction |].
  destruct e as [| | | sub]; try reflexivity.
  simpl isUniformWith.
  destruct (decide (length sub ≠ subSize)) as [Hne' | Heq].
  - apply Nat.eqb_neq in Hne'. rewrite Hne'. reflexivity.
  - apply dec_stable in Heq. rewrite <- Heq, Nat.eqb_refl. simpl andb.
    specialize (IH (before ++ [EArr sub])). rewrite <- app_assoc in IH. simpl app in IH.
    rewrite length_app in IH. simpl in IH. rewrite Nat.add_1_r in IH.
    rewrite Heq. apply IH. now destruct before.
Qed.

(** The whole loop over a non-empty [current]. *)
Lemma getDims_loop (first : Element) (others : Array) (m : Machine) :
  for_loop (length (first :: others)) (getDimsStep result (first :: others)) (false, 0) m =
  match first with
  | EArr sub =>
      if isUniformWith (length sub) others then Done (inl (true, length sub), m)
      else Done (inr tt, afterNonUniform result m)
  | _ => Done (inr tt, m)
  end.
Proof.
  unfold for_loop. cbn [for_loop_from length]. destruct first as [| | | sub]; try reflexivity.
  assert (Hfirst : getDimsStep result (EArr sub :: others) 0 (false, 0) m
                   = Done (inl (true, length sub), m)) by reflexivity.
  rewrite (bind_Done _ _ _ _ _ Hfirst).
  exact (getDims_loop_rest (length sub) others [EArr sub] m ltac:(discriminate)).
Qed.

Lemma getDims_of_unfold (current : Array) (dims : list nat) (m : Machine) :
  getDims_of result (EArr current) dims m =
  match current with
  | [] => Done (dims ++ [0], m)
  | EArr sub :: others =>
      if isUniformWith (length sub) others
      then getDims_of result (EArr sub) (dims ++ [length current]) m
      else Done (dims ++ [length current], afterNonUniform result m)
  | _ :: _ => Done (dims ++ [length current], m)
  end.
Proof.
  destruct current as [| first others]; [reflexivity |].
  cbn [getDims_of]. unfold mbind, M_bind. rewrite getDims_loop.
  destruct first as [| | | sub]; try reflexivity.
  destruct (isUniformWith (length sub) others); reflexivity.
Qed.

Lemma getDims_nonuniform (arr : Array) :
  spineNonUniform arr →
  ∀ dims m, ∃ dims',
    getDims_of result (EArr arr) dims m = Done (dims', afterNonUniform result m) ∧ dims' ≠ [].
Proof.
  induction 1 as [first others Hnot | first others Huni _ IH]; intros dims m;
    rewrite getDims_of_unfold.
  - rewrite Hnot. eexists. split; [reflexivity |]. now destruct dims.
  - rewrite Huni. apply IH.
Qed.

Lemma getDims_uniform (e : Element) :
  ∀ arr, e = EArr arr → ¬ spineNonUniform arr →
  ∀ dims m, ∃ dims',
    getDims_of result (EArr arr) dims m = Done (dims', m) ∧ dims' ≠ [].
Proof.
  induction e as [c | d | s | a IH] using Element_nested_ind; intros arr [= <-] Hok dims m.
  rewrite getDims_of_unfold.
  destruct a as [| [| | | sub] others];
    try (eexists; split; [reflexivity | now destruct dims]).
  destruct (isUniformWith (length sub) others) eqn:Huni.
  - apply Forall_cons_1 in IH as [IH _]. apply (IH sub eq_refl).
    intros Hbad. apply Hok. now apply nonUniform_below.
  - exfalso. apply Hok. now apply nonUniform_here.
Qed.

End DimFacts.

Lemma builtin_dim_run (arr : Array) (rest : Stack) (out : string) (err : list string) :
  builtin_dim (mkMachine (arr :: rest) out err) =
  if isLoneNonArray arr then Done (tt, mkMachine ([] :: rest) out err)
  else
    (dims ← getDims [] arr [];
     if isEmpty dims && negb (isEmpty ([] : Array)) then mret tt
     else push ([] ++ map (λ dim, ENum (Z2double (Z.of_nat dim))) dims))
      (mkMachine rest out err).
Proof.
  unfold builtin_dim.
  rewrite (bind_Done _ _ _ _ _ (eq_refl : stack_size _ = Done (_, _))).
  destruct (decide (length (stack (mkMachine (arr :: rest) out err)) = 0)) as [H0 | _];
    [discriminate H0 |].
  do 2 mstep. destruct (isLoneNonArray arr); reflexivity.
Qed.

Lemma spineNonUniform_not_lone (arr : Array) :
  spineNonUniform arr → isLoneNonArray arr = false.
Proof. intros [first others _ | first others _ _]; now destruct others. Qed.

(** What [dim] does on a non-uniform spine, in full: the empty Array pushed by
    the error path, and above it the dimensions read before the error. *)
Lemma dim_nonuniform_pushes_twice
    (arr : Array) (rest : Stack) (out : string) (err : list string) :
  spineNonUniform arr →
  ∃ dims, dims ≠ [] ∧
    builtin_dim (mkMachine (arr :: rest) out err) =
    Done (tt, mkMachine (map (λ dim, ENum (Z2double (Z.of_nat dim))) dims :: [] :: rest) out
                (err ++ ["Error: Non-uniform array for dim"])).
Proof.
  intros Hbad. rewrite builtin_dim_run, (spineNonUniform_not_lone arr Hbad).
  destruct (getDims_nonuniform [] arr Hbad [] (mkMachine rest out err)) as (dims & Hrun & Hne).
  exists dims. split; [exact Hne |].
  unfold getDims. rewrite (bind_Done _ _ _ _ _ Hrun).
  destruct dims; [contradiction | reflexivity].
Qed.

(** C5 (as amended): [dim] reports non-uniform nesting when it lies on the
    chain of first elements: some level there starts with an Array and holds
    a later element that is not an Array of the same size.  It then prints
    exactly one diagnostic line and pushes the empty Array in place of the
    inspected operand.  Nesting that is uniform along that chain is not
    reported: one result is pushed and nothing is printed. *)
Theorem dim_reports_nonuniform_spine
    (arr : Array) (rest : Stack) (out : string) (err : list string) :
  (spineNonUniform arr →
   ∃ above : Stack,
     builtin_dim (mkMachine (arr :: rest) out err) =
     Done (tt, mkMachine (above ++ [] :: rest) out
                 (err ++ ["Error: Non-uniform array for dim"]))) ∧
  (¬ spineNonUniform arr →
   ∃ result : Array,
     builtin_dim (mkMachine (arr :: rest) out err) =
     Done (tt, mkMachine (result :: rest) out err)).
Proof.
  split.
  - intros Hbad. destruct (dim_nonuniform_pushes_twice arr rest out err Hbad)
      as (dims & _ & Hrun).
    exists [map (λ dim, ENum (Z2double (Z.of_nat dim))) dims]. exact Hrun.
  - intros Hok. rewrite builtin_dim_run.
    destruct (isLoneNonArray arr); [eauto |].
    destruct (getDims_uniform [] (EArr arr) arr eq_refl Hok [] (mkMachine rest out err))
      as (dims & Hrun & Hne).
    unfold getDims. rewrite (bind_Done _ _ _ _ _ Hrun).
    destruct dims; [contradiction | eauto].
Qed.

(** [[[1 2] [3]] dim]. *)
Lemma dim_reports_nonuniform_spine_witness :
  ∃ above : Stack,
    builtin_dim (mkMachine ([EArr [ENum 1; ENum 2]; EArr [ENum 3]] :: [[ENum 9]]) "" []) =
    Done (tt, mkMachine (above ++ [] :: [[ENum 9]]) ""
                ([] ++ ["Error: Non-uniform array for dim"])).
Proof.
  apply (proj1 (dim_reports_nonuniform_spine
                  [EArr [ENum 1; ENum 2]; EArr [ENum 3]] [[ENum 9]] "" [])).
  apply nonUniform_here. reflexivity.
Defined.

(** C5 as stated fails twice over.  On [[[1 2] [3]]] the error is reported,
    but the stack afterwards holds two new Arrays, not the original stack
    without the operand; and the nesting of [[[[1 2] [3 4]] [[5] [6 7]]]] is
    inconsistent below its second element, which [dim] never inspects: no
    error is raised and [[2 2 2]] is pushed. *)
Lemma dim_error_is_not_clean :
  builtin_dim (mkMachine ([EArr [ENum 1; ENum 2]; EArr [ENum 3]] :: []) "" []) =
    Done (tt, mkMachine [[ENum 2]; []] "" ["Error: Non-uniform array for dim"]) ∧
  builtin_dim
    (mkMachine ([EArr [EArr [ENum 1; ENum 2]; EArr [ENum 3; ENum 4]];
                 EArr [EArr [ENum 5]; EArr [ENum 6; ENum 7]]] :: []) "" []) =
    Done (tt, mkMachine [[ENum 2; ENum 2; ENum 2]] "" []).
Proof. split; vm_compute; reflexivity. Qed.


(** ** matmul *)

Lemma matmulCheckRow_numeric (row : Element) (m : Machine) :
  if match row with EArr r => forallb holdsDouble r | _ => false end
  then matmulCheckRow row tt m = Done (inl tt, m)
  else ∃ line, matmulCheckRow row tt m = Done (inr tt, withDiagnostic line m).
Proof.
  destruct row as [| | | r]; try (eexists; reflexivity).
  unfold matmulCheckRow. apply (for_each_check holdsDouble).
  - intros x Hx. now rewrite Hx.
  - intros x Hx. rewrite Hx. eexists. reflexivity.
Qed.

Lemma matmulCheck_rows (a : Array) (m : Machine) :
  if numericRows a then for_each a matmulCheckRow tt m = Done (inl tt, m)
  else ∃ line, for_each a matmulCheckRow tt m = Done (inr tt, withDiagnostic line m).
Proof.
  unfold numericRows.
  apply (for_each_check (λ row, match row with EArr r => forallb holdsDouble r | _ => false end)).
  - intros row Hrow. pose proof (matmulCheckRow_numeric row m) as H. now rewrite Hrow in H.
  - intros row Hrow. pose proof (matmulCheckRow_numeric row m) as H. now rewrite Hrow in H.
Qed.

Lemma isUniformWith_Forall (n : nat) (rest : Array) :
  isUniformWith n rest = true →
  Forall (λ e, ∃ row, e = EArr row ∧ length row = n) rest.
Proof.
  unfold isUniformWith. rewrite forallb_forall, Forall_forall.
  intros H e He. apply list_elem_of_In in He. specialize (H e He).
  destruct e as [| | | row]; try discriminate. apply Nat.eqb_eq in H. eauto.
Qed.

(** An array of inferred shape [[m; n]] has [m] rows, each an Array of size
    [n]. *)
Lemma getShape_rank2 (a : Array) (m n : nat) :
  getShape a [] = [m; n] →
  length a = m ∧ Forall (λ e, ∃ row, e = EArr row ∧ length row = n) a.
Proof.
  rewrite getShape_unfold. destruct a as [| [| | | first] rest]; try discriminate.
  destruct (isUniformWith (length first) rest) eqn:Huni; [| discriminate].
  rewrite (getShape_unfold first). intros [= Hm Hn Htail]. split; [exact Hm |].
  rewrite <- Hn. constructor; [eauto |]. now apply isUniformWith_Forall.
Qed.

Lemma matrix_of_shape (a : Array) (m n : nat) :
  getShape a [] = [m; n] → numericRows a = true → isMatrix a m n.
Proof.
  intros Hshape Hnum. apply getShape_rank2 in Hshape as [Hlen Hrows]. split; [exact Hlen |].
  unfold numericRows in Hnum. rewrite forallb_forall in Hnum.
  rewrite Forall_forall in Hrows |- *. intros e He.
  destruct (Hrows e He) as (row & -> & Hn). exists row. repeat split; [exact Hn |].
  apply list_elem_of_In in He. specialize (Hnum _ He). simpl in Hnum.
  rewrite forallb_forall in Hnum. rewrite Forall_forall. intros x Hx.
  apply Hnum. now apply list_elem_of_In.
Qed.

Lemma matrixEntry_run (a : Array) (m n i k : nat) (mach : Machine) :
  isMatrix a m n → i < m → k < n →
  matrixEntry a i k mach = Done (entry a i k, mach).
Proof.
  intros [Hlen Hrows] Hi Hk.
  destruct (lookup_lt_is_Some_2 a i ltac:(lia)) as [e He].
  rewrite Forall_forall in Hrows.
  destruct (Hrows e ltac:(eapply list_elem_of_lookup_2; eauto)) as (row & -> & Hn & Hnum).
  destruct (lookup_lt_is_Some_2 row k ltac:(lia)) as [x Hx].
  rewrite Forall_forall in Hnum.
  pose proof (Hnum x ltac:(eapply list_elem_of_lookup_2; eauto)) as Hd.
  destruct x as [| d | |]; try discriminate.
  unfold matrixEntry, entry, at_index. rewrite He.
  mstep. mstep. rewrite Hx. reflexivity.
Qed.

Lemma matmulProduct_run (a b : Array) (m n p : nat) (mach : Machine) :
  isMatrix a m n → isMatrix b n p →
  matmulProduct a b m n p mach = Done (matrixProduct a b m n p, mach).
Proof.
  intros Ha Hb. unfold matmulProduct, matrixProduct, for_count.
  rewrite (for_count_from_pure
             (λ i result, result ++ [EArr (map (λ j, ENum (dotProduct a b n i j)) (seq 0 p))])).
  - now rewrite fold_left_snoc.
  - intros i result Hi.
    erewrite bind_Done; [reflexivity |].
    unfold for_count.
    rewrite (for_count_from_pure (λ j row, row ++ [ENum (dotProduct a b n i j)])).
    + now rewrite fold_left_snoc.
    + intros j row Hj.
      erewrite bind_Done; [reflexivity |].
      unfold for_count, dotProduct.
      apply (for_count_from_pure (λ k sum, (sum + entry a i k * entry b k j)%float)).
      intros k sum Hk.
      rewrite (bind_Done _ _ _ _ _ (matrixEntry_run a m n i k mach Ha ltac:(lia) ltac:(lia))).
      rewrite (bind_Done _ _ _ _ _ (matrixEntry_run b n p k j mach Hb ltac:(lia) ltac:(lia))).
      reflexivity.
Qed.

Lemma builtin_matmul_run (a b : Array) (rest : Stack) (out : string) (err : list string) :
  builtin_matmul (mkMachine (b :: a :: rest) out err) =
  match getShape a [], getShape b [] with
  | [m; n], [n_b; p] =>
      if decide (n ≠ n_b) then
        Done (tt, mkMachine rest out (err ++ ["Error: Incompatible dimensions for matmul"]))
      else
        (okA ← for_each a matmulCheckRow tt;
         match okA with
         | inr _ => mret tt
         | inl _ =>
             okB ← for_each b matmulCheckRow tt;
             match okB with
             | inr _ => mret tt
             | inl _ => result ← matmulProduct a b m n p; push result
             end
         end) (mkMachine rest out err)
  | _, _ => Done (tt, mkMachine rest out (err ++ ["Error: matmul requires 2D arrays"]))
  end.
Proof.
  unfold builtin_matmul.
  rewrite (bind_Done _ _ _ _ _ (eq_refl : stack_size _ = Done (_, _))).
  destruct (decide (length (stack (mkMachine (b :: a :: rest) out err)) < 2)) as [Hlt | _];
    [simpl in Hlt; lia |].
  do 4 mstep.
  destruct (getShape a []) as [| m [| n [| ? ?]]]; try reflexivity;
    destruct (getShape b []) as [| n_b [| p [| ? ?]]]; try reflexivity.
  destruct (decide (n ≠ n_b)); reflexivity.
Qed.

(** C2: [matmul] on operands of inferred shapes [m x n] and [n x p] whose
    rows hold Numbers only pushes exactly one Array, the [m x p] matrix
    product; operands that are not both of rank 2, inner dimensions that
    differ, or an element that is not a Number each end in one diagnostic
    line with nothing pushed.  In particular [[1 2] [3 4]] times
    [[5 6] [7 8]] is [[19 22] [43 50]]. *)
Theorem matmul_is_the_matrix_product
    (a b : Array) (rest : Stack) (out : string) (err : list string) :
  (∀ m n p,
     getShape a [] = [m; n] → getShape b [] = [n; p] →
     numericRows a = true → numericRows b = true →
     builtin_matmul (mkMachine (b :: a :: rest) out err) =
     Done (tt, mkMachine (matrixProduct a b m n p :: rest) out err)) ∧
  (length (getShape a []) ≠ 2 ∨ length (getShape b []) ≠ 2 →
     builtin_matmul (mkMachine (b :: a :: rest) out err) =
     Done (tt, mkMachine rest out (err ++ ["Error: matmul requires 2D arrays"]))) ∧
  (∀ m n n_b p,
     getShape a [] = [m; n] → getShape b [] = [n_b; p] → n ≠ n_b →
     builtin_matmul (mkMachine (b :: a :: rest) out err) =
     Done (tt, mkMachine rest out (err ++ ["Error: Incompatible dimensions for matmul"]))) ∧
  (∀ m n p,
     getShape a [] = [m; n] → getShape b [] = [n; p] →
     numericRows a = false ∨ numericRows b = false →
     ∃ line,
       builtin_matmul (mkMachine (b :: a :: rest) out err) =
       Done (tt, mkMachine rest out (err ++ [line]))) ∧
  builtin_matmul
    (mkMachine ([EArr [ENum 5; ENum 6]; EArr [ENum 7; ENum 8]]
                :: [EArr [ENum 1; ENum 2]; EArr [ENum 3; ENum 4]] :: rest) out err) =
  Done (tt, mkMachine ([EArr [ENum 19; ENum 22]; EArr [ENum 43; ENum 50]] :: rest) out err).
Proof.
  split; [| split; [| split; [| split]]].
  - intros m n p Ha Hb Hna Hnb. rewrite builtin_matmul_run, Ha, Hb.
    destruct (decide (n ≠ n)) as [Hne | _]; [contradiction |].
    pose proof (matmulCheck_rows a (mkMachine rest out err)) as HcheckA. rewrite Hna in HcheckA.
    pose proof (matmulCheck_rows b (mkMachine rest out err)) as HcheckB. rewrite Hnb in HcheckB.
    rewrite (bind_Done _ _ _ _ _ HcheckA), (bind_Done _ _ _ _ _ HcheckB).
    rewrite (bind_Done _ _ _ _ _
               (matmulProduct_run a b m n p _ (matrix_of_shape a m n Ha Hna)
                  (matrix_of_shape b n p Hb Hnb))).
    reflexivity.
  - intros Hrank. rewrite builtin_matmul_run.
    destruct (getShape a []) as [| m [| n [| ? ?]]]; try reflexivity;
      destruct (getShape b []) as [| n_b [| p [| ? ?]]]; try reflexivity.
    simpl in Hrank. destruct Hrank; contradiction.
  - intros m n n_b p Ha Hb Hne. rewrite builtin_matmul_run, Ha, Hb.
    destruct (decide (n ≠ n_b)); [reflexivity | contradiction].
  - intros m n p Ha Hb Hbad. rewrite builtin_matmul_run, Ha, Hb.
    destruct (decide (n ≠ n)) as [Hne | _]; [contradiction |].
    pose proof (matmulCheck_rows a (mkMachine rest out err)) as HcheckA.
    destruct (numericRows a).
    + rewrite (bind_Done _ _ _ _ _ HcheckA).
      pose proof (matmulCheck_rows b (mkMachine rest out err)) as HcheckB.
      destruct Hbad as [Hbad | Hbad]; [discriminate |]. rewrite Hbad in HcheckB.
      destruct HcheckB as (line & HcheckB). exists line.
      now rewrite (bind_Done _ _ _ _ _ HcheckB).
    + destruct HcheckA as (line & HcheckA). exists line.
      now rewrite (bind_Done _ _ _ _ _ HcheckA).
  - vm_compute. reflexivity.
Qed.

(** A 1 x 2 matrix times a 2 x 1 matrix. *)
Lemma matmul_is_the_matrix_product_witness :
  builtin_matmul
    (mkMachine ([EArr [ENum 3]; EArr [ENum 4]] :: [EArr [ENum 1; ENum 2]] :: []) "" []) =
  Done (tt, mkMachine
              (matrixProduct [EArr [ENum 1; ENum 2]] [EArr [ENum 3]; EArr [ENum 4]] 1 2 1 :: [])
              "" []).
Proof.
  apply (proj1 (matmul_is_the_matrix_product
                  [EArr [ENum 1; ENum 2]] [EArr [ENum 3]; EArr [ENum 4]] [] "" []) 1 2 1);
    reflexivity.
Defined.

(** ** reshape *)

Lemma wrappedProduct_mod (dims : list Z) : ∀ total,
  wrappedProduct total dims = ((total * product dims) mod SIZE_MODULUS)%Z ∨ dims = [].
Proof.
  induction dims as [| d dims IH]; intros total; [now right |]. left.
  simpl. destruct (IH ((total * d) mod SIZE_MODULUS)%Z) as [-> | ->].
  - rewrite Z.mul_mod_idemp_l by (unfold SIZE_MODULUS; lia). f_equal. lia.
  - simpl. f_equal. lia.
Qed.

Lemma isDimension_range (e : Element) (d : Z) :
  isDimension e d → (1 ≤ d < SIZE_MODULUS)%Z ∧ e = ENum (Z2double d).
Proof.
  intros (val & -> & Hpos & Hcast). simpl in Hpos. apply andb_prop in Hpos as [Hp Hi].
  apply negb_true_iff in Hp.
  destruct (size_t_round_trip val d Hp Hi Hcast) as [Hd Hr]. now rewrite Hd.
Qed.

Lemma product_positive (shape : Array) (dims : list Z) :
  Forall2 isDimension shape dims → (1 ≤ product dims)%Z.
Proof.
  induction 1 as [| e d shape dims He _ IH]; simpl; [lia |].
  apply isDimension_range in He as [Hd _]. nia.
Qed.

Lemma wrappedProduct_exact (shape : Array) (dims : list Z) :
  Forall2 isDimension shape dims → (product dims < SIZE_MODULUS)%Z →
  wrappedProduct 1 dims = product dims.
Proof.
  intros Hdims Hsmall. pose proof (product_positive shape dims Hdims) as Hpos.
  destruct (wrappedProduct_mod dims 1) as [-> | ->]; [| reflexivity].
  rewrite Z.mul_1_l. apply Z.mod_small. lia.
Qed.

Lemma reshapeDimStep_ok (e : Element) (d : Z) (acc : list Z) (total : Z) (m : Machine) :
  isDimension e d →
  reshapeDimStep e (acc, total) m =
  Done (inl (acc ++ [d], (total * d) mod SIZE_MODULUS)%Z, m).
Proof.
  intros (val & -> & Hpos & Hcast). simpl in Hpos. apply andb_prop in Hpos as [Hp Hi].
  apply negb_true_iff in Hp. unfold reshapeDimStep. rewrite Hp, Hi, Hcast. reflexivity.
Qed.

Lemma reshapeDimStep_bad (e : Element) (st : list Z * Z) (m : Machine) :
  isPositiveInteger e = false →
  ∃ line, reshapeDimStep e st m = Done (inr tt, withDiagnostic line m).
Proof.
  intros Hbad. destruct st as [acc total]. unfold reshapeDimStep.
  destruct e as [| val | |]; try (eexists; reflexivity).
  simpl in Hbad. apply andb_false_iff in Hbad.
  assert (Htest : PrimFloat.leb val 0 || negb (PrimFloat.eqb (floor val) val) = true).
  { destruct Hbad as [H | H].
    - apply negb_false_iff in H. now rewrite H.
    - rewrite H. apply orb_true_r. }
  rewrite Htest. eexists. reflexivity.
Qed.

Lemma reshape_dims_ok (shape : Array) (dims : list Z) :
  Forall2 isDimension shape dims →
  ∀ acc total m,
    for_each shape reshapeDimStep (acc, total) m =
    Done (inl (acc ++ dims, wrappedProduct total dims), m).
Proof.
  induction 1 as [| e d shape dims He _ IH]; intros acc total m; simpl.
  - now rewrite app_nil_r.
  - rewrite (bind_Done _ _ _ _ _ (reshapeDimStep_ok e d acc total m He)).
    rewrite IH. now rewrite <- app_assoc.
Qed.

Lemma reshape_dims_bad (shape : Array) :
  Forall convertible shape →
  Exists (λ e, isPositiveInteger e = false) shape →
  ∀ st m, ∃ line, for_each shape reshapeDimStep st m = Done (inr tt, withDiagnostic line m).
Proof.
  induction shape as [| e shape IH]; intros Hconv Hbad st m; [inversion Hbad |].
  apply Forall_cons_1 in Hconv as [He Hconv]. simpl.
  destruct (isPositiveInteger e) eqn:Hpos.
  - destruct e as [| val | |]; try discriminate.
    destruct (He val eq_refl Hpos) as [d Hd].
    destruct st as [acc total].
    rewrite (bind_Done _ _ _ _ _
               (reshapeDimStep_ok (ENum val) d acc total m
                  (ex_intro _ val (conj eq_refl (conj Hpos Hd))))).
    apply IH; [exact Hconv |]. inversion Hbad as [? ? Hhd | ? ? Htl]; subst; [congruence | exact Htl].
  - destruct (reshapeDimStep_bad e st m Hpos) as (line & Hrun). exists line.
    now rewrite (bind_Done _ _ _ _ _ Hrun).
Qed.

(** *** The builder *)

Section BuildArray.

Variable data : Array.

Lemma buildArray_leaf_loop (n : nat) : ∀ acc idx,
  idx + n ≤ length data →
  Nat.iter n
    (λ '(result, idx),
       match data !! idx with
       | Some e => (result ++ [e], S idx)
       | None => (result, idx)
       end) (acc, idx) =
  (acc ++ take n (drop idx data), idx + n).
Proof.
  induction n as [| n IH]; intros acc idx Hlen.
  - simpl. now rewrite take_0, app_nil_r, Nat.add_0_r.
  - simpl Nat.iter. rewrite IH by lia.
    destruct (lookup_lt_is_Some_2 data (idx + n) ltac:(lia)) as [e He]. rewrite He.
    f_equal; [| lia]. rewrite <- app_assoc. f_equal.
    symmetry. apply take_S_r. now rewrite lookup_drop.
Qed.

Lemma buildArray_nested_loop (rest : list Z) (sub : nat → Array) (size : nat) (idx : nat) :
  ∀ n,
  (∀ k, k < n → buildArray data rest (idx + k * size) = (sub k, idx + k * size + size)) →
  Nat.iter n
    (λ '(result, idx),
       let '(s, idx') := buildArray data rest idx in (result ++ [EArr s], idx'))
    ([], idx) =
  (map (λ k, EArr (sub k)) (seq 0 n), idx + n * size).
Proof.
  induction n as [| n IH]; intros Hsub.
  - simpl. now rewrite Nat.add_0_r.
  - simpl Nat.iter. rewrite IH by (intros k Hk; apply Hsub; lia).
    rewrite (Hsub n) by lia. rewrite seq_S, map_app. cbn [map Nat.add].
    f_equal. rewrite Nat.mul_succ_l. lia.
Qed.

Lemma buildArray_rowMajor (dims : list Z) :
  dims ≠ [] →
  ∀ idx, idx + productNat (map Z.to_nat dims) ≤ length data →
  buildArray data dims idx =
  (rowMajor (map Z.to_nat dims) (drop idx data), idx + productNat (map Z.to_nat dims)).
Proof.
  induction dims as [| d dims IH]; intros Hne idx Hlen; [contradiction |].
  destruct dims as [| d' dims'].
  - simpl in Hlen |- *. rewrite Nat.mul_1_r in Hlen |- *.
    now rewrite (buildArray_leaf_loop (Z.to_nat d) [] idx Hlen).
  - set (rest := d' :: dims') in *.
    assert (Hbuild : buildArray data (d :: rest) idx =
              Nat.iter (Z.to_nat d)
                (λ '(result, idx),
                   let '(s, idx') := buildArray data rest idx in (result ++ [EArr s], idx'))
                ([], idx)) by reflexivity.
    assert (Hspec : rowMajor (map Z.to_nat (d :: rest)) (drop idx data) =
              map (λ k, EArr (rowMajor (map Z.to_nat rest)
                                (drop (k * productNat (map Z.to_nat rest)) (drop idx data))))
                (seq 0 (Z.to_nat d))) by reflexivity.
    rewrite Hbuild, Hspec.
    change (productNat (map Z.to_nat (d :: rest)))
      with (Z.to_nat d * productNat (map Z.to_nat rest)) in Hlen |- *.
    rewrite (buildArray_nested_loop rest
               (λ k, rowMajor (map Z.to_nat rest)
                       (drop (k * productNat (map Z.to_nat rest)) (drop idx data)))
               (productNat (map Z.to_nat rest)) idx (Z.to_nat d)); [reflexivity |].
    intros k Hk. rewrite IH; [now rewrite drop_drop | discriminate |].
    assert (S k * productNat (map Z.to_nat rest) ≤ Z.to_nat d * productNat (map Z.to_nat rest))
      by (apply Nat.mul_le_mono_r; lia).
    rewrite Nat.mul_succ_l in H. lia.
Qed.

End BuildArray.

(** *** Row-major order *)

Lemma concat_chunks (data : Array) (size n : nat) :
  concat (map (λ k, take size (drop (k * size) data)) (seq 0 n)) = take (n * size) data.
Proof.
  induction n as [| n IH]; [reflexivity |].
  rewrite seq_S, map_app, concat_app, IH. cbn [map concat Nat.add].
  rewrite app_nil_r, take_take_drop. f_equal. rewrite Nat.mul_succ_l. lia.
Qed.

(** Read off level by level, a row-major nesting is the data it was built
    from: nothing is added and nothing is dropped. *)
Lemma rowMajor_flatten (dims : list nat) : ∀ data,
  dims ≠ [] →
  flattenLevels (length dims - 1) (rowMajor dims data) = take (productNat dims) data.
Proof.
  induction dims as [| d dims IH]; intros data Hne; [contradiction |].
  destruct dims as [| d' dims'].
  - simpl. now rewrite Nat.mul_1_r.
  - assert (Hunfold : rowMajor (d :: d' :: dims') data =
              map (λ k, EArr (rowMajor (d' :: dims')
                                (drop (k * productNat (d' :: dims')) data))) (seq 0 d))
      by reflexivity.
    rewrite Hunfold.
    replace (length (d :: d' :: dims') - 1) with (S (length (d' :: dims') - 1))
      by (simpl; lia).
    change (productNat (d :: d' :: dims')) with (d * productNat (d' :: dims')).
    cbn [flattenLevels]. rewrite map_map.
    rewrite <- concat_chunks. f_equal. apply map_ext. intros k.
    apply IH. discriminate.
Qed.

(** *** The built-in *)

Lemma builtin_reshape_run (shape data : Array) (rest : Stack) (out : string) (err : list string) :
  builtin_reshape (mkMachine (shape :: data :: rest) out err) =
  match shape with
  | [] => Done (tt, mkMachine rest out (err ++ ["Error: reshape requires a non-empty shape array"]))
  | _ =>
      (r ← for_each shape reshapeDimStep ([], 1%Z);
       match r with
       | inr _ => mret tt
       | inl (dims, total_size) =>
           if decide (Z.of_nat (length data) ≠ total_size) then
             wcerr_line "Error: Data size does not match shape dimensions"
           else push (fst (buildArray data dims 0))
       end) (mkMachine rest out err)
  end.
Proof.
  unfold builtin_reshape.
  rewrite (bind_Done _ _ _ _ _ (eq_refl : stack_size _ = Done (_, _))).
  destruct (decide (length (stack (mkMachine (shape :: data :: rest) out err)) < 2))
    as [Hlt | _]; [simpl in Hlt; lia |].
  do 4 mstep. destruct shape; reflexivity.
Qed.

Lemma productNat_to_nat (shape : Array) (dims : list Z) :
  Forall2 isDimension shape dims →
  productNat (map Z.to_nat dims) = Z.to_nat (product dims).
Proof.
  induction 1 as [| e d shape dims He Hrest IH]; [reflexivity |].
  simpl. rewrite IH. apply isDimension_range in He as [Hd _].
  pose proof (product_positive shape dims Hrest). rewrite Z2Nat.inj_mul by lia. reflexivity.
Qed.

(** The successful run: valid dimensions whose product is the size of the
    data array. *)
Lemma reshape_pushes_row_major
    (shape data : Array) (dims : list Z) (rest : Stack) (out : string) (err : list string) :
  shape ≠ [] → Forall2 isDimension shape dims → (product dims < SIZE_MODULUS)%Z →
  Z.of_nat (length data) = product dims →
  builtin_reshape (mkMachine (shape :: data :: rest) out err) =
  Done (tt, mkMachine (rowMajor (map Z.to_nat dims) data :: rest) out err).
Proof.
  intros Hne Hdims Hsmall Hsize. rewrite builtin_reshape_run.
  destruct shape as [| e shape']; [contradiction |].
  rewrite (bind_Done _ _ _ _ _
             (reshape_dims_ok (e :: shape') dims Hdims [] 1%Z (mkMachine rest out err))).
  rewrite (wrappedProduct_exact (e :: shape') dims Hdims Hsmall).
  destruct (decide (Z.of_nat (length data) ≠ product dims)) as [Hbad | _]; [contradiction |].
  assert (Hprod : productNat (map Z.to_nat dims) = length data).
  { rewrite (productNat_to_nat (e :: shape') dims Hdims), <- Hsize. apply Nat2Z.id. }
  assert (Hdims_ne : dims ≠ []) by (inversion Hdims; discriminate).
  change ([] ++ dims) with dims.
  rewrite (buildArray_rowMajor data dims Hdims_ne 0) by (rewrite Hprod; simpl; lia).
  reflexivity.
Qed.

(** C3 (as amended): [reshape] pops the shape array, then the data array.
    Within the range of [size_t], that is, for shape elements which, where
    they pass the test for a positive integer, are below 2^64, and for
    dimensions whose product is below 2^64: an empty shape array, a shape
    element that is not a positive-integer Number, or a product of the
    dimensions that differs from the size of the data array ends in one
    diagnostic line with nothing pushed.  Otherwise exactly one Array is
    pushed, the row-major nesting of the data: the last dimension is the
    innermost level and the data elements appear in it from left to right,
    none added and none dropped. *)
Theorem reshape_builds_row_major
    (shape data : Array) (rest : Stack) (out : string) (err : list string) :
  (shape = [] →
   builtin_reshape (mkMachine (shape :: data :: rest) out err) =
   Done (tt, mkMachine rest out (err ++ ["Error: reshape requires a non-empty shape array"]))) ∧
  (Forall convertible shape → Exists (λ e, isPositiveInteger e = false) shape →
   ∃ line,
     builtin_reshape (mkMachine (shape :: data :: rest) out err) =
     Done (tt, mkMachine rest out (err ++ [line]))) ∧
  (∀ dims : list Z,
     shape ≠ [] → Forall2 isDimension shape dims → (product dims < SIZE_MODULUS)%Z →
     (Z.of_nat (length data) ≠ product dims →
      builtin_reshape (mkMachine (shape :: data :: rest) out err) =
      Done (tt, mkMachine rest out
                  (err ++ ["Error: Data size does not match shape dimensions"]))) ∧
     (Z.of_nat (length data) = product dims →
      builtin_reshape (mkMachine (shape :: data :: rest) out err) =
      Done (tt, mkMachine (rowMajor (map Z.to_nat dims) data :: rest) out err) ∧
      flattenLevels (length dims - 1) (rowMajor (map Z.to_nat dims) data) = data)).
Proof.
  split; [| split].
  - intros ->. reflexivity.
  - intros Hconv Hbad. rewrite builtin_reshape_run.
    destruct shape as [| e shape']; [inversion Hbad |].
    destruct (reshape_dims_bad (e :: shape') Hconv Hbad ([], 1%Z) (mkMachine rest out err))
      as (line & Hrun).
    exists line. now rewrite (bind_Done _ _ _ _ _ Hrun).
  - intros dims Hne Hdims Hsmall. split; intros Hsize.
    + rewrite builtin_reshape_run. destruct shape as [| e shape']; [contradiction |].
      rewrite (bind_Done _ _ _ _ _
                 (reshape_dims_ok (e :: shape') dims Hdims [] 1%Z (mkMachine rest out err))).
      rewrite (wrappedProduct_exact (e :: shape') dims Hdims Hsmall).
      destruct (decide (Z.of_nat (length data) ≠ product dims)); [reflexivity | contradiction].
    + split; [now apply reshape_pushes_row_major |].
      assert (Hprod : productNat (map Z.to_nat dims) = length data).
      { rewrite (productNat_to_nat shape dims Hdims), <- Hsize. apply Nat2Z.id. }
      assert (Hdims_ne : dims ≠ []) by (inversion Hdims; subst; [contradiction | discriminate]).
      replace (length dims) with (length (map Z.to_nat dims)) by apply length_map.
      rewrite rowMajor_flatten by (destruct dims; [contradiction | discriminate]).
      rewrite Hprod. apply firstn_all.
Qed.

(** [[1 2 3 4] [2 2] reshape]. *)
Lemma reshape_builds_row_major_witness :
  builtin_reshape
    (mkMachine ([ENum 2; ENum 2] :: [ENum 1; ENum 2; ENum 3; ENum 4] :: []) "" []) =
  Done (tt, mkMachine
              (rowMajor (map Z.to_nat [2; 2]%Z) [ENum 1; ENum 2; ENum 3; ENum 4] :: []) "" []) ∧
  flattenLevels (length [2; 2]%Z - 1)
    (rowMajor (map Z.to_nat [2; 2]%Z) [ENum 1; ENum 2; ENum 3; ENum 4]) =
  [ENum 1; ENum 2; ENum 3; ENum 4].
Proof.
  apply (proj2 (proj2 (reshape_builds_row_major
                         [ENum 2; ENum 2] [ENum 1; ENum 2; ENum 3; ENum 4] [] "" []))
           [2; 2]%Z).
  - discriminate.
  - repeat constructor; exists 2%float; repeat split; reflexivity.
  - reflexivity.
  - reflexivity.
Defined.

(** The leaf loop of the builder finds nothing to take from an empty data
    array, however often it goes round. *)
Lemma buildArray_leaf_loop_empty (n : nat) (idx : nat) :
  Nat.iter n
    (λ '(result, idx),
       match ([] : Array) !! idx with
       | Some e => (result ++ [e], S idx)
       | None => (result, idx)
       end) ([], idx) = ([], idx).
Proof. induction n as [| n IH]; [reflexivity |]. now rewrite Nat.iter_succ, IH. Qed.

Lemma buildArray_two_empty_rows (d : Z) (idx : nat) :
  buildArray [] [2%Z; d] idx = ([EArr []; EArr []], idx).
Proof.
  cbn [buildArray]. change (Z.to_nat 2) with 2. rewrite !Nat.iter_succ. cbn [Nat.iter nat_rect].
  now rewrite !buildArray_leaf_loop_empty.
Qed.

(** C3 as stated fails in three places.  On the empty shape array: none of
    its elements fails the test, the product of no dimensions is 1, which is
    the size of the data array [[5]], and yet [reshape] reports an error and
    pushes nothing.  Where the product of the dimensions wraps around: the
    dimensions 2 and 2^63 have the product 2^64, which is not the size 0 of
    the empty data array, and yet no error is reported and an array is
    pushed.  And where a dimension does not fit a [size_t]: after the
    dimension 10^20 the text ["x"] is never reached, since the conversion of
    10^20 is undefined. *)
Lemma reshape_departs_from_the_claim :
  (Forall (λ e, isPositiveInteger e = true) ([] : Array) ∧
   product [] = Z.of_nat (length [ENum 5]) ∧
   builtin_reshape (mkMachine ([] :: [ENum 5] :: []) "" []) =
   Done (tt, mkMachine [] "" ["Error: reshape requires a non-empty shape array"])) ∧
  (Forall2 isDimension [ENum 2; ENum 0x1p63] [2; 2 ^ 63]%Z ∧
   product [2; 2 ^ 63]%Z ≠ Z.of_nat (length ([] : Array)) ∧
   builtin_reshape (mkMachine ([ENum 2; ENum 0x1p63] :: [] :: []) "" []) =
   Done (tt, mkMachine [[EArr []; EArr []]] "" [])) ∧
  (isPositiveInteger (EText "x") = false ∧
   builtin_reshape (mkMachine ([ENum 1e20; EText "x"] :: [] :: []) "" []) = Undefined).
Proof.
  assert (Hdims : Forall2 isDimension [ENum 2; ENum 0x1p63] [2; 2 ^ 63]%Z).
  { repeat constructor; eexists; repeat split; vm_compute; reflexivity. }
  split; [| split].
  - repeat split. constructor.
  - split; [exact Hdims |]. split; [discriminate |].
    rewrite builtin_reshape_run.
    rewrite (bind_Done _ _ _ _ _
               (reshape_dims_ok _ _ Hdims [] 1%Z (mkMachine [] "" []))).
    change (wrappedProduct 1 [2; 2 ^ 63]%Z) with 0%Z.
    destruct (decide (Z.of_nat (length ([] : Array)) ≠ 0%Z)) as [Hne | _];
      [contradiction Hne; reflexivity |].
    change ([] ++ [2; 2 ^ 63]%Z) with [2; 2 ^ 63]%Z.
    now rewrite buildArray_two_empty_rows.
  - split; vm_compute; reflexivity.
Qed.

(** ** dim after reshape *)

Lemma length_rowMajor (d : nat) (rest : list nat) (data : Array) :
  productNat (d :: rest) ≤ length data → length (rowMajor (d :: rest) data) = d.
Proof.
  destruct rest as [| d' rest'].
  - simpl. rewrite Nat.mul_1_r. intros H. now rewrite length_take_le.
  - intros _. change (rowMajor (d :: d' :: rest') data)
      with (map (λ k, EArr (rowMajor (d' :: rest')
                              (drop (k * productNat (d' :: rest')) data))) (seq 0 d)).
    now rewrite length_map, length_seq.
Qed.

Lemma getDims_rowMajor (dims : list nat) :
  dims ≠ [] → Forall (λ d, 1 ≤ d) dims →
  ∀ data acc m,
    productNat dims ≤ length data →
    Forall (λ e, holdsArray e = false) data →
    getDims_of [] (EArr (rowMajor dims data)) acc m = Done (acc ++ dims, m).
Proof.
  induction dims as [| d dims IH]; intros Hne Hpos data acc m Hlen Hflat; [contradiction |].
  apply Forall_cons_1 in Hpos as [Hd Hpos].
  rewrite getDims_of_unfold.
  pose proof (length_rowMajor d dims data Hlen) as Hsize.
  destruct dims as [| d' dims'].
  - simpl in Hlen, Hsize |- *. rewrite Nat.mul_1_r in Hlen.
    destruct (take d data) as [| e others] eqn:Htake; [simpl in Hsize; lia |].
    assert (He : holdsArray e = false).
    { rewrite Forall_forall in Hflat. apply Hflat.
      rewrite <- (take_drop d data), Htake. left. }
    destruct e; try discriminate; now rewrite <- Hsize.
  - set (rest := d' :: dims') in *. set (P := productNat rest).
    assert (Hunfold : rowMajor (d :: rest) data =
              map (λ k, EArr (rowMajor rest (drop (k * P) data))) (seq 0 d)) by reflexivity.
    rewrite Hunfold in Hsize |- *.
    destruct d as [| d0]; [lia |].
    change (seq 0 (S d0)) with (0 :: seq 1 d0) in Hsize |- *. cbn [map] in Hsize |- *.
    change (0 * P) with 0. rewrite drop_0.
    change (productNat (S d0 :: rest)) with (S d0 * P) in Hlen.
    rewrite Nat.mul_succ_l in Hlen.
    assert (Huniform :
              isUniformWith (length (rowMajor rest data))
                (map (λ k, EArr (rowMajor rest (drop (k * P) data))) (seq 1 d0)) = true).
    { unfold isUniformWith. apply forallb_forall. intros e He.
      apply in_map_iff in He as (k & <- & Hk). apply in_seq in Hk.
      apply Nat.eqb_eq. unfold rest. rewrite !length_rowMajor; [reflexivity | fold rest P; lia |].
      fold rest P. rewrite length_drop.
      assert (S k * P ≤ S d0 * P) by (apply Nat.mul_le_mono_r; lia).
      rewrite !Nat.mul_succ_l in H. lia. }
    rewrite Huniform. rewrite IH; [| discriminate | exact Hpos | fold P; lia | exact Hflat].
    rewrite length_cons, length_map, length_seq. now rewrite <- app_assoc.
Qed.

Lemma isLoneNonArray_rowMajor (dims : list nat) (data : Array) :
  dims ≠ [] → dims ≠ [1] → Forall (λ d, 1 ≤ d) dims → productNat dims ≤ length data →
  isLoneNonArray (rowMajor dims data) = false.
Proof.
  intros Hne Hone Hpos Hlen. destruct dims as [| d dims]; [contradiction |].
  pose proof (length_rowMajor d dims data Hlen) as Hsize.
  destruct dims as [| d' dims'].
  - destruct (rowMajor [d] data) as [| e [| e' others]]; try reflexivity.
    simpl in Hsize. congruence.
  - apply Forall_cons_1 in Hpos as [Hd _]. destruct d as [| d0]; [lia |].
    change (rowMajor (S d0 :: d' :: dims') data)
      with (map (λ k, EArr (rowMajor (d' :: dims')
                              (drop (k * productNat (d' :: dims')) data))) (0 :: seq 1 d0)).
    cbn [map]. now destruct (map _ (seq 1 d0)).
Qed.

Lemma dimensions_as_doubles (shape : Array) (dims : list Z) :
  Forall2 isDimension shape dims →
  map (λ dim, ENum (Z2double (Z.of_nat dim))) (map Z.to_nat dims) = shape ∧
  Forall (λ d, 1 ≤ d) (map Z.to_nat dims).
Proof.
  induction 1 as [| e d shape dims He _ [IH1 IH2]]; [split; [reflexivity | constructor] |].
  apply isDimension_range in He as [Hd ->]. split.
  - cbn [map]. rewrite IH1, Z2Nat.id by lia. reflexivity.
  - cbn [map]. constructor; [lia | exact IH2].
Qed.

(** C4 (as amended): for a non-empty shape array of positive-integer Numbers
    other than the single dimension 1, and a data array of as many elements
    as their product, none of them an Array, [reshape] followed by [dim]
    leaves the shape array itself on the stack in place of the two
    operands. *)
Theorem dim_after_reshape_is_the_shape
    (shape data : Array) (dims : list Z) (rest : Stack) (out : string) (err : list string) :
  shape ≠ [] →
  Forall2 isDimension shape dims →
  dims ≠ [1%Z] →
  Z.of_nat (length data) = product dims →
  (Z.of_nat (length data) < SIZE_MODULUS)%Z →
  Forall (λ e, holdsArray e = false) data →
  ∃ m1,
    builtin_reshape (mkMachine (shape :: data :: rest) out err) = Done (tt, m1) ∧
    builtin_dim m1 = Done (tt, mkMachine (shape :: rest) out err).
Proof.
  intros Hne Hdims Hone Hsize Hfits Hflat.
  eexists. split.
  { apply (reshape_pushes_row_major shape data dims); try assumption. lia. }
  destruct (dimensions_as_doubles shape dims Hdims) as [Hback Hpos].
  assert (Hprod : productNat (map Z.to_nat dims) = length data).
  { rewrite (productNat_to_nat shape dims Hdims), <- Hsize. apply Nat2Z.id. }
  assert (Hdims_ne : map Z.to_nat dims ≠ []).
  { inversion Hdims; subst; [contradiction | discriminate]. }
  assert (Hnot_one : map Z.to_nat dims ≠ [1]).
  { intros Heq. apply Hone. destruct dims as [| d [| d' dims']]; try discriminate.
    inversion Hdims as [| e ? ? ? He _]; subst. apply isDimension_range in He as [Hd _].
    injection Heq as Heq. f_equal. lia. }
  rewrite builtin_dim_run.
  rewrite isLoneNonArray_rowMajor by (try assumption; lia).
  unfold getDims.
  rewrite (bind_Done _ _ _ _ _
             (getDims_rowMajor (map Z.to_nat dims) Hdims_ne Hpos data [] _
                ltac:(lia) Hflat)).
  change (negb (isEmpty ([] : Array))) with false. rewrite andb_false_r.
  change ([] ++ map Z.to_nat dims) with (map Z.to_nat dims).
  change (([] : Array) ++ map (λ dim, ENum (Z2double (Z.of_nat dim))) (map Z.to_nat dims))
    with (map (λ dim, ENum (Z2double (Z.of_nat dim))) (map Z.to_nat dims)).
  now rewrite Hback.
Qed.

(** [[1 2 3 4] [2 2] reshape dim] leaves [[2 2]]. *)
Lemma dim_after_reshape_is_the_shape_witness :
  ∃ m1,
    builtin_reshape
      (mkMachine ([ENum 2; ENum 2] :: [ENum 1; ENum 2; ENum 3; ENum 4] :: []) "" [])
      = Done (tt, m1) ∧
    builtin_dim m1 = Done (tt, mkMachine ([ENum 2; ENum 2] :: []) "" []).
Proof.
  apply (dim_after_reshape_is_the_shape
           [ENum 2; ENum 2] [ENum 1; ENum 2; ENum 3; ENum 4] [2; 2]%Z [] "" []).
  - discriminate.
  - repeat constructor; exists 2%float; repeat split; reflexivity.
  - discriminate.
  - reflexivity.
  - reflexivity.
  - repeat constructor.
Defined.

(** C4 as stated fails in two ways.  A single element reshaped with the shape
    [[1]] is taken for a scalar by [dim], which pushes the empty Array; and
    when the data elements are Arrays themselves, [dim] reads on into them:
    [[[1 2] [3 4]]] reshaped with [[2]] has dimensions [[2 2]]. *)
Lemma dim_after_reshape_differs :
  (∃ m1,
     builtin_reshape (mkMachine ([ENum 1] :: [ENum 5] :: []) "" []) = Done (tt, m1) ∧
     builtin_dim m1 = Done (tt, mkMachine ([] :: []) "" [])) ∧
  (∃ m1,
     builtin_reshape
       (mkMachine ([ENum 2] :: [EArr [ENum 1; ENum 2]; EArr [ENum 3; ENum 4]] :: []) "" [])
       = Done (tt, m1) ∧
     builtin_dim m1 = Done (tt, mkMachine ([ENum 2; ENum 2] :: []) "" [])).
Proof. split; eexists; split; vm_compute; reflexivity. Qed.

(** ** Word definitions and calls *)

Lemma andThen_ext (r : Run) (k1 k2 : Interp → Run) :
  (∀ st, r = Some (Done st) → k1 st = k2 st) → andThen r k1 = andThen r k2.
Proof. intros H. destruct r as [[st | |] |]; simpl; auto. Qed.

Lemma andThen_done (r : Run) : andThen r (λ st, Some (Done st)) = r.
Proof. now destruct r as [[st | |] |]. Qed.

Lemma andThen_assoc (r : Run) (k1 k2 : Interp → Run) :
  andThen (andThen r k1) k2 = andThen r (λ st, andThen (k1 st) k2).
Proof. now destruct r as [[st | |] |]. Qed.

(** *** Names *)

Lemma isNameChar_colon : isNameChar ":"%char = false.
Proof. reflexivity. Qed.

Lemma isFunctionName_not_header (name : string) :
  isFunctionName name = true → isHeader name = false ∧ name ≠ ":dump" ∧ name ≠ "".
Proof.
  unfold isFunctionName, isHeader, front. intros H.
  destruct (String.eqb name "") eqn:Hempty; [discriminate |].
  destruct (String.eqb name ":end") eqn:Hend; [discriminate |].
  destruct (String.eqb name ":dump") eqn:Hdump; [discriminate |].
  simpl in H. apply String.eqb_neq in Hempty, Hdump. repeat split; try assumption.
  destruct name as [| c name]; [reflexivity |]. simpl in H |- *.
  apply andb_prop in H as [Hc _].
  apply andb_false_intro2. apply bool_decide_eq_false. intros [= ->]. discriminate.
Qed.

Lemma header_of_name (name : string) :
  name ≠ "" → name ≠ "dump" →
  String.eqb (":" +:+ name) ":dump" = false ∧
  isHeader (":" +:+ name) = true ∧
  substring 1 (String.length (":" +:+ name) - 1) (":" +:+ name) = name.
Proof.
  intros Hne Hdump. split; [| split].
  - apply String.eqb_neq. intros [= H]. contradiction.
  - destruct name; [contradiction | reflexivity].
  - simpl. rewrite Nat.sub_0_r.
    destruct name as [| c name]; [reflexivity |]. simpl. f_equal.
    clear. induction name as [| c name IH]; [reflexivity |]. simpl. now rewrite IH.
Qed.

Section EvaluateFacts.

Variable pow : float → float → float.
Variable showDouble : float → string.
Variable stod : string → option float.

Abbreviation evalLoop := (evaluateLoop pow showDouble stod).
Abbreviation eval := (evaluate pow showDouble stod).

(** *** The loop *)

(** While a definition is open, a storable token joins the pending body. *)
Lemma evalLoop_collect call isFB (body : list string) : ∀ rest funcName funcBody st,
  Forall storable body →
  evalLoop call isFB (body ++ rest) true funcName funcBody st =
  evalLoop call isFB rest true funcName (funcBody ++ body) st.
Proof.
  induction body as [| token body IH]; intros rest funcName funcBody st Hbody.
  - now rewrite app_nil_r.
  - apply Forall_cons_1 in Hbody as [[Hend Hdump] Hbody].
    apply String.eqb_neq in Hend, Hdump.
    cbn [app evaluateLoop]. rewrite Hdump, Hend, andb_false_r. cbn [negb andb].
    rewrite IH by exact Hbody. now rewrite <- app_assoc.
Qed.

(** [:end] closes the definition and commits it. *)
Lemma evalLoop_end call isFB rest funcName funcBody st :
  evalLoop call isFB (":end" :: rest) true funcName funcBody st =
  evalLoop call isFB rest false funcName [] (define funcName funcBody st).
Proof. cbn [evaluateLoop]. now rewrite andb_false_r. Qed.

(** A header at top level opens a definition. *)
Lemma evalLoop_header call (name : string) rest funcName funcBody st :
  isFunctionName name = true → name ≠ "dump" → rest ≠ [] →
  evalLoop call false ((":" +:+ name) :: rest) false funcName funcBody st =
  evalLoop call false rest true name funcBody st.
Proof.
  intros Hname Hdump Hrest.
  destruct (isFunctionName_not_header name Hname) as (_ & _ & Hne).
  destruct (header_of_name name Hne Hdump) as (Hnotdump & Hheader & Hsub).
  cbn [evaluateLoop]. rewrite Hnotdump, Hheader. cbn [negb andb].
  rewrite Hsub, Hname. destruct rest; [contradiction | reflexivity].
Qed.

(** The whole definition, from its header to [:end]. *)
Lemma evalLoop_definition call (name : string) (body rest : list string) funcName st :
  isFunctionName name = true → name ≠ "dump" → Forall storable body →
  evalLoop call false ((":" +:+ name) :: body ++ ":end" :: rest) false funcName [] st =
  evalLoop call false rest false name [] (define name body st).
Proof.
  intros Hname Hdump Hbody.
  rewrite evalLoop_header by (try assumption; now destruct body).
  rewrite evalLoop_collect by exact Hbody. apply evalLoop_end.
Qed.

(** Outside a definition the name of the last definition plays no part. *)
Lemma evalLoop_funcName call isFB (tokens : list string) : ∀ name1 name2 funcBody st,
  evalLoop call isFB tokens false name1 funcBody st =
  evalLoop call isFB tokens false name2 funcBody st.
Proof.
  induction tokens as [| token tokens IH]; intros name1 name2 funcBody st; [reflexivity |].
  cbn [evaluateLoop].
  destruct (String.eqb token ":dump").
  { apply andThen_ext. intros st' _. apply IH. }
  destruct (negb isFB && negb false && isHeader token).
  { destruct (negb (isEmpty tokens) && isFunctionName _); reflexivity. }
  destruct (functions st !! token) as [body |].
  { apply andThen_ext. intros st' _. apply IH. }
  destruct (builtIns pow showDouble token) as [builtin |];
    apply andThen_ext; intros st' _; apply IH.
Qed.

(** A word of the dictionary is called with the body stored at that time. *)
Lemma evalLoop_call call isFB (w : string) (body rest : list string) funcName funcBody st :
  functions st !! w = Some body → w ≠ ":dump" → isFB = true ∨ isHeader w = false →
  evalLoop call isFB (w :: rest) false funcName funcBody st =
  andThen (call body st) (evalLoop call isFB rest false funcName funcBody).
Proof.
  intros Hw Hdump Hhead. apply String.eqb_neq in Hdump.
  cbn [evaluateLoop]. rewrite Hdump, Hw.
  assert (Hcond : negb isFB && negb false && isHeader w = false).
  { destruct Hhead as [-> | ->]; [reflexivity | apply andb_false_r]. }
  now rewrite Hcond.
Qed.

(** Inside a body no definition opens, so evaluation is sequential. *)
Lemma evalLoop_body_app call (pre : list string) : ∀ post funcName funcBody st,
  evalLoop call true (pre ++ post) false funcName funcBody st =
  andThen (evalLoop call true pre false funcName funcBody st)
    (evalLoop call true post false funcName funcBody).
Proof.
  induction pre as [| token pre IH]; intros post funcName funcBody st; [reflexivity |].
  cbn [app evaluateLoop]. cbn [negb andb].
  destruct (String.eqb token ":dump").
  { rewrite andThen_assoc. apply andThen_ext. intros st' _. apply IH. }
  destruct (functions st !! token) as [body |].
  { rewrite andThen_assoc. apply andThen_ext. intros st' _. apply IH. }
  destruct (builtIns pow showDouble token) as [builtin |];
    rewrite andThen_assoc; apply andThen_ext; intros st' _; apply IH.
Qed.

Lemma onMachine_functions (c : M unit) (st st' : Interp) :
  onMachine c st = Done st' → functions st' = functions st.
Proof.
  unfold onMachine. destruct (c (machine st)) as [[[] m] | |]; try discriminate.
  now intros [= <-].
Qed.

(** Evaluating a body leaves the dictionary as it is. *)
Lemma evalLoop_body_functions call (tokens : list string) :
  (∀ body st st', call body st = Some (Done st') → functions st' = functions st) →
  ∀ funcName funcBody st st',
    evalLoop call true tokens false funcName funcBody st = Some (Done st') →
    functions st' = functions st.
Proof.
  intros Hcall. induction tokens as [| token tokens IH]; intros funcName funcBody st st' Hrun.
  - now injection Hrun as <-.
  - cbn [evaluateLoop] in Hrun. cbn [negb andb] in Hrun.
    assert (Hstep : ∀ r : Run,
              (∀ st1, r = Some (Done st1) → functions st1 = functions st) →
              andThen r (evalLoop call true tokens false funcName funcBody) = Some (Done st') →
              functions st' = functions st).
    { intros r Hr Hthen. destruct r as [[st1 | |] |]; try discriminate.
      simpl in Hthen. rewrite (IH _ _ _ _ Hthen). now apply Hr. }
    destruct (String.eqb token ":dump").
    { eapply Hstep; [| exact Hrun]. intros st1 H. apply (inj Some) in H.
      exact (onMachine_functions _ _ _ H). }
    destruct (functions st !! token) as [body |].
    { eapply Hstep; [| exact Hrun]. intros st1 H. exact (Hcall _ _ _ H). }
    destruct (builtIns pow showDouble token) as [builtin |];
      (eapply Hstep; [| exact Hrun]); intros st1 H; apply (inj Some) in H;
      exact (onMachine_functions _ _ _ H).
Qed.

(** *** The evaluator *)

Lemma eval_unfold depth tokens isFB st :
  eval (S depth) tokens isFB st =
  evalLoop (λ body, eval depth body true) isFB tokens false "" [] st.
Proof. reflexivity. Qed.

Lemma eval_body_functions depth : ∀ tokens st st',
  eval depth tokens true st = Some (Done st') → functions st' = functions st.
Proof.
  induction depth as [| depth IH]; intros tokens st st' Hrun; [discriminate |].
  rewrite eval_unfold in Hrun.
  exact (evalLoop_body_functions _ tokens IH _ _ _ _ Hrun).
Qed.

Lemma eval_definition depth (name : string) (body rest : list string) st :
  isFunctionName name = true → name ≠ "dump" → Forall storable body →
  eval (S depth) ((":" +:+ name) :: body ++ ":end" :: rest) false st =
  eval (S depth) rest false (define name body st).
Proof.
  intros Hname Hdump Hbody. rewrite !eval_unfold.
  rewrite evalLoop_definition by assumption. apply evalLoop_funcName.
Qed.

Lemma eval_call depth (w : string) (body rest : list string) isFB st :
  functions st !! w = Some body → w ≠ ":dump" → isFB = true ∨ isHeader w = false →
  eval (S depth) (w :: rest) isFB st =
  andThen (eval depth body true st) (eval (S depth) rest isFB).
Proof.
  intros Hw Hdump Hhead. rewrite eval_unfold.
  rewrite (evalLoop_call _ isFB w body rest "" [] st Hw Hdump Hhead). reflexivity.
Qed.

Lemma eval_body_app depth (pre post : list string) st :
  eval (S depth) (pre ++ post) true st =
  andThen (eval (S depth) pre true st) (eval (S depth) post true).
Proof. rewrite eval_unfold. apply evalLoop_body_app. Qed.

End EvaluateFacts.

(** ** The stack dump *)

Section DumpFacts.

Variable showDouble : float → string.

Lemma dumpDrain_run (s : Stack) : ∀ temp out,
  dumpDrain showDouble s temp out = ([], rev s ++ temp, dumpLines showDouble s out).
Proof.
  induction s as [| t s IH]; intros temp out; [reflexivity |].
  simpl. rewrite IH. now rewrite <- app_assoc.
Qed.

Lemma dumpRestore_run (temp : Stack) : ∀ s, dumpRestore s temp = (rev temp ++ s, []).
Proof.
  induction temp as [| t temp IH]; intros s; [reflexivity |].
  simpl. rewrite IH. now rewrite <- app_assoc.
Qed.

Lemma printAll_run (s : Stack) : ∀ m,
  printAll showDouble s m =
  Done (tt, mkMachine (stack m) (dumpLines showDouble s (wcout m)) (wcerr m)).
Proof.
  induction s as [| a s IH]; intros m; [now destruct m |].
  cbn [printAll]. unfold printArray, wcout_put, mbind, M_bind. rewrite IH. reflexivity.
Qed.

Lemma dumpLoops_run (m : Machine) :
  dumpLoops showDouble m =
  mkMachine (stack m)
    (match stack m with
     | [] => (wcout m +:+ ("Stack:" +:+ newline)) +:+ ("(empty)" +:+ newline)
     | s => dumpLines showDouble s (wcout m +:+ ("Stack:" +:+ newline))
     end) (wcerr m).
Proof.
  unfold dumpLoops. destruct (stack m) as [| a s] eqn:Hs; [reflexivity |].
  rewrite dumpDrain_run, dumpRestore_run. now rewrite app_nil_r, app_nil_r, rev_involutive.
Qed.

Lemma dumpStack_run (m : Machine) :
  dumpStack showDouble m = Done (tt, dumpLoops showDouble m).
Proof.
  rewrite dumpLoops_run. unfold dumpStack, wcout_put, get_stack, mbind, M_bind.
  cbn [stack wcout wcerr]. destruct (stack m) as [| a s] eqn:Hs; [reflexivity |].
  rewrite printAll_run. reflexivity.
Qed.

End DumpFacts.

(** ** Straight-line code *)

Lemma storedTokens_storable (body : list string) :
  Forall storable body → storedTokens body = body ∧ dumpCount body = 0.
Proof.
  unfold storedTokens, dumpCount. induction 1 as [| token body [_ Hdump] _ [IH1 IH2]].
  - split; reflexivity.
  - rewrite filter_cons_True by exact Hdump. rewrite filter_cons_False by (intros H; contradiction).
    now rewrite IH1.
Qed.

Section StraightLineFacts.

Variable pow : float → float → float.
Variable showDouble : float → string.
Variable stod : string → option float.

Abbreviation evalLoop := (evaluateLoop pow showDouble stod).
Abbreviation eval := (evaluate pow showDouble stod).
Abbreviation run := (runPlain pow showDouble stod).

Lemma runPlain_app (pre post : list string) (m : Machine) :
  run (pre ++ post) m = (run pre;; run post) m.
Proof.
  revert m. induction pre as [| token pre IH]; intros m.
  - now destruct (run post m) as [[[] m'] | |].
  - cbn [app runPlain]. unfold mbind, M_bind.
    destruct (plainStep pow showDouble stod token m) as [[[] m1] | |]; try reflexivity.
    apply IH.
Qed.

(** A command on the machine followed by a run that is one again. *)
Lemma andThen_onMachine (c1 c2 : M unit) (k : Interp → Run) (st : Interp) :
  (∀ st', functions st' = functions st → k st' = Some (onMachine c2 st')) →
  andThen (Some (onMachine c1 st)) k = Some (onMachine (c1;; c2) st).
Proof.
  intros Hk. unfold onMachine, mbind, M_bind.
  destruct (c1 (machine st)) as [[[] m1] | |]; try reflexivity.
  cbn [andThen]. now rewrite Hk.
Qed.

Lemma onMachine_ext (c1 c2 : M unit) (st : Interp) :
  c1 (machine st) = c2 (machine st) → onMachine c1 st = onMachine c2 st.
Proof. intros H. unfold onMachine. now rewrite H. Qed.

(** One token of straight-line code. *)
Lemma evalLoop_plain_step call isFB (token : string) (rest : list string) funcName funcBody st :
  plainToken (functions st) token →
  evalLoop call isFB (token :: rest) false funcName funcBody st =
  andThen (Some (onMachine (plainStep pow showDouble stod token) st))
    (evalLoop call isFB rest false funcName funcBody).
Proof.
  intros (Hdump & Hheader & Hword). apply String.eqb_neq in Hdump.
  cbn [evaluateLoop]. rewrite Hdump, Hheader, andb_false_r, Hword. unfold plainStep.
  destruct (builtIns pow showDouble token); reflexivity.
Qed.

(** Straight-line code is evaluated as such, at top level and in a body,
    whatever the depth left for calls. *)
Lemma evalLoop_plain call isFB (tokens : list string) : ∀ funcName funcBody st,
  Forall (plainToken (functions st)) tokens →
  evalLoop call isFB tokens false funcName funcBody st = Some (onMachine (run tokens) st).
Proof.
  induction tokens as [| token tokens IH]; intros funcName funcBody st Hplain.
  - unfold onMachine. simpl. now destruct st.
  - apply Forall_cons_1 in Hplain as [Htoken Hplain].
    rewrite evalLoop_plain_step by exact Htoken.
    apply andThen_onMachine. intros st' Hst'. apply IH. now rewrite Hst'.
Qed.

Lemma eval_plain depth (tokens : list string) isFB st :
  Forall (plainToken (functions st)) tokens →
  eval (S depth) tokens isFB st = Some (onMachine (run tokens) st).
Proof. intros Hplain. rewrite eval_unfold. now apply evalLoop_plain. Qed.

(** Code whose tokens are straight-line or the word [w], when a call of [w]
    runs the straight-line body [new]. *)
Lemma evalLoop_inlined call isFB (w : string) (new : list string) (dict : FunctionDict) :
  dict !! w = Some new → w ≠ ":dump" → isFB = true ∨ isHeader w = false →
  (∀ st, functions st = dict → call new st = Some (onMachine (run new) st)) →
  ∀ (tokens : list string) funcName funcBody st,
    functions st = dict →
    Forall (λ token, token = w ∨ plainToken dict token) tokens →
    evalLoop call isFB tokens false funcName funcBody st =
    Some (onMachine (run (inlined w new tokens)) st).
Proof.
  intros Hw Hdump Hhead Hcall tokens.
  induction tokens as [| token tokens IH]; intros funcName funcBody st Hst Htokens.
  - unfold onMachine. simpl. now destruct st.
  - apply Forall_cons_1 in Htokens as [Htoken Htokens].
    assert (Hrest : ∀ st', functions st' = functions st →
              evalLoop call isFB tokens false funcName funcBody st' =
              Some (onMachine (run (inlined w new tokens)) st')).
    { intros st' Hst'. apply IH; [congruence | exact Htokens]. }
    unfold inlined. cbn [flat_map]. fold (inlined w new tokens).
    destruct (String.eqb_spec token w) as [-> | Hne].
    + rewrite (evalLoop_call pow showDouble stod call isFB w new tokens funcName funcBody st)
        by (try assumption; now rewrite Hst).
      rewrite (Hcall st Hst).
      rewrite (andThen_onMachine _ (run (inlined w new tokens)) _ st Hrest).
      apply f_equal, onMachine_ext. symmetry. apply runPlain_app.
    + destruct Htoken as [-> | Hplain]; [contradiction |].
      rewrite evalLoop_plain_step by now rewrite Hst.
      rewrite (andThen_onMachine _ (run (inlined w new tokens)) _ st Hrest).
      reflexivity.
Qed.

(** A word whose body is straight-line code and calls of [w]. *)
Lemma eval_inlined depth (v w : string) (new body : list string) isFB st :
  functions st !! v = Some body → functions st !! w = Some new →
  v ≠ ":dump" → isFB = true ∨ isHeader v = false → w ≠ ":dump" →
  Forall (plainToken (functions st)) new →
  Forall (λ token, token = w ∨ plainToken (functions st) token) body →
  eval (S (S (S depth))) [v] isFB st = Some (onMachine (run (inlined w new body)) st).
Proof.
  intros Hv Hw Hvdump Hvhead Hwdump Hnew Hbody.
  assert (Hbody' : eval (S (S depth)) body true st =
                   Some (onMachine (run (inlined w new body)) st)).
  { rewrite eval_unfold.
    apply (evalLoop_inlined _ true w new (functions st) Hw Hwdump (or_introl eq_refl));
      [| reflexivity | exact Hbody].
    intros st' Hst'. apply eval_plain. now rewrite Hst'. }
  rewrite (eval_call pow showDouble stod _ v body [] isFB st Hv Hvdump Hvhead), Hbody'.
  now destruct (onMachine (run (inlined w new body)) st).
Qed.

(** Straight-line code in front of other tokens. *)
Lemma evalLoop_plain_app call isFB (pre : list string) : ∀ post funcName funcBody st,
  Forall (plainToken (functions st)) pre →
  evalLoop call isFB (pre ++ post) false funcName funcBody st =
  andThen (Some (onMachine (run pre) st)) (evalLoop call isFB post false funcName funcBody).
Proof.
  induction pre as [| token pre IH]; intros post funcName funcBody st Hplain.
  - unfold onMachine. simpl. now destruct st.
  - apply Forall_cons_1 in Hplain as [Htoken Hplain].
    cbn [app]. rewrite evalLoop_plain_step by exact Htoken.
    unfold onMachine. cbn [runPlain]. unfold mbind, M_bind.
    destruct (plainStep pow showDouble stod token (machine st)) as [[[] m1] | |];
      try reflexivity.
    cbn [andThen]. rewrite IH by exact Hplain. reflexivity.
Qed.

Lemma plainToken_storable (dict : FunctionDict) (token : string) :
  plainToken dict token → storable token.
Proof. intros (Hdump & Hheader & _). split; [| exact Hdump]. now intros ->. Qed.

Lemma plain_storable (dict : FunctionDict) (tokens : list string) :
  Forall (plainToken dict) tokens → Forall storable tokens.
Proof.
  induction 1 as [| token tokens Htoken _ IH]; constructor; [| exact IH].
  exact (plainToken_storable dict token Htoken).
Qed.

Lemma storable_no_end (tokens : list string) :
  Forall storable tokens → Forall (λ token, token ≠ ":end") tokens.
Proof. induction 1 as [| token tokens [Hend _] _ IH]; constructor; assumption. Qed.

Lemma stack_dumped (n : nat) st :
  functions (dumped showDouble n st) = functions st ∧
  stack (machine (dumped showDouble n st)) = stack (machine st) ∧
  wcerr (machine (dumped showDouble n st)) = wcerr (machine st).
Proof.
  unfold dumped. cbn [functions machine]. split; [reflexivity |].
  induction n as [| n [IH1 IH2]]; [split; reflexivity |].
  rewrite Nat.iter_succ, dumpLoops_run. cbn [stack wcerr]. now split.
Qed.

(** *** Definitions that hold [:dump] *)

Lemma onMachine_dumpStack st :
  onMachine (dumpStack showDouble) st = Done (dumped showDouble 1 st).
Proof. unfold onMachine. now rewrite dumpStack_run. Qed.

Lemma dumped_dumped (n : nat) st :
  dumped showDouble n (dumped showDouble 1 st) = dumped showDouble (S n) st.
Proof. unfold dumped. cbn [functions machine]. now rewrite <- Nat.iter_succ_r. Qed.

(** While a definition is open, [:dump] prints the stack at once, and every
    other token but [:end] joins the pending body. *)
Lemma evalLoop_collect_any call isFB (body : list string) : ∀ rest funcName funcBody st,
  Forall (λ token, token ≠ ":end") body →
  evalLoop call isFB (body ++ rest) true funcName funcBody st =
  evalLoop call isFB rest true funcName (funcBody ++ storedTokens body)
    (dumped showDouble (dumpCount body) st).
Proof.
  induction body as [| token body IH]; intros rest funcName funcBody st Hbody.
  - rewrite app_nil_r. now destruct st.
  - apply Forall_cons_1 in Hbody as [Hend Hbody]. apply String.eqb_neq in Hend.
    cbn [app evaluateLoop]. unfold storedTokens, dumpCount.
    destruct (String.eqb_spec token ":dump") as [-> | Hdump].
    + rewrite onMachine_dumpStack. cbn [andThen]. rewrite IH by exact Hbody.
      rewrite filter_cons_False by (intros H; now apply H).
      rewrite filter_cons_True by reflexivity. cbn [length].
      now rewrite dumped_dumped.
    + rewrite Hend, andb_false_r. cbn [negb andb].
      rewrite IH by exact Hbody.
      rewrite filter_cons_True by exact Hdump. rewrite filter_cons_False by exact Hdump.
      now rewrite <- app_assoc.
Qed.

Lemma eval_definition_any depth (name : string) (body : list string) st :
  isFunctionName name = true → name ≠ "dump" → Forall (λ token, token ≠ ":end") body →
  eval (S depth) ((":" +:+ name) :: body ++ [":end"]) false st =
  Some (Done (define name (storedTokens body) (dumped showDouble (dumpCount body) st))).
Proof.
  intros Hname Hdump Hbody. rewrite eval_unfold.
  rewrite evalLoop_header by (try assumption; now destruct body).
  rewrite evalLoop_collect_any by exact Hbody. now rewrite evalLoop_end.
Qed.

Lemma eval_open_definition_any depth (name : string) (body : list string) st :
  isFunctionName name = true → name ≠ "dump" → body ≠ [] →
  Forall (λ token, token ≠ ":end") body →
  eval (S depth) ((":" +:+ name) :: body) false st =
  Some (Done (dumped showDouble (dumpCount body) st)).
Proof.
  intros Hname Hdump Hne Hbody. rewrite eval_unfold.
  rewrite evalLoop_header by assumption.
  rewrite <- (app_nil_r body) at 1. now rewrite evalLoop_collect_any by exact Hbody.
Qed.

(** *** A call after a redefinition *)

Lemma isFunctionName_storable (name : string) : isFunctionName name = true → storable name.
Proof.
  intros Hname. destruct (isFunctionName_not_header name Hname) as (Hheader & Hdump & _).
  split; [| exact Hdump]. intros ->. discriminate Hheader.
Qed.

Lemma eval_redefined_then_called depth (v w : string) (body new : list string) st :
  isFunctionName v = true → isFunctionName w = true → w ≠ "dump" → v ≠ w →
  functions st !! v = Some body →
  Forall (plainToken (<[w := new]> (functions st))) new →
  Forall (λ token, token = w ∨ plainToken (<[w := new]> (functions st)) token) body →
  eval (S (S (S depth))) ((":" +:+ w) :: new ++ [":end"; v]) false st =
  Some (onMachine (run (inlined w new body)) (define w new st)).
Proof.
  intros Hv Hw Hdump Hvw Hstored Hnew Hbody.
  destruct (isFunctionName_not_header v Hv) as (Hvhead & Hvdump & _).
  destruct (isFunctionName_not_header w Hw) as (_ & Hwdump & _).
  change (new ++ [":end"; v]) with (new ++ ":end" :: [v]).
  rewrite eval_definition by (try assumption; exact (plain_storable _ _ Hnew)).
  apply eval_inlined; try assumption.
  - unfold define. cbn [functions]. now rewrite lookup_insert_ne.
  - apply lookup_insert_eq.
  - now right.
Qed.

End StraightLineFacts.

(** ** Late binding *)

(** C9 (as amended): a definition stores the tokens between the header and
    [:end] as they are, except [:dump], which is carried out on the spot and
    not stored; a later definition of a name replaces the earlier one; and a
    call evaluates the body found in the dictionary at the time of the call.
    So once [w] is redefined, a word [v] whose stored body mentions [w] runs
    the new body of [w] on its next call: where the bodies are built-in
    words and literals, with [w] among those of [v], that call returns with
    the effect of the body of [v] in which the new body of [w] stands for
    each [w], be [v] in the dictionary already or defined in the same run
    between the two definitions of [w]. *)
Theorem word_calls_are_late_bound
    (pow : float → float → float) (showDouble : float → string)
    (stod : string → option float) :
  (∀ depth name body st,
     isFunctionName name = true → name ≠ "dump" →
     Forall (λ token, token ≠ ":end") body →
     evaluate pow showDouble stod (S depth) ((":" +:+ name) :: body ++ [":end"]) false st =
     Some (Done (define name (storedTokens body) (dumped showDouble (dumpCount body) st))) ∧
     (Forall storable body →
      evaluate pow showDouble stod (S depth) ((":" +:+ name) :: body ++ [":end"]) false st =
      Some (Done (define name body st)))) ∧
  (∀ depth name body1 body2 st,
     isFunctionName name = true → name ≠ "dump" →
     Forall storable body1 → Forall storable body2 →
     evaluate pow showDouble stod (S depth)
       ((":" +:+ name) :: body1 ++ ":end" :: (":" +:+ name) :: body2 ++ [":end"]) false st =
     Some (Done (define name body2 st)) ∧
     functions (define name body2 st) !! name = Some body2 ∧
     ∀ other, other ≠ name → functions (define name body2 st) !! other = functions st !! other) ∧
  (∀ depth w body rest isFunctionBody st,
     functions st !! w = Some body → w ≠ ":dump" →
     isFunctionBody = true ∨ isHeader w = false →
     evaluate pow showDouble stod (S depth) (w :: rest) isFunctionBody st =
     andThen (evaluate pow showDouble stod depth body true st)
       (evaluate pow showDouble stod (S depth) rest isFunctionBody)) ∧
  (∀ depth v w pre post newBody st,
     isFunctionName v = true → isFunctionName w = true → w ≠ "dump" → v ≠ w →
     Forall storable newBody →
     functions st !! v = Some (pre ++ w :: post) →
     evaluate pow showDouble stod (S (S depth))
       ((":" +:+ w) :: newBody ++ [":end"; v]) false st =
     andThen (evaluate pow showDouble stod (S depth) pre true (define w newBody st))
       (λ st1, andThen (evaluate pow showDouble stod depth newBody true st1)
                 (evaluate pow showDouble stod (S depth) post true))) ∧
  (∀ depth v w body newBody st,
     isFunctionName v = true → isFunctionName w = true → w ≠ "dump" → v ≠ w →
     functions st !! v = Some body →
     Forall (plainToken (<[w := newBody]> (functions st))) newBody →
     Forall (λ token, token = w ∨ plainToken (<[w := newBody]> (functions st)) token) body →
     evaluate pow showDouble stod (S (S (S depth)))
       ((":" +:+ w) :: newBody ++ [":end"; v]) false st =
     Some (onMachine (runPlain pow showDouble stod (inlined w newBody body))
             (define w newBody st))) ∧
  (∀ depth v w oldBody body newBody st,
     isFunctionName v = true → v ≠ "dump" → isFunctionName w = true → w ≠ "dump" → v ≠ w →
     Forall storable oldBody →
     Forall (plainToken (functions (define w newBody (define v body (define w oldBody st)))))
       newBody →
     Forall (λ token,
               token = w ∨
               plainToken (functions (define w newBody (define v body (define w oldBody st))))
                 token) body →
     evaluate pow showDouble stod (S (S (S depth)))
       ((":" +:+ w) :: oldBody ++ ":end" ::
        (":" +:+ v) :: body ++ ":end" ::
        (":" +:+ w) :: newBody ++ [":end"; v]) false st =
     Some (onMachine (runPlain pow showDouble stod (inlined w newBody body))
             (define w newBody (define v body (define w oldBody st))))).
Proof.
  split; [| split; [| split; [| split; [| split]]]].
  - intros depth name body st Hname Hdump Hbody. split.
    + now apply eval_definition_any.
    + intros Hstorable. rewrite eval_definition_any by assumption.
      destruct (storedTokens_storable body Hstorable) as [-> ->]. now destruct st.
  - intros depth name body1 body2 st Hname Hdump Hbody1 Hbody2. split; [| split].
    + rewrite eval_definition by assumption.
      rewrite eval_definition_any by (try assumption; now apply storable_no_end).
      destruct (storedTokens_storable body2 Hbody2) as [-> ->].
      unfold define, dumped. cbn [functions machine Nat.iter nat_rect].
      now rewrite insert_insert_eq.
    + apply lookup_insert_eq.
    + intros other Hother. now apply lookup_insert_ne.
  - intros depth w body rest isFB st. apply eval_call.
  - intros depth v w pre post newBody st Hv Hw Hdump Hvw Hbody Hstored.
    destruct (isFunctionName_not_header v Hv) as (Hvhead & Hvdump & _).
    destruct (isFunctionName_not_header w Hw) as (_ & Hwdump & _).
    change (newBody ++ [":end"; v]) with (newBody ++ ":end" :: [v]).
    rewrite eval_definition by assumption.
    assert (Hv' : functions (define w newBody st) !! v = Some (pre ++ w :: post)).
    { unfold define. cbn [functions]. now rewrite lookup_insert_ne. }
    rewrite (eval_call pow showDouble stod (S depth) v _ [] false _ Hv' Hvdump (or_intror Hvhead)).
    rewrite (andThen_ext _ _ (λ st1, Some (Done st1))) by reflexivity.
    rewrite andThen_done, eval_body_app.
    apply andThen_ext. intros st1 Hpre.
    apply eval_body_functions in Hpre.
    apply eval_call; [| exact Hwdump | now left].
    rewrite Hpre. apply lookup_insert_eq.
  - intros depth v w body newBody st. apply eval_redefined_then_called.
  - intros depth v w oldBody body newBody st Hv Hvdump Hw Hwdump Hvw Hold Hnew Hbody.
    assert (Hstorable : Forall storable body).
    { eapply Forall_impl; [exact Hbody |]. intros token [-> | Hplain].
      - now apply isFunctionName_storable.
      - exact (plainToken_storable _ _ Hplain). }
    rewrite eval_definition by assumption.
    rewrite eval_definition by assumption.
    apply eval_redefined_then_called; try assumption.
    apply lookup_insert_eq.
Qed.

(** [double] defined as [dup +], [quad] as [double double], [double]
    redefined as [dup *], and [quad] called. *)
Lemma word_calls_are_late_bound_witness :
  evaluate PrimFloat.mul (λ _, "") (λ _, None) 3
    ((":" +:+ "double") :: ["dup"; "+"] ++ ":end" ::
     (":" +:+ "quad") :: ["double"; "double"] ++ ":end" ::
     (":" +:+ "double") :: ["dup"; "*"] ++ [":end"; "quad"]) false
    (mkInterp ∅ (mkMachine [[ENum 3]] "" [])) =
  Some (onMachine
          (runPlain PrimFloat.mul (λ _, "") (λ _, None)
             (inlined "double" ["dup"; "*"] ["double"; "double"]))
          (define "double" ["dup"; "*"]
             (define "quad" ["double"; "double"]
                (define "double" ["dup"; "+"] (mkInterp ∅ (mkMachine [[ENum 3]] "" [])))))).
Proof.
  apply (proj2 (proj2 (proj2 (proj2 (proj2
           (word_calls_are_late_bound PrimFloat.mul (λ _, "") (λ _, None))))))
           0 "quad" "double" ["dup"; "+"] ["double"; "double"] ["dup"; "*"]
           (mkInterp ∅ (mkMachine [[ENum 3]] "" []))).
  - reflexivity.
  - discriminate.
  - reflexivity.
  - discriminate.
  - discriminate.
  - repeat constructor; discriminate.
  - repeat constructor; try discriminate; vm_compute; reflexivity.
  - repeat constructor; left; reflexivity.
Defined.

(** That run ends with 81 on the stack: [quad] has squared twice. *)
Example quad_after_the_redefinition :
  finalStack
    (evaluate PrimFloat.mul (λ _, "") (λ _, None) 3
       [":double"; "dup"; "+"; ":end"; ":quad"; "double"; "double"; ":end";
        ":double"; "dup"; "*"; ":end"; "quad"] false
       (mkInterp ∅ (mkMachine [[ENum 3]] "" []))) = Some [[ENum 81]].
Proof. vm_compute. reflexivity. Qed.

(** C9 as stated fails for a body that holds [:dump]: the token is not
    stored with the others but carried out while the definition is read, so
    that [:show dup :dump :end] prints the (empty) stack at once and stores
    the body [dup]. *)
Lemma dump_is_not_stored :
  evaluate PrimFloat.mul (λ _, "") (λ _, None) 1 [":show"; "dup"; ":dump"; ":end"] false
    (mkInterp ∅ (mkMachine [] "" [])) =
  Some (Done (mkInterp (<["show" := ["dup"]]> ∅)
                (mkMachine [] (("Stack:" +:+ newline) +:+ ("(empty)" +:+ newline)) []))) ∧
  ["dup"] ≠ ["dup"; ":dump"].
Proof. split; [vm_compute; reflexivity | discriminate]. Qed.

(** With 3 on the stack, [quad] leaves 12 while [double] is [dup +], and 81
    once [double] has been redefined as [dup *]: the stored body of [quad] is
    the same two tokens in both runs. *)
Example quad_follows_the_redefinition :
  finalStack (evaluate PrimFloat.mul (λ _, "") (λ _, None) 3 ["quad"] false exampleInterp)
    = Some [[ENum 12]] ∧
  finalStack (evaluate PrimFloat.mul (λ _, "") (λ _, None) 3
                [":double"; "dup"; "*"; ":end"; "quad"] false exampleInterp)
    = Some [[ENum 81]].
Proof. split; vm_compute; reflexivity. Qed.

(** * Further properties *)

(** ** dim and the inferred shape *)

Lemma getDims_is_getShape (result : Array) (e : Element) :
  ∀ arr, e = EArr arr →
  ∀ dims m, ∃ m',
    getDims_of result (EArr arr) dims m = Done (dims ++ getShape arr [], m') ∧
    (m' = m ∨ m' = afterNonUniform result m).
Proof.
  induction e as [c | d | s | a IH] using Element_nested_ind; intros arr Heq; try discriminate.
  injection Heq as <-. intros dims m.
  rewrite getDims_of_unfold, getShape_unfold.
  destruct a as [| first others]; [eexists; split; [reflexivity | now left] |].
  destruct first as [| | | sub]; try (eexists; split; [reflexivity | now left]).
  destruct (isUniformWith (length sub) others).
  - apply Forall_cons_1 in IH as [IH _].
    destruct (IH sub eq_refl (dims ++ [length (EArr sub :: others)]) m) as (m' & Hrun & Hm').
    exists m'. split; [| exact Hm']. rewrite Hrun. now rewrite <- app_assoc.
  - eexists. split; [reflexivity | now right].
Qed.

Lemma dim_run_cases (arr : Array) (rest : Stack) (out : string) (err : list string) :
  isLoneNonArray arr = false →
  ∃ m', builtin_dim (mkMachine (arr :: rest) out err) = Done (tt, m') ∧
        (m' = mkMachine (sizesAsDoubles (getShape arr []) :: rest) out err ∨
         m' = mkMachine (sizesAsDoubles (getShape arr []) :: [] :: rest) out
                (err ++ ["Error: Non-uniform array for dim"])).
Proof.
  intros Hlone. rewrite builtin_dim_run, Hlone.
  destruct (getDims_is_getShape [] (EArr arr) arr eq_refl [] (mkMachine rest out err))
    as (m1 & Hrun & Hm1).
  unfold getDims. rewrite (bind_Done _ _ _ _ _ Hrun), !app_nil_l.
  assert (Hne : isEmpty (getShape arr []) = false) by now rewrite getShape_unfold.
  rewrite Hne. simpl andb. cbv iota.
  destruct Hm1 as [-> | ->]; eexists; (split; [reflexivity |]); [now left | now right].
Qed.

(** X5: For every array but a lone non-Array element, the array [dim] leaves on
    top holds the sizes [getShape] infers, also when it reports non-uniform
    nesting; the report then comes with the empty Array pushed below. *)
Theorem dim_pushes_the_inferred_shape
    (arr : Array) (rest : Stack) (out : string) (err : list string) :
  isLoneNonArray arr = false →
  ∃ m', builtin_dim (mkMachine (arr :: rest) out err) = Done (tt, m') ∧
        (m' = mkMachine (sizesAsDoubles (getShape arr []) :: rest) out err ∨
         m' = mkMachine (sizesAsDoubles (getShape arr []) :: [] :: rest) out
                (err ++ ["Error: Non-uniform array for dim"])).
Proof. exact (dim_run_cases arr rest out err). Qed.

Lemma dim_pushes_the_inferred_shape_witness :
  ∃ m', builtin_dim
          (mkMachine ([EArr [ENum 1; ENum 2; ENum 3]; EArr [ENum 4; ENum 5; ENum 6]] :: [])
             "" []) = Done (tt, m') ∧
        (m' = mkMachine
                (sizesAsDoubles
                   (getShape [EArr [ENum 1; ENum 2; ENum 3]; EArr [ENum 4; ENum 5; ENum 6]] [])
                 :: []) "" [] ∨
         m' = mkMachine
                (sizesAsDoubles
                   (getShape [EArr [ENum 1; ENum 2; ENum 3]; EArr [ENum 4; ENum 5; ENum 6]] [])
                 :: [] :: []) ""
                ([] ++ ["Error: Non-uniform array for dim"])).
Proof.
  apply (dim_pushes_the_inferred_shape
           [EArr [ENum 1; ENum 2; ENum 3]; EArr [ENum 4; ENum 5; ENum 6]] [] "" []).
  reflexivity.
Defined.

(** ** What a built-in leaves alone *)

Lemma matmul_run_cases (a b : Array) (rest : Stack) (out : string) (err : list string) :
  ∃ m', builtin_matmul (mkMachine (b :: a :: rest) out err) = Done (tt, m') ∧
        ((∃ result, m' = mkMachine (result :: rest) out err) ∨
         (∃ line, m' = mkMachine rest out (err ++ [line]))).
Proof.
  rewrite builtin_matmul_run.
  destruct (getShape a []) as [| m [| n [| ? ?]]] eqn:Ha;
    try (eexists; split; [reflexivity | right; eexists; reflexivity]).
  destruct (getShape b []) as [| n_b [| p [| ? ?]]] eqn:Hb;
    try (eexists; split; [reflexivity | right; eexists; reflexivity]).
  destruct (decide (n ≠ n_b)) as [Hne | Heq];
    [eexists; split; [reflexivity | right; eexists; reflexivity] |].
  apply dec_stable in Heq. subst n_b.
  pose proof (matmulCheck_rows a (mkMachine rest out err)) as HcheckA.
  destruct (numericRows a) eqn:HnumA.
  - rewrite (bind_Done _ _ _ _ _ HcheckA).
    pose proof (matmulCheck_rows b (mkMachine rest out err)) as HcheckB.
    destruct (numericRows b) eqn:HnumB.
    + rewrite (bind_Done _ _ _ _ _ HcheckB).
      rewrite (bind_Done _ _ _ _ _
                 (matmulProduct_run a b m n p _ (matrix_of_shape a m n Ha HnumA)
                    (matrix_of_shape b n p Hb HnumB))).
      eexists. split; [reflexivity | left; eexists; reflexivity].
    + destruct HcheckB as (line & HcheckB). rewrite (bind_Done _ _ _ _ _ HcheckB).
      eexists. split; [reflexivity | right; eexists; reflexivity].
  - destruct HcheckA as (line & HcheckA). rewrite (bind_Done _ _ _ _ _ HcheckA).
    eexists. split; [reflexivity | right; eexists; reflexivity].
Qed.

Lemma for_each_inv {A St R : Type} (P : St → Machine → Prop) (Q : R → Machine → Prop)
    (body : A → St → M (St + R)) :
  (∀ x s m r m', P s m → body x s m = Done (r, m') →
     match r with inl s' => P s' m' | inr v => Q v m' end) →
  ∀ v s m r m', P s m → for_each v body s m = Done (r, m') →
     match r with inl s' => P s' m' | inr v => Q v m' end.
Proof.
  intros Hbody v. induction v as [| x v IH]; intros s m r m' HP Hrun.
  - simpl in Hrun. injection Hrun as <- <-. exact HP.
  - simpl in Hrun. apply bind_Done_inv in Hrun as ([s1 | w] & m1 & Hb & Hrun).
    + apply (IH s1 m1); [| exact Hrun]. exact (Hbody x s m (inl s1) m1 HP Hb).
    + injection Hrun as <- <-. exact (Hbody x s m (inr w) m1 HP Hb).
Qed.

Ltac local_effect popped pushed base lines :=
  exists popped, pushed, base, lines; simpl; rewrite ?app_nil_r;
  repeat split; try reflexivity; try lia.

Lemma applyBinaryOp_local (opName : string) (op : float → float → float) (m m' : Machine) :
  applyBinaryOp opName op m = Done (tt, m') → localEffect m m' ∧ wcout m' = wcout m.
Proof.
  destruct m as [[| b [| a rest]] out err]; intros Hrun.
  1, 2: injection Hrun as <-; split; [| reflexivity].
  - local_effect ([] : Stack) ([] : Stack) ([] : Stack)
      ["Error: Insufficient stack elements for " +:+ opName].
  - local_effect ([] : Stack) ([] : Stack) [b]
      ["Error: Insufficient stack elements for " +:+ opName].
  - rewrite applyBinaryOp_run in Hrun. destruct (broadcastShape a b) as [shape |].
    + apply bind_Done_inv in Hrun as (result & m1 & Hrec & Hpush).
      apply applyOpRecursive_effect in Hrec.
      destruct Hrec as [-> | (-> & line & _ & ->)].
      * destruct result as [| e result]; injection Hpush as <-; (split; [| reflexivity]).
        -- local_effect [b; a] ([] : Stack) rest ([] : list string).
        -- local_effect [b; a] [e :: result] rest ([] : list string).
      * injection Hpush as <-. split; [| reflexivity].
        local_effect [b; a] ([] : Stack) rest [line].
    + injection Hrun as <-. split; [| reflexivity].
      local_effect [b; a] ([] : Stack) rest
        ["Error: " +:+ opName +:+ " requires a scalar or arrays of equal shape"].
Qed.

Lemma cat_local (m m' : Machine) :
  builtin_cat m = Done (tt, m') → localEffect m m' ∧ wcout m' = wcout m.
Proof.
  destruct m as [[| b [| a rest]] out err]; intros Hrun; injection Hrun as <-;
    (split; [| reflexivity]).
  - local_effect ([] : Stack) ([] : Stack) ([] : Stack)
      ["Error: Insufficient stack elements for cat"].
  - local_effect ([] : Stack) ([] : Stack) [b] ["Error: Insufficient stack elements for cat"].
  - local_effect [b; a] [a ++ b] rest ([] : list string).
Qed.

Lemma swap_local (m m' : Machine) :
  builtin_swap m = Done (tt, m') → localEffect m m' ∧ wcout m' = wcout m.
Proof.
  destruct m as [[| b [| a rest]] out err]; intros Hrun; injection Hrun as <-;
    (split; [| reflexivity]).
  - local_effect ([] : Stack) ([] : Stack) ([] : Stack)
      ["Error: Insufficient stack elements for swap"].
  - local_effect ([] : Stack) ([] : Stack) [b] ["Error: Insufficient stack elements for swap"].
  - local_effect [b; a] [a; b] rest ([] : list string).
Qed.

Lemma dup_local (m m' : Machine) :
  builtin_dup m = Done (tt, m') → localEffect m m' ∧ wcout m' = wcout m.
Proof.
  destruct m as [[| a rest] out err]; intros Hrun; injection Hrun as <-;
    (split; [| reflexivity]).
  - local_effect ([] : Stack) ([] : Stack) ([] : Stack) ["Error: Stack empty for dup"].
  - local_effect ([] : Stack) [a] (a :: rest) ([] : list string).
Qed.

Lemma print_local (showDouble : float → string) (m m' : Machine) :
  builtin_print showDouble m = Done (tt, m') → localEffect m m'.
Proof.
  destruct m as [[| a rest] out err]; intros Hrun; injection Hrun as <-.
  - local_effect ([] : Stack) ([] : Stack) ([] : Stack) ["Error: Stack empty for ."].
  - local_effect [a] ([] : Stack) rest ([] : list string).
Qed.

Lemma range_local (m m' : Machine) :
  builtin_range m = Done (tt, m') → localEffect m m' ∧ wcout m' = wcout m.
Proof.
  destruct m as [[| t rest] out err]; intros Hrun.
  - injection Hrun as <-. split; [| reflexivity].
    local_effect ([] : Stack) ([] : Stack) ([] : Stack) ["Error: Stack empty for range"].
  - assert (Hcases :
      builtin_range (mkMachine (t :: rest) out err) =
      match t with
      | [ENum val] =>
          if PrimFloat.ltb val 0 || negb (PrimFloat.eqb (floor val) val)
          then Done (tt, mkMachine rest out
                           (err ++ ["Error: range requires a non-negative integer"]))
          else match static_cast_int val with
               | Some bound => Done (tt, mkMachine (rangeElements bound :: rest) out err)
               | None => Undefined
               end
      | _ => Done (tt, mkMachine rest out
                         (err ++ ["Error: range requires a scalar numeric argument"]))
      end).
    { destruct t as [| [| val | |] [| ? ?]]; try reflexivity.
      change (builtin_range (mkMachine ([ENum val] :: rest) out err)) with
        ((if PrimFloat.ltb val 0 || negb (PrimFloat.eqb (floor val) val)
          then wcerr_line "Error: range requires a non-negative integer"
          else bound ← defined (static_cast_int val); push (rangeElements bound))
           (mkMachine rest out err)).
      destruct (PrimFloat.ltb val 0 || negb (PrimFloat.eqb (floor val) val));
        [reflexivity |].
      destruct (static_cast_int val); reflexivity. }
    rewrite Hcases in Hrun. clear Hcases.
    destruct t as [| [| val | |] [| ? ?]];
      try (injection Hrun as <-; split; [| reflexivity];
           local_effect [t] ([] : Stack) rest
             ["Error: range requires a scalar numeric argument"]).
    all: try (injection Hrun as <-; split; [| reflexivity];
              eexists [_], ([] : Stack), rest, [_]; simpl; repeat split; reflexivity || lia).
    destruct (PrimFloat.ltb val 0 || negb (PrimFloat.eqb (floor val) val)).
    + injection Hrun as <-. split; [| reflexivity].
      local_effect [[ENum val]] ([] : Stack) rest
        ["Error: range requires a non-negative integer"].
    + destruct (static_cast_int val) as [bound |]; [| discriminate].
      injection Hrun as <-. split; [| reflexivity].
      local_effect [[ENum val]] [rangeElements bound] rest ([] : list string).
Qed.

Lemma reshapeDimStep_effect (elem : Element) (st : list Z * Z) (m : Machine) r m' :
  reshapeDimStep elem st m = Done (r, m') →
  match r with
  | inl _ => m' = m
  | inr _ => ∃ line, m' = withDiagnostic line m
  end.
Proof.
  destruct st as [dims total]. unfold reshapeDimStep.
  destruct elem as [| val | |]; try (intros [= <- <-]; eexists; reflexivity).
  destruct (PrimFloat.leb val 0 || negb (PrimFloat.eqb (floor val) val)).
  - intros [= <- <-]. eexists; reflexivity.
  - destruct (static_cast_size_t val); [| discriminate]. now intros [= <- <-].
Qed.

Lemma reshape_local (m m' : Machine) :
  builtin_reshape m = Done (tt, m') → localEffect m m' ∧ wcout m' = wcout m.
Proof.
  destruct m as [[| shape [| data rest]] out err]; intros Hrun.
  1, 2: injection Hrun as <-; split; [| reflexivity].
  - local_effect ([] : Stack) ([] : Stack) ([] : Stack)
      ["Error: Insufficient stack elements for reshape"].
  - local_effect ([] : Stack) ([] : Stack) [shape]
      ["Error: Insufficient stack elements for reshape"].
  - rewrite builtin_reshape_run in Hrun. destruct shape as [| e shape].
    + injection Hrun as <-. split; [| reflexivity].
      local_effect [([] : Array); data] ([] : Stack) rest
        ["Error: reshape requires a non-empty shape array"].
    + apply bind_Done_inv in Hrun as (r & m1 & Hloop & Hrun).
      apply (for_each_inv (λ _ m1, m1 = mkMachine rest out err)
               (λ _ m1, ∃ line, m1 = withDiagnostic line (mkMachine rest out err)))
        in Hloop; [| | reflexivity].
      * destruct r as [[dims total] | []].
        -- subst m1.
           destruct (decide (Z.of_nat (length data) ≠ total)); injection Hrun as <-;
             (split; [| reflexivity]).
           ++ local_effect [e :: shape; data] ([] : Stack) rest
                ["Error: Data size does not match shape dimensions"].
           ++ local_effect [e :: shape; data] [fst (buildArray data dims 0)] rest
                ([] : list string).
        -- destruct Hloop as (line & ->). injection Hrun as <-. split; [| reflexivity].
           local_effect [e :: shape; data] ([] : Stack) rest [line].
      * intros x s m0 r0 m0' -> Hstep. apply reshapeDimStep_effect in Hstep.
        destruct r0; [exact Hstep |]. exact Hstep.
Qed.

Lemma dim_local (m m' : Machine) :
  builtin_dim m = Done (tt, m') → localEffect m m' ∧ wcout m' = wcout m.
Proof.
  destruct m as [[| arr rest] out err]; intros Hrun.
  - injection Hrun as <-. split; [| reflexivity].
    local_effect ([] : Stack) ([] : Stack) ([] : Stack) ["Error: Stack empty for dim"].
  - destruct (isLoneNonArray arr) eqn:Hlone.
    + rewrite builtin_dim_run, Hlone in Hrun. injection Hrun as <-. split; [| reflexivity].
      local_effect [arr] [([] : Array)] rest ([] : list string).
    + destruct (dim_run_cases arr rest out err Hlone) as (m1 & Hrun1 & Hm1).
      rewrite Hrun1 in Hrun. injection Hrun as <-.
      destruct Hm1 as [-> | ->]; (split; [| reflexivity]).
      * local_effect [arr] [sizesAsDoubles (getShape arr [])] rest ([] : list string).
      * local_effect [arr] [sizesAsDoubles (getShape arr []); []] rest
          ["Error: Non-uniform array for dim"].
Qed.

Lemma matmul_local (m m' : Machine) :
  builtin_matmul m = Done (tt, m') → localEffect m m' ∧ wcout m' = wcout m.
Proof.
  destruct m as [[| b [| a rest]] out err]; intros Hrun.
  1, 2: injection Hrun as <-; split; [| reflexivity].
  - local_effect ([] : Stack) ([] : Stack) ([] : Stack)
      ["Error: Insufficient stack elements for matmul"].
  - local_effect ([] : Stack) ([] : Stack) [b]
      ["Error: Insufficient stack elements for matmul"].
  - destruct (matmul_run_cases a b rest out err) as (m1 & Hrun1 & Hm1).
    rewrite Hrun1 in Hrun. injection Hrun as <-.
    destruct Hm1 as [(result & ->) | (line & ->)]; (split; [| reflexivity]).
    + local_effect [b; a] [result] rest ([] : list string).
    + local_effect [b; a] ([] : Stack) rest [line].
Qed.

(** X6: Every built-in other than [clear] works on the top of the stack only: it
    replaces at most two arrays by at most two and leaves everything below
    them as it was; it adds at most one diagnostic line; and none but [.]
    writes to the output. *)
Theorem builtins_leave_the_rest_of_the_stack
    (pow : float → float → float) (showDouble : float → string)
    (name : string) (builtin : M unit) (m m' : Machine) :
  builtIns pow showDouble name = Some builtin →
  name ≠ "clear" →
  builtin m = Done (tt, m') →
  localEffect m m' ∧ (name ≠ "." → wcout m' = wcout m).
Proof.
  intros Hname Hclear Hrun. unfold builtIns in Hname.
  repeat match type of Hname with
         | (if String.eqb name ?s then _ else _) = _ =>
             destruct (String.eqb_spec name s) as [-> | _];
             [injection Hname as <- |]
         end; try discriminate.
  - destruct (applyBinaryOp_local _ _ _ _ Hrun); auto.
  - destruct (applyBinaryOp_local _ _ _ _ Hrun); auto.
  - destruct (applyBinaryOp_local _ _ _ _ Hrun); auto.
  - destruct (applyBinaryOp_local _ _ _ _ Hrun); auto.
  - destruct (applyBinaryOp_local _ _ _ _ Hrun); auto.
  - destruct (cat_local _ _ Hrun); auto.
  - split; [exact (print_local _ _ _ Hrun) | contradiction].
  - contradiction.
  - destruct (swap_local _ _ Hrun); auto.
  - destruct (dup_local _ _ Hrun); auto.
  - destruct (range_local _ _ Hrun); auto.
  - destruct (reshape_local _ _ Hrun); auto.
  - destruct (dim_local _ _ Hrun); auto.
  - destruct (matmul_local _ _ Hrun); auto.
Qed.

Lemma builtins_leave_the_rest_of_the_stack_witness :
  localEffect (mkMachine [[ENum 2]; [ENum 1]; [ENum 0]] "" [])
              (mkMachine [[ENum 1]; [ENum 2]; [ENum 0]] "" []) ∧
  ("swap" ≠ "." → wcout (mkMachine [[ENum 1]; [ENum 2]; [ENum 0]] "" []) = "").
Proof.
  apply (builtins_leave_the_rest_of_the_stack PrimFloat.mul (λ _, "") "swap" builtin_swap).
  - reflexivity.
  - discriminate.
  - reflexivity.
Defined.

(** X7: [cat], [.], [clear], [swap], [dup], [dim] and [matmul] return on every
    machine: whatever is on the stack, none of them throws or runs into
    undefined behaviour. *)
Theorem stack_words_always_return
    (pow : float → float → float) (showDouble : float → string)
    (name : string) (m : Machine) :
  In name alwaysReturning →
  ∃ builtin, builtIns pow showDouble name = Some builtin ∧ ∃ m', builtin m = Done (tt, m').
Proof.
  intros Hin. unfold alwaysReturning in Hin. simpl in Hin.
  destruct m as [s out err].
  repeat (destruct Hin as [<- | Hin]; [eexists; split; [reflexivity |] |]);
    try contradiction.
  - destruct s as [| b [| a rest]]; eexists; reflexivity.
  - destruct s as [| a rest]; eexists; reflexivity.
  - eexists; reflexivity.
  - destruct s as [| b [| a rest]]; eexists; reflexivity.
  - destruct s as [| a rest]; eexists; reflexivity.
  - destruct s as [| arr rest]; [eexists; reflexivity |].
    destruct (isLoneNonArray arr) eqn:Hlone.
    + rewrite builtin_dim_run, Hlone. eexists; reflexivity.
    + destruct (dim_run_cases arr rest out err Hlone) as (m1 & Hrun & _). eauto.
  - destruct s as [| b [| a rest]]; try (eexists; reflexivity).
    destruct (matmul_run_cases a b rest out err) as (m1 & Hrun & _). eauto.
Qed.

Lemma stack_words_always_return_witness :
  ∃ builtin, builtIns PrimFloat.mul (λ _, "") "matmul" = Some builtin ∧
    ∃ m', builtin (mkMachine [[EArr [ENum 1]; ENum 2]; [EArr []]] "" []) = Done (tt, m').
Proof.
  apply (stack_words_always_return PrimFloat.mul (λ _, "") "matmul").
  unfold alwaysReturning. simpl. do 6 right. left. reflexivity.
Defined.

(** ** Words that undo one another *)

(** X8: [swap swap] changes nothing when the stack holds two arrays or more. *)
Theorem swap_twice_is_identity (m : Machine) :
  2 ≤ length (stack m) → (builtin_swap;; builtin_swap) m = Done (tt, m).
Proof.
  destruct m as [[| b [| a rest]] out err]; simpl; intros Hlen; try lia. reflexivity.
Qed.

Lemma swap_twice_is_identity_witness :
  (builtin_swap;; builtin_swap) (mkMachine [[ENum 1]; [ENum 2]] "" []) =
  Done (tt, mkMachine [[ENum 1]; [ENum 2]] "" []).
Proof. apply (swap_twice_is_identity (mkMachine [[ENum 1]; [ENum 2]] "" [])). simpl. lia. Defined.

(** [cat] is associative, and the empty Array is its unit on either side:
    [a b cat c cat] and [a b c cat cat] leave the same array, and
    concatenating the empty Array below or above an array leaves that array. *)
Lemma cat_is_associative_with_unit (a b c : Array) (m : Machine) :
  (push a;; push b;; builtin_cat;; push c;; builtin_cat) m =
    (push a;; push b;; push c;; builtin_cat;; builtin_cat) m ∧
  (push a;; push b;; push c;; builtin_cat;; builtin_cat) m =
    Done (tt, mkMachine ((a ++ b ++ c) :: stack m) (wcout m) (wcerr m)) ∧
  (push a;; push [];; builtin_cat) m = push a m ∧
  (push [];; push a;; builtin_cat) m = push a m.
Proof.
  assert (Hcat : ∀ x y s out err,
            builtin_cat (mkMachine (y :: x :: s) out err) =
            Done (tt, mkMachine ((x ++ y) :: s) out err)) by reflexivity.
  destruct m as [s out err]. unfold push, mbind, M_bind. simpl.
  rewrite !Hcat, app_assoc, app_nil_r. repeat split; reflexivity.
Qed.

(** X9: Reshaping an array that is not empty to the one dimension that is its
    own length gives the array back.  The empty Array has no such shape: the
    dimension 0 is refused as not positive. *)
Theorem reshape_to_own_length_is_identity
    (e : Element) (data : Array) (rest : Stack) (out : string) (err : list string) :
  (isDimension e (Z.of_nat (length data)) →
   data ≠ [] ∧
   builtin_reshape (mkMachine ([e] :: data :: rest) out err) =
   Done (tt, mkMachine (data :: rest) out err)) ∧
  builtin_reshape (mkMachine ([ENum 0] :: [] :: rest) out err) =
  Done (tt, mkMachine rest out
              (err ++ ["Error: reshape dimensions must be positive integers"])).
Proof.
  split; [| reflexivity]. intros Hdim.
  destruct (isDimension_range e _ Hdim) as [[Hpos Hlt] _].
  split; [intros ->; simpl in Hpos; lia |].
  rewrite (reshape_pushes_row_major [e] data [Z.of_nat (length data)] rest out err).
  - simpl rowMajor. now rewrite Nat2Z.id, firstn_all.
  - discriminate.
  - repeat constructor. exact Hdim.
  - simpl. lia.
  - simpl. lia.
Qed.

Lemma reshape_to_own_length_is_identity_witness :
  builtin_reshape (mkMachine ([ENum 3] :: [ENum 7; EChar "a"; EArr []] :: []) "" []) =
  Done (tt, mkMachine ([ENum 7; EChar "a"; EArr []] :: []) "" []).
Proof.
  refine (proj2 (proj1 (reshape_to_own_length_is_identity (ENum 3)
                          [ENum 7; EChar "a"; EArr []] [] "" []) _)).
  exists 3%float. repeat split; vm_compute; reflexivity.
Defined.

Lemma range_run (n : Z) (rest : Stack) (out : string) (err : list string) :
  (0 ≤ n ≤ INT_MAX)%Z →
  builtin_range (mkMachine ([ENum (Z2double n)] :: rest) out err) =
  Done (tt, mkMachine (rangeElements n :: rest) out err).
Proof.
  intros [Hn0 Hn].
  change (builtin_range (mkMachine ([ENum (Z2double n)] :: rest) out err)) with
    ((if PrimFloat.ltb (Z2double n) 0 || negb (PrimFloat.eqb (floor (Z2double n)) (Z2double n))
      then wcerr_line "Error: range requires a non-negative integer"
      else bound ← defined (static_cast_int (Z2double n)); push (rangeElements bound))
       (mkMachine rest out err)).
  destruct (Z2double_small_integer n) as (Hlt & Hint & Htrunc).
  { unfold INT_MAX in Hn. lia. }
  rewrite Hlt, Hint. simpl orb. cbv iota.
  unfold static_cast_int. rewrite Htrunc.
  destruct (decide (INT_MIN ≤ n ≤ INT_MAX)%Z) as [_ | Hout];
    [reflexivity | unfold INT_MIN in Hout; lia].
Qed.

(** X10: [range dim] gives back its argument: for a non-negative integer [n]
    other than 1 (and within [int]), the sizes of the array [range] builds
    are the single Number [n].  For 1 the built array is a lone Number, of
    which [dim] gives the empty Array. *)
Theorem dim_of_range_is_the_bound
    (n : Z) (rest : Stack) (out : string) (err : list string) :
  (0 ≤ n ≤ INT_MAX)%Z →
  (builtin_range;; builtin_dim) (mkMachine ([ENum (Z2double n)] :: rest) out err) =
  Done (tt, mkMachine ((if decide (n = 1%Z) then [] else [ENum (Z2double n)]) :: rest) out err).
Proof.
  intros Hn. rewrite (bind_Done _ _ _ _ _ (range_run n rest out err Hn)).
  rewrite builtin_dim_run. unfold rangeElements.
  destruct (Z.to_nat n) as [| [| k]] eqn:Hk.
  - assert (n = 0%Z) as -> by lia. reflexivity.
  - assert (n = 1%Z) as -> by lia. reflexivity.
  - destruct (decide (n = 1%Z)) as [-> | _]; [discriminate Hk |].
    change (isLoneNonArray _) with false. cbv iota.
    set (arr := map (λ i : nat, ENum (Z2double (Z.of_nat i))) (seq 0 (S (S k)))).
    assert (Hdims : getDims [] arr [] (mkMachine rest out err) =
                    Done ([Z.to_nat n], mkMachine rest out err)).
    { unfold getDims. rewrite getDims_of_unfold. subst arr.
      simpl. now rewrite length_map, length_seq, Hk. }
    rewrite (bind_Done _ _ _ _ _ Hdims). simpl. now rewrite Z2Nat.id by lia.
Qed.

Lemma dim_of_range_is_the_bound_witness :
  (builtin_range;; builtin_dim) (mkMachine ([ENum (Z2double 4)] :: []) "" []) =
  Done (tt, mkMachine ((if decide (4 = 1)%Z then [] else [ENum (Z2double 4)]) :: []) "" []).
Proof. apply (dim_of_range_is_the_bound 4 [] "" []). unfold INT_MAX. lia. Defined.

(** ** Shapes of results *)

Lemma getShape_rowMajor (dims : list nat) (data : Array) :
  dims ≠ [] → Forall (λ d, 1 ≤ d) dims →
  productNat dims ≤ length data →
  Forall (λ e, holdsArray e = false) data →
  getShape (rowMajor dims data) [] = dims.
Proof.
  intros Hne Hpos Hlen Hflat.
  pose proof (getDims_rowMajor dims Hne Hpos data [] (mkMachine [] "" []) Hlen Hflat) as Hdims.
  destruct (getDims_is_getShape [] (EArr (rowMajor dims data)) _ eq_refl []
              (mkMachine [] "" [])) as (m' & Hshape & _).
  rewrite Hdims in Hshape. injection Hshape as Heq _. exact (eq_sym Heq).
Qed.

(** X11: The array [reshape] builds from data without Arrays among its elements
    has the requested shape as its inferred shape, so that it can be an
    operand of the element-wise operations with any array of that shape. *)
Theorem reshaped_array_has_the_requested_shape
    (shape data : Array) (dims : list Z) (rest : Stack) (out : string) (err : list string) :
  shape ≠ [] → Forall2 isDimension shape dims → (product dims < SIZE_MODULUS)%Z →
  Z.of_nat (length data) = product dims →
  Forall (λ e, holdsArray e = false) data →
  ∃ result,
    builtin_reshape (mkMachine (shape :: data :: rest) out err) =
      Done (tt, mkMachine (result :: rest) out err) ∧
    getShape result [] = map Z.to_nat dims.
Proof.
  intros Hne Hdims Hfit Hlen Hflat. exists (rowMajor (map Z.to_nat dims) data).
  split; [now apply reshape_pushes_row_major |].
  destruct (dimensions_as_doubles shape dims Hdims) as [_ Hpos].
  apply getShape_rowMajor; try assumption.
  - destruct Hdims; [contradiction | discriminate].
  - rewrite (productNat_to_nat shape dims Hdims). lia.
Qed.

Lemma reshaped_array_has_the_requested_shape_witness :
  ∃ result,
    builtin_reshape
      (mkMachine ([ENum 2; ENum 3] :: [ENum 1; ENum 2; ENum 3; ENum 4; ENum 5; ENum 6] :: [])
         "" []) = Done (tt, mkMachine (result :: []) "" []) ∧
    getShape result [] = map Z.to_nat [2; 3]%Z.
Proof.
  apply (reshaped_array_has_the_requested_shape [ENum 2; ENum 3]
           [ENum 1; ENum 2; ENum 3; ENum 4; ENum 5; ENum 6] [2; 3]%Z [] "" []).
  - discriminate.
  - repeat constructor; eexists; repeat split; vm_compute; reflexivity.
  - reflexivity.
  - reflexivity.
  - repeat constructor.
Defined.

Lemma getShape_rows (row : nat → Array) (m p : nat) :
  1 ≤ m → (∀ i, length (row i) = p ∧ getShape (row i) [] = [p]) →
  getShape (map (λ i, EArr (row i)) (seq 0 m)) [] = [m; p].
Proof.
  intros Hm Hrow. destruct m as [| m]; [lia |].
  change (map (λ i, EArr (row i)) (seq 0 (S m)))
    with (EArr (row 0) :: map (λ i, EArr (row i)) (seq 1 m)).
  rewrite getShape_unfold.
  assert (Huniform : isUniformWith (length (row 0)) (map (λ i, EArr (row i)) (seq 1 m))
                     = true).
  { apply forallb_forall. intros e He. apply in_map_iff in He as (i & <- & _).
    apply Nat.eqb_eq. now rewrite (proj1 (Hrow i)), (proj1 (Hrow 0)). }
  rewrite Huniform, (proj2 (Hrow 0)). simpl length. now rewrite length_map, length_seq.
Qed.

Lemma getShape_matrixProduct (a b : Array) (m n p : nat) :
  1 ≤ m →
  getShape (matrixProduct a b m n p) [] = [m; p] ∧ numericRows (matrixProduct a b m n p) = true.
Proof.
  intros Hm. unfold matrixProduct. split.
  - apply (getShape_rows (λ i, map (λ j, ENum (dotProduct a b n i j)) (seq 0 p)) m p Hm).
    intros i. rewrite getShape_unfold, length_map, length_seq. split; [reflexivity |].
    now destruct p.
  - apply forallb_forall. intros e He. apply in_map_iff in He as (i & <- & _).
    apply forallb_forall. intros x Hx. apply in_map_iff in Hx as (j & <- & _). reflexivity.
Qed.

(** X12: The product [matmul] pushes is a matrix again: for operands of shapes
    [m x n] and [n x p] with numeric rows, the result has the inferred shape
    [m x p] and numeric rows, so that it can be an operand of [matmul]. *)
Theorem matmul_result_is_a_matrix
    (a b : Array) (m n p : nat) (rest : Stack) (out : string) (err : list string) :
  getShape a [] = [m; n] → getShape b [] = [n; p] →
  numericRows a = true → numericRows b = true →
  ∃ result,
    builtin_matmul (mkMachine (b :: a :: rest) out err) =
      Done (tt, mkMachine (result :: rest) out err) ∧
    getShape result [] = [m; p] ∧ numericRows result = true.
Proof.
  intros Ha Hb HnumA HnumB. exists (matrixProduct a b m n p).
  assert (Hm : 1 ≤ m).
  { rewrite getShape_unfold in Ha. destruct a as [| e a]; [discriminate |].
    injection Ha as <- _. simpl. lia. }
  split; [| now apply getShape_matrixProduct].
  rewrite builtin_matmul_run, Ha, Hb.
  destruct (decide (n ≠ n)) as [Hne | _]; [contradiction |].
  pose proof (matmulCheck_rows a (mkMachine rest out err)) as HcheckA. rewrite HnumA in HcheckA.
  pose proof (matmulCheck_rows b (mkMachine rest out err)) as HcheckB. rewrite HnumB in HcheckB.
  rewrite (bind_Done _ _ _ _ _ HcheckA), (bind_Done _ _ _ _ _ HcheckB).
  now rewrite (bind_Done _ _ _ _ _
                 (matmulProduct_run a b m n p _ (matrix_of_shape a m n Ha HnumA)
                    (matrix_of_shape b n p Hb HnumB))).
Qed.

Lemma matmul_result_is_a_matrix_witness :
  ∃ result,
    builtin_matmul
      (mkMachine ([EArr [ENum 3]; EArr [ENum 4]] :: [EArr [ENum 1; ENum 2]] :: []) "" []) =
      Done (tt, mkMachine (result :: []) "" []) ∧
    getShape result [] = [1; 1] ∧ numericRows result = true.
Proof.
  apply (matmul_result_is_a_matrix [EArr [ENum 1; ENum 2]] [EArr [ENum 3]; EArr [ENum 4]]
           1 2 1 [] "" []); reflexivity.
Defined.

(** ** The tokenizer *)

Lemma list_ascii_of_string_app (s1 s2 : string) :
  list_ascii_of_string (s1 +:+ s2) = list_ascii_of_string s1 ++ list_ascii_of_string s2.
Proof. induction s1 as [| c s1 IH]; [reflexivity |]. simpl. now rewrite IH. Qed.

Lemma string_of_list_ascii_app (l1 l2 : list ascii) :
  string_of_list_ascii (l1 ++ l2) = string_of_list_ascii l1 +:+ string_of_list_ascii l2.
Proof. induction l1 as [| c l1 IH]; [reflexivity |]. simpl. now rewrite IH. Qed.

Section TokenizerFacts.

Variable iswspace : ascii → bool.

Abbreviation step := (tokenizeStep iswspace).
Abbreviation loop := (tokenizeLoop iswspace).

Lemma pushCurrent_nonempty (tokens : list string) (current : list ascii) :
  current ≠ [] → pushCurrent tokens current = tokens ++ [string_of_list_ascii current].
Proof. now destruct current. Qed.

Lemma pushCurrent_app (before tokens : list string) (current : list ascii) :
  pushCurrent (before ++ tokens) current = before ++ pushCurrent tokens current.
Proof. destruct current; simpl; [reflexivity | now rewrite app_assoc]. Qed.

Lemma step_withTokens before prev c s :
  step prev c (withTokens before s) = withTokens before (step prev c s).
Proof.
  unfold tokenizeStep, withTokens. simpl.
  repeat match goal with
         | |- context [if ?b then _ else _] => destruct b
         end; simpl; rewrite ?pushCurrent_app, ?app_assoc; reflexivity.
Qed.

Lemma loop_withTokens before chars : ∀ prev s,
  loop prev chars (withTokens before s) = withTokens before (loop prev chars s).
Proof.
  induction chars as [| c chars IH]; intros prev s; [reflexivity |].
  simpl. now rewrite step_withTokens, IH.
Qed.

(** Only whether the previous character is a backslash matters. *)
Lemma step_prev prev1 prev2 c s :
  escaped prev1 = escaped prev2 → step prev1 c s = step prev2 c s.
Proof. intros H. unfold tokenizeStep. now rewrite H. Qed.

Lemma loop_prev prev1 prev2 chars s :
  escaped prev1 = escaped prev2 → loop prev1 chars s = loop prev2 chars s.
Proof.
  intros H. destruct chars as [| c chars]; [reflexivity |].
  simpl. now rewrite (step_prev prev1 prev2 c s H).
Qed.

Lemma loop_app chars1 : ∀ chars2 prev s,
  loop prev (chars1 ++ chars2) s = loop (prevAfter prev chars1) chars2 (loop prev chars1 s).
Proof.
  induction chars1 as [| c chars1 IH]; intros chars2 prev s; [reflexivity |].
  simpl. now rewrite IH.
Qed.


Lemma plain_inv c :
  plain c = true →
  Ascii.eqb c quoteChar = false ∧ Ascii.eqb c "["%char = false ∧ Ascii.eqb c "]"%char = false.
Proof.
  unfold plain. intros H. apply andb_prop in H as [H H3]. apply andb_prop in H as [H1 H2].
  apply negb_true_iff in H1, H2, H3. auto.
Qed.

(** A plain character outside quotes and at depth zero is added to the
    current token, unless it is white space. *)
Lemma step_wordChar prev c tokens current :
  plain c = true → iswspace c = false →
  step prev c (mkScan tokens current 0 false) = mkScan tokens (current ++ [c]) 0 false.
Proof.
  intros Hplain Hws. destruct (plain_inv c Hplain) as (Hq & Ho & Hc).
  unfold tokenizeStep. simpl. now rewrite Hq, Ho, Hc, Hws.
Qed.

Lemma step_separator prev sp tokens current :
  isSeparator iswspace sp = true →
  step prev sp (mkScan tokens current 0 false) = mkScan (pushCurrent tokens current) [] 0 false.
Proof.
  unfold isSeparator. intros H. apply andb_prop in H as [H _]. apply andb_prop in H as [Hws Hplain].
  destruct (plain_inv sp Hplain) as (Hq & Ho & Hc).
  unfold tokenizeStep. simpl. now rewrite Hq, Ho, Hc, Hws.
Qed.

Lemma loop_word w : ∀ prev tokens current,
  forallb (λ c, plain c && negb (iswspace c)) w = true →
  loop prev w (mkScan tokens current 0 false) = mkScan tokens (current ++ w) 0 false.
Proof.
  induction w as [| c w IH]; intros prev tokens current Hw; simpl.
  - now rewrite app_nil_r.
  - apply andb_prop in Hw as [Hc Hw]. apply andb_prop in Hc as [Hplain Hws].
    rewrite step_wordChar by (assumption || now apply negb_true_iff).
    rewrite IH by assumption. now rewrite <- app_assoc.
Qed.

(** Inside brackets, everything up to the bracket that closes the group is
    added to the current token, which is cut there. *)
Lemma loop_closes l : ∀ d prev tokens current,
  closes (S d) l = true →
  loop prev l (mkScan tokens current (Z.of_nat (S d)) false) =
  mkScan (tokens ++ [string_of_list_ascii (current ++ l)]) [] 0 false.
Proof.
  induction l as [| c l IH]; intros d prev tokens current Hl; [discriminate |].
  simpl in Hl. simpl loop. unfold tokenizeStep at 1. cbn [scanCurrent scanTokens bracketDepth inQuotes].
  destruct (Ascii.eqb c quoteChar) eqn:Hq; [discriminate |]. simpl andb. cbv iota.
  destruct (Ascii.eqb c "["%char) eqn:Ho.
  - replace (Z.of_nat (S d) + 1)%Z with (Z.of_nat (S (S d))) by lia.
    rewrite (IH (S d)) by assumption. now rewrite <- app_assoc.
  - destruct (Ascii.eqb c "]"%char) eqn:Hc.
    + destruct d as [| d].
      * destruct l; [| discriminate]. simpl.
        destruct (current ++ [c]) eqn:Hcur; [now destruct current |]. reflexivity.
      * replace (Z.of_nat (S (S d)) - 1 =? 0)%Z with false by (symmetry; apply Z.eqb_neq; lia).
        simpl andb. cbv iota.
        replace (Z.of_nat (S (S d)) - 1)%Z with (Z.of_nat (S d)) by lia.
        rewrite (IH d) by assumption. now rewrite <- app_assoc.
    + replace (Z.of_nat (S d) =? 0)%Z with false by (symmetry; apply Z.eqb_neq; lia).
      rewrite andb_false_r. simpl andb. cbv iota.
      rewrite (IH d) by assumption. now rewrite <- app_assoc.
Qed.

(** Inside quotes, everything up to the closing quote is added to the
    current token. *)
Lemma loop_closesQuote l : ∀ p tokens current depth,
  closesQuote p l = true →
  loop (Some p) l (mkScan tokens current depth true) = mkScan tokens (current ++ l) depth false.
Proof.
  induction l as [| c l IH]; intros p tokens current depth Hl; [discriminate |].
  simpl in Hl. simpl loop. unfold tokenizeStep at 1. simpl escaped.
  cbn [scanCurrent scanTokens bracketDepth inQuotes].
  destruct (Ascii.eqb c quoteChar && negb (Ascii.eqb p backslashChar)).
  - destruct l; [reflexivity | discriminate].
  - rewrite IH by assumption. now rewrite <- app_assoc.
Qed.

(** An item read from an empty current token at depth zero: a group is cut
    at once, a word or a quoted string stays the current token. *)
Lemma loop_item (item : list ascii) prev tokens :
  escaped prev = false →
  isWord iswspace item || isGroup item || isQuoted item = true →
  loop prev item (mkScan tokens [] 0 false) = mkScan tokens item 0 false ∨
  loop prev item (mkScan tokens [] 0 false) =
    mkScan (tokens ++ [string_of_list_ascii item]) [] 0 false.
Proof.
  intros Hprev Hitem.
  apply orb_prop in Hitem as [Hitem | Hquoted]; [apply orb_prop in Hitem as [Hword | Hgroup] |].
  - unfold isWord in Hword. apply andb_prop in Hword as [_ Hword].
    left. now rewrite loop_word.
  - destruct item as [| c l]; [discriminate |]. simpl in Hgroup.
    apply andb_prop in Hgroup as [Hc Hl]. apply Ascii.eqb_eq in Hc as ->.
    right. simpl loop.
    change (step prev "["%char (mkScan tokens [] 0 false)) with
      (mkScan tokens ["["%char] (Z.of_nat 1) false).
    now rewrite (loop_closes l 0 _ _ _ Hl).
  - destruct item as [| c l]; [discriminate |]. simpl in Hquoted.
    apply andb_prop in Hquoted as [Hc Hl]. apply Ascii.eqb_eq in Hc as ->.
    left. simpl loop.
    assert (Hopen : step prev quoteChar (mkScan tokens [] 0 false) =
                    mkScan tokens [quoteChar] 0 true).
    { unfold tokenizeStep. now rewrite Hprev. }
    rewrite Hopen. now rewrite (loop_closesQuote l _ tokens [quoteChar] 0%Z Hl).
Qed.

Lemma item_not_empty (item : list ascii) :
  isWord iswspace item || isGroup item || isQuoted item = true → item ≠ [].
Proof. now destruct item. Qed.

(** After an item and a separator, the item is cut and the scanner is back
    in its initial state. *)
Lemma loop_item_separator (item : list ascii) (sp : ascii) prev tokens :
  escaped prev = false →
  isWord iswspace item || isGroup item || isQuoted item = true →
  isSeparator iswspace sp = true →
  loop prev (item ++ [sp]) (mkScan tokens [] 0 false) =
  mkScan (tokens ++ [string_of_list_ascii item]) [] 0 false.
Proof.
  intros Hprev Hitem Hsp. rewrite loop_app. simpl.
  destruct (loop_item item prev tokens Hprev Hitem) as [-> | ->];
    rewrite (step_separator _ sp _ _ Hsp); [| reflexivity].
  pose proof (item_not_empty item Hitem). now destruct item.
Qed.

(** At the end of the input, the item is the last token. *)
Lemma loop_item_end (item : list ascii) prev tokens :
  escaped prev = false →
  isWord iswspace item || isGroup item || isQuoted item = true →
  let s := loop prev item (mkScan tokens [] 0 false) in
  pushCurrent (scanTokens s) (scanCurrent s) = tokens ++ [string_of_list_ascii item].
Proof.
  intros Hprev Hitem. simpl.
  destruct (loop_item item prev tokens Hprev Hitem) as [-> | ->]; simpl; [| reflexivity].
  pose proof (item_not_empty item Hitem). now destruct item.
Qed.

Lemma separator_not_escape (sp : ascii) :
  isSeparator iswspace sp = true → escaped (Some sp) = false.
Proof.
  unfold isSeparator. intros H. apply andb_prop in H as [_ H]. now apply negb_true_iff in H.
Qed.

Lemma tokenize_unfold (input : string) :
  tokenize iswspace input =
  let s := loop None (list_ascii_of_string input) (mkScan [] [] 0 false) in
  pushCurrent (scanTokens s) (scanCurrent s).
Proof. reflexivity. Qed.

(** The scanner run on from a state that holds [before] and nothing else. *)
Lemma loop_from_tokens (before : list string) (prev : option ascii) (chars : list ascii) :
  escaped prev = false →
  loop prev chars (mkScan before [] 0 false) =
  withTokens before (loop None chars (mkScan [] [] 0 false)).
Proof.
  intros Hprev. rewrite <- loop_withTokens. unfold withTokens. simpl. rewrite app_nil_r.
  now apply loop_prev.
Qed.

Lemma tokenize_item_then (item : string) (sp : ascii) (rest : string) :
  isItem iswspace item = true → isSeparator iswspace sp = true →
  tokenize iswspace (item +:+ String sp rest) = item :: tokenize iswspace rest.
Proof.
  intros Hitem Hsp. rewrite !tokenize_unfold. cbv zeta.
  rewrite list_ascii_of_string_app. simpl list_ascii_of_string.
  change (?l ++ sp :: ?r) with (l ++ [sp] ++ r). rewrite app_assoc, loop_app.
  rewrite (loop_item_separator _ sp None [] eq_refl Hitem Hsp).
  rewrite string_of_list_ascii_of_string. simpl app.
  rewrite loop_from_tokens.
  - unfold withTokens. cbn [scanTokens scanCurrent]. exact (pushCurrent_app [item] _ _).
  - unfold prevAfter. rewrite fold_left_app. simpl. now apply separator_not_escape.
Qed.

Lemma tokenize_separator_first (sp : ascii) (rest : string) :
  isSeparator iswspace sp = true →
  tokenize iswspace (String sp rest) = tokenize iswspace rest.
Proof.
  intros Hsp. rewrite !tokenize_unfold. cbv zeta. simpl list_ascii_of_string. simpl loop.
  rewrite (step_separator _ sp _ _ Hsp). simpl pushCurrent.
  rewrite (loop_prev (Some sp) None); [reflexivity | now apply separator_not_escape].
Qed.

Lemma tokenize_item_alone (item : string) :
  isItem iswspace item = true → tokenize iswspace item = [item].
Proof.
  intros Hitem. rewrite tokenize_unfold.
  etransitivity; [exact (loop_item_end _ None [] eq_refl Hitem) |].
  simpl. now rewrite string_of_list_ascii_of_string.
Qed.

(** Off depth zero and outside quotes, plain characters are added to the
    current token whatever they are. *)
Lemma loop_off_level chars : ∀ prev tokens current depth,
  depth ≠ 0%Z → forallb plain chars = true →
  loop prev chars (mkScan tokens current depth false) =
  mkScan tokens (current ++ chars) depth false.
Proof.
  induction chars as [| c chars IH]; intros prev tokens current depth Hdepth Hplain; simpl.
  - now rewrite app_nil_r.
  - apply andb_prop in Hplain as [Hc Hplain]. destruct (plain_inv c Hc) as (Hq & Ho & Hcl).
    assert (Hstep : step prev c (mkScan tokens current depth false) =
                    mkScan tokens (current ++ [c]) depth false).
    { unfold tokenizeStep. simpl. rewrite Hq, Ho, Hcl. simpl.
      apply Z.eqb_neq in Hdepth. now rewrite Hdepth, andb_false_r. }
    rewrite Hstep, IH by assumption. now rewrite <- app_assoc.
Qed.

(** Every token that has been cut holds a character. *)
Lemma step_tokens_not_empty prev c s :
  Forall (λ t, t ≠ "") (scanTokens s) → Forall (λ t, t ≠ "") (scanTokens (step prev c s)).
Proof.
  intros Hs. unfold tokenizeStep.
  assert (Hpush : ∀ current, Forall (λ t, t ≠ "") (pushCurrent (scanTokens s) current)).
  { intros [| a current]; [exact Hs |]. apply Forall_app. split; [exact Hs |].
    now repeat constructor. }
  repeat match goal with
         | |- context [if ?b then _ else _] => destruct b
         end; simpl; try exact Hs; try apply Hpush.
  destruct (scanCurrent s ++ [c]) eqn:Hcur; [now destruct (scanCurrent s) |].
  apply Forall_app. split; [exact Hs |]. now repeat constructor.
Qed.

Lemma loop_tokens_not_empty chars : ∀ prev s,
  Forall (λ t, t ≠ "") (scanTokens s) → Forall (λ t, t ≠ "") (scanTokens (loop prev chars s)).
Proof.
  induction chars as [| c chars IH]; intros prev s Hs; [exact Hs |].
  simpl. apply IH. now apply step_tokens_not_empty.
Qed.

End TokenizerFacts.

(** X13: A line of words, bracketed groups and quoted strings, separated by single
    white-space characters, is cut into exactly these items. *)
Theorem tokenize_cuts_at_separators
    (iswspace : ascii → bool) (sp : ascii) (items : list string) :
  isSeparator iswspace sp = true →
  Forall (λ item, isItem iswspace item = true) items →
  tokenize iswspace (String.concat (String sp "") items) = items.
Proof.
  intros Hsp Hitems. induction Hitems as [| item items Hitem Hitems IH]; [reflexivity |].
  destruct items as [| item2 items].
  - simpl. now apply tokenize_item_alone.
  - change (String.concat (String sp "") (item :: item2 :: items)) with
      (item +:+ String sp (String.concat (String sp "") (item2 :: items))).
    rewrite tokenize_item_then by assumption. now rewrite IH.
Qed.

Lemma tokenize_cuts_at_separators_witness :
  tokenize isspaceC
    (String.concat (String " "%char "")
       ["12"; "[1, [2 3]]"; quote +:+ "a b" +:+ quote; "swap"; "+"]) =
  ["12"; "[1, [2 3]]"; quote +:+ "a b" +:+ quote; "swap"; "+"].
Proof.
  apply (tokenize_cuts_at_separators isspaceC " "%char
           ["12"; "[1, [2 3]]"; quote +:+ "a b" +:+ quote; "swap"; "+"]).
  - reflexivity.
  - repeat constructor.
Defined.


(** X14: White space at depth zero only separates: a separator at the start of
    the line is skipped, and an item followed by a separator is cut off
    whatever follows, the rest being cut as a line of its own. *)
Theorem tokenize_restarts_after_a_separator
    (iswspace : ascii → bool) (sp : ascii) (item rest : string) :
  isSeparator iswspace sp = true →
  isItem iswspace item = true →
  tokenize iswspace (String sp rest) = tokenize iswspace rest ∧
  tokenize iswspace (item +:+ String sp rest) = item :: tokenize iswspace rest.
Proof.
  intros Hsp Hitem. split.
  - now apply tokenize_separator_first.
  - now apply tokenize_item_then.
Qed.

Lemma tokenize_restarts_after_a_separator_witness :
  tokenize isspaceC (String " "%char "] x [") = tokenize isspaceC "] x [" ∧
  tokenize isspaceC ("[1 2]" +:+ String " "%char "] x [") =
    "[1 2]" :: tokenize isspaceC "] x [".
Proof.
  apply (tokenize_restarts_after_a_separator isspaceC " "%char "[1 2]" "] x [");
    reflexivity.
Defined.


(** X15: No token is empty. *)
Theorem tokenize_yields_no_empty_token (iswspace : ascii → bool) (input : string) :
  Forall (λ token, token ≠ "") (tokenize iswspace input).
Proof.
  rewrite tokenize_unfold. cbv zeta.
  set (s := tokenizeLoop iswspace None (list_ascii_of_string input) (mkScan [] [] 0 false)).
  assert (Hs : Forall (λ t, t ≠ "") (scanTokens s)).
  { apply loop_tokens_not_empty. constructor. }
  destruct (scanCurrent s) as [| a current]; [exact Hs |].
  simpl. apply Forall_app. split; [exact Hs |]. now repeat constructor.
Qed.

(** X16: An unmatched bracket switches the cutting off: after a bracket that is
    never closed, or a closing bracket that nothing opened, the rest of a
    line without further quotes and brackets stays one token, white space
    included. *)
Theorem tokenize_unmatched_bracket_takes_the_rest
    (iswspace : ascii → bool) (pre : string) (bracket : ascii) (rest : string) :
  forallb (λ c, plain c && negb (iswspace c)) (list_ascii_of_string pre) = true →
  bracket = "["%char ∨ bracket = "]"%char →
  forallb plain (list_ascii_of_string rest) = true →
  tokenize iswspace (pre +:+ String bracket rest) = [pre +:+ String bracket rest].
Proof.
  intros Hpre Hbracket Hrest. rewrite tokenize_unfold. cbv zeta.
  rewrite list_ascii_of_string_app. simpl list_ascii_of_string.
  rewrite loop_app, (loop_word iswspace _ _ _ _ Hpre), app_nil_l. cbn [tokenizeLoop].
  assert (Hstep : ∃ depth, depth ≠ 0%Z ∧
            tokenizeStep iswspace (prevAfter None (list_ascii_of_string pre)) bracket
              (mkScan [] (list_ascii_of_string pre) 0 false) =
            mkScan [] (list_ascii_of_string pre ++ [bracket]) depth false).
  { destruct Hbracket as [-> | ->]; [exists 1%Z | exists (-1)%Z]; (split; [lia | reflexivity]). }
  destruct Hstep as (depth & Hdepth & ->).
  rewrite (loop_off_level iswspace _ _ _ _ _ Hdepth Hrest). cbn [scanTokens scanCurrent].
  rewrite <- app_assoc.
  change ([bracket] ++ list_ascii_of_string rest)
    with (list_ascii_of_string (String bracket rest)).
  rewrite <- list_ascii_of_string_app, pushCurrent_nonempty.
  - now rewrite string_of_list_ascii_of_string.
  - rewrite list_ascii_of_string_app. now destruct (list_ascii_of_string pre).
Qed.

Lemma tokenize_unmatched_bracket_takes_the_rest_witness :
  tokenize isspaceC ("a" +:+ String "]"%char " b c") = ["a" +:+ String "]"%char " b c"].
Proof.
  apply (tokenize_unmatched_bracket_takes_the_rest isspaceC "a" "]"%char " b c").
  - reflexivity.
  - now right.
  - reflexivity.
Defined.

(** ** Literals *)

Lemma last_cons_default {A} (l : list A) : ∀ x d1 d2,
  List.last (x :: l) d1 = List.last (x :: l) d2.
Proof.
  induction l as [| y l IH]; intros x d1 d2; [reflexivity |].
  change (List.last (y :: l) d1 = List.last (y :: l) d2). apply IH.
Qed.

Lemma scanLoop_app (chars1 : list ascii) : ∀ chars2 prev s,
  scanLoop prev (chars1 ++ chars2) s =
  scanLoop (List.last chars1 prev) chars2 (scanLoop prev chars1 s).
Proof.
  induction chars1 as [| c l IH]; intros r p s; [reflexivity |].
  simpl scanLoop. rewrite IH. destruct l; [reflexivity |].
  now rewrite (last_cons_default l a c p).
Qed.

(** An element is added to the current token as it stands. *)
Lemma scanLoop_element l : ∀ d prev tokens current,
  element d l = true →
  scanLoop prev l (mkScan tokens current (Z.of_nat d) false) =
  mkScan tokens (current ++ l) 0 false.
Proof.
  induction l as [| c l IH]; intros d prev tokens current Hl; simpl in Hl.
  - apply Nat.eqb_eq in Hl as ->. simpl. now rewrite app_nil_r.
  - simpl scanLoop. unfold scanStep at 1. cbn [scanCurrent scanTokens bracketDepth inQuotes].
    destruct (Ascii.eqb c quoteChar) eqn:Hq; [discriminate |]. simpl andb. cbv iota.
    destruct (Ascii.eqb c "["%char) eqn:Ho.
    { replace (Z.of_nat d + 1)%Z with (Z.of_nat (S d)) by lia.
      rewrite (IH (S d)) by assumption. now rewrite <- app_assoc. }
    destruct (Ascii.eqb c "]"%char) eqn:Hc.
    { destruct d as [| d]; [discriminate |].
      replace (Z.of_nat (S d) - 1)%Z with (Z.of_nat d) by lia.
      rewrite (IH d) by assumption. now rewrite <- app_assoc. }
    destruct (Ascii.eqb c ","%char) eqn:Hcomma.
    { apply andb_prop in Hl as [Hd Hl]. apply negb_true_iff, Nat.eqb_neq in Hd.
      replace (Z.of_nat d =? 0)%Z with false by (symmetry; apply Z.eqb_neq; lia).
      simpl andb. cbv iota. rewrite (IH d) by assumption. now rewrite <- app_assoc. }
    simpl andb. cbv iota. rewrite (IH d) by assumption. now rewrite <- app_assoc.
Qed.

Lemma scanLoop_isElement (item : string) prev tokens :
  isElement item = true →
  scanLoop prev (list_ascii_of_string item) (mkScan tokens [] 0 false) =
  mkScan tokens (list_ascii_of_string item) 0 false.
Proof. intros Hitem. exact (scanLoop_element _ 0 prev tokens [] Hitem). Qed.

Lemma scanStep_comma prev tokens current :
  scanStep prev ","%char (mkScan tokens current 0 false) =
  mkScan (flushToken tokens current) [] 0 false.
Proof. reflexivity. Qed.

Lemma flushToken_app (before tokens : list string) (current : list ascii) :
  flushToken (before ++ tokens) current = before ++ flushToken tokens current.
Proof. unfold flushToken. destruct (trimBlanks current); [reflexivity | now rewrite app_assoc]. Qed.

Lemma flushToken_tokenOf (tokens : list string) (item : string) :
  flushToken tokens (list_ascii_of_string item) = tokens ++ tokenOf item.
Proof.
  unfold tokenOf, flushToken. destruct (trimBlanks (list_ascii_of_string item));
    [now rewrite app_nil_r | reflexivity].
Qed.

(** The elements of a literal, separated by commas, each leave their token. *)
Lemma scanLoop_elements (items : list string) : ∀ prev tokens,
  Forall (λ item, isElement item = true) items →
  let s := scanLoop prev (list_ascii_of_string (String.concat "," items))
             (mkScan tokens [] 0 false) in
  flushToken (scanTokens s) (scanCurrent s) = tokens ++ concat (map tokenOf items).
Proof.
  induction items as [| item items IH]; intros prev tokens Hitems.
  - simpl. now rewrite app_nil_r.
  - apply Forall_cons_1 in Hitems as [Hitem Hitems]. destruct items as [| item2 items].
    + simpl String.concat. cbv zeta.
      rewrite (scanLoop_isElement item prev tokens Hitem). simpl.
      rewrite app_nil_r. apply flushToken_tokenOf.
    + change (String.concat "," (item :: item2 :: items)) with
        (item +:+ String ","%char (String.concat "," (item2 :: items))).
      cbv zeta. rewrite list_ascii_of_string_app. simpl list_ascii_of_string.
      rewrite scanLoop_app, (scanLoop_isElement item prev tokens Hitem).
      match goal with
      | |- context [scanLoop ?p (?c :: ?r) ?s] =>
          change (scanLoop p (c :: r) s) with (scanLoop c r (scanStep p c s))
      end.
      rewrite scanStep_comma.
      specialize (IH ","%char (flushToken tokens (list_ascii_of_string item)) Hitems).
      cbv zeta in IH. etransitivity; [exact IH |]. rewrite flushToken_tokenOf.
      change (map tokenOf (item :: item2 :: items)) with
        (tokenOf item :: map tokenOf (item2 :: items)).
      simpl concat. now rewrite <- app_assoc.
Qed.

Lemma parseArrayTokens_elements (items : list string) :
  Forall (λ item, isElement item = true) items →
  parseArrayTokens ("[" +:+ String.concat "," items +:+ "]") = concat (map tokenOf items).
Proof.
  intros Hitems. unfold parseArrayTokens.
  change ("[" +:+ String.concat "," items +:+ "]")
    with (String "["%char (String.concat "," items +:+ "]")).
  simpl list_ascii_of_string. rewrite list_ascii_of_string_app.
  change (list_ascii_of_string "]") with ["]"%char]. rewrite removelast_last.
  exact (scanLoop_elements items "["%char [] Hitems).
Qed.

(** *** Trimming *)

Lemma dropBlanks_split (l : list ascii) :
  ∃ before, l = before ++ dropBlanks l ∧ forallb isBlank before = true.
Proof.
  induction l as [| c l (before & Hl & Hbefore)]; [now exists [] |].
  simpl. destruct (isBlank c) eqn:Hc.
  - exists (c :: before). split; [now rewrite Hl at 1 | simpl; now rewrite Hc].
  - now exists [].
Qed.

Lemma dropBlanks_head (l : list ascii) (c : ascii) (rest : list ascii) :
  dropBlanks l = c :: rest → isBlank c = false.
Proof.
  induction l as [| x l IH]; [discriminate |]. simpl.
  destruct (isBlank x) eqn:Hx; [exact IH |]. now intros [= <- _].
Qed.

Lemma dropBlanks_keeps (l : list ascii) (c : ascii) :
  isBlank c = false → dropBlanks (l ++ [c]) ≠ [].
Proof.
  intros Hc. induction l as [| x l IH]; simpl.
  - now rewrite Hc.
  - destruct (isBlank x); [exact IH | discriminate].
Qed.

Lemma forallb_rev {A} (f : A → bool) (l : list A) :
  forallb f l = true → forallb f (rev l) = true.
Proof.
  intros H. apply forallb_forall. intros x Hx. apply in_rev in Hx.
  rewrite forallb_forall in H. now apply H.
Qed.

(** What is trimmed off are blanks, and what is left neither starts nor ends
    with one. *)
Lemma trimBlanks_spec (l : list ascii) :
  ∃ before after,
    l = before ++ trimBlanks l ++ after ∧
    forallb isBlank before = true ∧ forallb isBlank after = true ∧
    (trimBlanks l = [] ∨
     ∃ c1 c2, head (trimBlanks l) = Some c1 ∧ isBlank c1 = false ∧
              last (trimBlanks l) = Some c2 ∧ isBlank c2 = false).
Proof.
  destruct (dropBlanks_split l) as (before & Hl & Hbefore).
  destruct (dropBlanks_split (rev (dropBlanks l))) as (after & Hrev & Hafter).
  exists before, (rev after). unfold trimBlanks.
  assert (Hmid : dropBlanks l = rev (dropBlanks (rev (dropBlanks l))) ++ rev after).
  { rewrite <- rev_app_distr, <- Hrev. now rewrite rev_involutive. }
  split; [now rewrite <- Hmid |]. split; [exact Hbefore |].
  split; [now apply forallb_rev |].
  destruct (dropBlanks (rev (dropBlanks l))) as [| c2 t] eqn:Ht; [now left |]. right.
  pose proof (dropBlanks_head _ _ _ Ht) as Hc2.
  destruct (dropBlanks l) as [| c1 x] eqn:Hx; [discriminate Ht |].
  pose proof (dropBlanks_head _ _ _ Hx) as Hc1.
  exists c1, c2. repeat split; try assumption.
  - simpl rev in Hmid. destruct (rev t ++ [c2]) as [| y ys] eqn:Hys;
      [now destruct (rev t) |].
    simpl in Hmid. injection Hmid as -> _. simpl rev. now rewrite Hys.
  - simpl rev. apply last_snoc.
Qed.

Lemma allBlank_trimBlanks (l : list ascii) :
  trimBlanks l = [] → forallb isBlank l = true.
Proof.
  intros Hempty. destruct (trimBlanks_spec l) as (before & after & Hl & Hb & Ha & _).
  rewrite Hempty in Hl. rewrite Hl. simpl. rewrite forallb_app. now rewrite Hb, Ha.
Qed.

Lemma head_front (l : list ascii) : front (string_of_list_ascii l) = head l.
Proof. unfold front. now rewrite list_ascii_of_string_of_list_ascii. Qed.

Lemma last_back (l : list ascii) : back (string_of_list_ascii l) = last l.
Proof. unfold back. now rewrite list_ascii_of_string_of_list_ascii. Qed.

(** The token of an element is the element between the blanks around it. *)
Lemma tokenOf_spec (item : string) :
  (allBlank item = true ∧ tokenOf item = []) ∨
  (∃ t, tokenOf item = [t] ∧ trimmedFrom item t).
Proof.
  unfold tokenOf, allBlank.
  destruct (trimBlanks_spec (list_ascii_of_string item))
    as (before & after & Hl & Hb & Ha & Hends).
  destruct (trimBlanks (list_ascii_of_string item)) as [| c t] eqn:Ht.
  - left. split; [| reflexivity]. now apply allBlank_trimBlanks.
  - right. exists (string_of_list_ascii (c :: t)). split; [reflexivity |].
    destruct Hends as [Hnil | (c1 & c2 & Hc1 & Hb1 & Hc2 & Hb2)]; [discriminate |].
    exists (string_of_list_ascii before), (string_of_list_ascii after), c1, c2.
    unfold allBlank. rewrite !list_ascii_of_string_of_list_ascii, head_front, last_back.
    repeat split; try assumption.
    rewrite <- !string_of_list_ascii_app, <- Hl. now rewrite string_of_list_ascii_of_string.
Qed.

Lemma cutTokens_tokenOf (items : list string) : cutTokens items (concat (map tokenOf items)).
Proof.
  induction items as [| item items IH]; [constructor |].
  simpl. destruct (tokenOf_spec item) as [[Hblank ->] | (t & -> & Ht)].
  - now apply cut_blank.
  - now apply cut_token.
Qed.

(** X17: An array literal whose elements hold no quote, have matching brackets and
    no comma outside them is cut at the commas between the elements: each
    element leaves the text between the blanks around it, and an element
    that is blank leaves no token. *)
Theorem parseArrayTokens_cuts_at_commas (items : list string) :
  Forall (λ item, isElement item = true) items →
  cutTokens items (parseArrayTokens ("[" +:+ String.concat "," items +:+ "]")).
Proof.
  intros Hitems. rewrite (parseArrayTokens_elements items Hitems). apply cutTokens_tokenOf.
Qed.

Lemma parseArrayTokens_cuts_at_commas_witness :
  cutTokens ["1"; " [2, 3] "; "  "; "x y"]
    (parseArrayTokens ("[" +:+ String.concat "," ["1"; " [2, 3] "; "  "; "x y"] +:+ "]")).
Proof.
  apply (parseArrayTokens_cuts_at_commas ["1"; " [2, 3] "; "  "; "x y"]).
  repeat constructor.
Defined.

Example tokens_of_a_literal :
  parseArrayTokens "[1, [2, 3] ,  ,x y]" = ["1"; "[2, 3]"; "x y"].
Proof. reflexivity. Qed.

(** Without a comma, nothing is cut. *)
Lemma scanStep_no_comma prev c s :
  Ascii.eqb c ","%char = false → scanTokens (scanStep prev c s) = scanTokens s.
Proof.
  intros Hc. unfold scanStep. rewrite Hc. simpl andb.
  repeat match goal with
         | |- context [if ?b then _ else _] => destruct b
         end; reflexivity.
Qed.

Lemma scanLoop_no_comma chars : ∀ prev s,
  forallb (λ c, negb (Ascii.eqb c ","%char)) chars = true →
  scanTokens (scanLoop prev chars s) = scanTokens s.
Proof.
  induction chars as [| c chars IH]; intros prev s Hchars; [reflexivity |].
  simpl in Hchars. apply andb_prop in Hchars as [Hc Hchars]. apply negb_true_iff in Hc.
  simpl. rewrite IH by assumption. now apply scanStep_no_comma.
Qed.

Lemma forallb_removelast {A} (f : A → bool) (l : list A) :
  forallb f l = true → forallb f (removelast l) = true.
Proof.
  induction l as [| x l IH]; [reflexivity |]. simpl. intros H.
  apply andb_prop in H as [Hx Hl]. destruct l; [reflexivity |].
  simpl. rewrite Hx. now apply IH.
Qed.

Lemma length_flushToken (tokens : list string) (current : list ascii) :
  length (flushToken tokens current) ≤ S (length tokens).
Proof.
  unfold flushToken. destruct (trimBlanks current); [lia |].
  rewrite length_app. simpl. lia.
Qed.

Lemma parseArrayTokens_no_comma (token : string) :
  noComma token = true → length (parseArrayTokens token) ≤ 1.
Proof.
  unfold noComma, parseArrayTokens. intros Hno.
  destruct (list_ascii_of_string token) as [| first others]; [simpl; lia |].
  simpl in Hno. apply andb_prop in Hno as [_ Hno].
  rewrite scanLoop_no_comma by now apply forallb_removelast.
  exact (length_flushToken [] _).
Qed.

(** X18: A token without a comma is parsed into one element at most, whatever
    blanks and brackets it holds: the elements of an array literal are
    separated by commas only. *)
Theorem literal_without_comma_has_one_element (stod : string → option float) (token : string) :
  noComma token = true → length (parseArray stod token) ≤ 1.
Proof.
  intros Hno. unfold parseArray. destruct (isArrayLiteral token); [| simpl; lia].
  rewrite length_map. now apply parseArrayTokens_no_comma.
Qed.

Lemma literal_without_comma_has_one_element_witness :
  length (parseArray (λ _, None) "[[1 2] [3 4]]") ≤ 1.
Proof.
  apply (literal_without_comma_has_one_element (λ _, None) "[[1 2] [3 4]]"). reflexivity.
Defined.

(** *** The pieces of a literal are shorter than the literal *)

Lemma length_dropBlanks (l : list ascii) : length (dropBlanks l) ≤ length l.
Proof.
  induction l as [| c l IH]; [reflexivity |]. simpl. destruct (isBlank c); simpl; lia.
Qed.

Lemma length_trimBlanks (l : list ascii) : length (trimBlanks l) ≤ length l.
Proof.
  unfold trimBlanks. rewrite length_rev.
  etransitivity; [apply length_dropBlanks |]. rewrite length_rev. apply length_dropBlanks.
Qed.

Lemma length_string_of_list_ascii (l : list ascii) :
  String.length (string_of_list_ascii l) = length l.
Proof. induction l as [| c l IH]; [reflexivity |]. simpl. now rewrite IH. Qed.

Lemma length_list_ascii_of_string (s : string) :
  length (list_ascii_of_string s) = String.length s.
Proof. induction s as [| c s IH]; [reflexivity |]. simpl. now rewrite IH. Qed.

Lemma flushToken_within (n : nat) (tokens : list string) (current : list ascii) :
  Forall (λ t, String.length t ≤ n) tokens → length current ≤ n →
  Forall (λ t, String.length t ≤ n) (flushToken tokens current).
Proof.
  intros Htokens Hcurrent. unfold flushToken.
  pose proof (length_trimBlanks current) as Htrim.
  destruct (trimBlanks current) as [| a t] eqn:Heq; [exact Htokens |].
  apply Forall_app. split; [exact Htokens |]. repeat constructor.
  rewrite length_string_of_list_ascii. lia.
Qed.

Lemma scanStep_within (n : nat) prev c s : within n s → within (S n) (scanStep prev c s).
Proof.
  intros [Htokens Hcurrent].
  assert (Htokens' : Forall (λ t, String.length t ≤ S n) (scanTokens s)).
  { eapply Forall_impl; [exact Htokens |]. simpl. intros; lia. }
  unfold scanStep.
  repeat match goal with
         | |- context [if ?b then _ else _] => destruct b
         end; (split; simpl; [ | rewrite ?length_app; simpl; lia]); try exact Htokens'.
  apply flushToken_within; [exact Htokens' | lia].
Qed.

Lemma scanLoop_within chars : ∀ n prev s,
  within n s → within (n + length chars) (scanLoop prev chars s).
Proof.
  induction chars as [| c chars IH]; intros n prev s Hs; simpl.
  - now rewrite Nat.add_0_r.
  - replace (n + S (length chars)) with (S n + length chars) by lia.
    apply IH. now apply scanStep_within.
Qed.

Lemma length_removelast {A} (l : list A) : length (removelast l) = length l - 1.
Proof.
  induction l as [| x l IH]; [reflexivity |]. destruct l; [reflexivity |].
  simpl in *. rewrite IH. lia.
Qed.

Lemma parseArrayTokens_shorter (input : string) :
  Forall (λ t, String.length t + 2 ≤ String.length input) (parseArrayTokens input).
Proof.
  unfold parseArrayTokens. rewrite <- (length_list_ascii_of_string input).
  destruct (list_ascii_of_string input) as [| first [| c others]]; try constructor.
  destruct (scanLoop_within (removelast (c :: others)) 0 first (mkScan [] [] 0 false))
    as [Ht Hc].
  { split; [constructor | simpl; lia]. }
  rewrite length_removelast in Ht, Hc.
  pose proof (flushToken_within _ _ _ Ht Hc) as Hall.
  eapply Forall_impl; [exact Hall |]. simpl. intros; lia.
Qed.

Section ParserFacts.

Variable stod : string → option float.

Lemma isArrayLiteral_length (token : string) :
  isArrayLiteral token = true → 2 ≤ String.length token.
Proof.
  unfold isArrayLiteral. intros H. apply andb_prop in H as [H _]. apply andb_prop in H as [H _].
  now apply Nat.leb_le in H.
Qed.

(** The depth does not matter once it reaches the length of the token. *)
Lemma parseElement_depth_enough (d1 : nat) : ∀ d2 token,
  String.length token ≤ d1 → String.length token ≤ d2 →
  parseElement_depth stod d1 token = parseElement_depth stod d2 token.
Proof.
  induction d1 as [| d1 IH]; intros d2 token H1 H2.
  - destruct token; [| simpl in H1; lia]. now destruct d2.
  - destruct (isArrayLiteral token) eqn:Hlit.
    + pose proof (isArrayLiteral_length token Hlit) as Hlen.
      destruct d2 as [| d2]; [lia |].
      simpl. rewrite Hlit.
      destruct (stod token); [reflexivity |].
      destruct (isStringLiteral token); [reflexivity |].
      destruct (isWChar stod token); [reflexivity |].
      f_equal. apply map_ext_in. intros t Ht.
      pose proof (parseArrayTokens_shorter token) as Hshort.
      rewrite List.Forall_forall in Hshort. specialize (Hshort t Ht).
      apply IH; lia.
    + destruct d2; simpl; now rewrite Hlit.
Qed.

Lemma parseElement_equation (token : string) :
  parseElement stod token =
  match stod token with
  | Some number => ENum number
  | None =>
      if isStringLiteral token then EText (substring 1 (String.length token - 2) token)
      else if isWChar stod token then
        match front token with Some c => EChar c | None => EText token end
      else if isArrayLiteral token then EArr (parseArray stod token)
      else EText token
  end.
Proof.
  unfold parseElement at 1.
  rewrite (parseElement_depth_enough (String.length token) (S (String.length token)) token)
    by lia.
  simpl. unfold parseArray.
  destruct (stod token); [reflexivity |].
  destruct (isStringLiteral token); [reflexivity |].
  destruct (isWChar stod token); [reflexivity |].
  destruct (isArrayLiteral token) eqn:Hlit; [| reflexivity].
  f_equal. apply map_ext_in. intros t Ht.
  pose proof (parseArrayTokens_shorter token) as Hshort.
  rewrite List.Forall_forall in Hshort. specialize (Hshort t Ht).
  unfold parseElement. apply parseElement_depth_enough; lia.
Qed.

End ParserFacts.

(** X19: [parseElement] and [parseArray] call each other as in the source: the
    result of [parseElement] is that of its body with [parseArray] at the
    place of the recursive call, so the recursion always comes to an end
    within the length of the token. *)
Theorem parseElement_follows_the_source (stod : string → option float) (token : string) :
  parseElement stod token =
  match stod token with
  | Some number => ENum number
  | None =>
      if isStringLiteral token then EText (substring 1 (String.length token - 2) token)
      else if isWChar stod token then
        match front token with Some c => EChar c | None => EText token end
      else if isArrayLiteral token then EArr (parseArray stod token)
      else EText token
  end.
Proof. exact (parseElement_equation stod token). Qed.

(** ** Printing *)

Lemma append_cons (x : ascii) (a b : string) : String x a +:+ b = String x (a +:+ b).
Proof. reflexivity. Qed.

Lemma append_nil_l (a : string) : "" +:+ a = a.
Proof. reflexivity. Qed.

Lemma concat_cons2 (sep a b : string) (l : list string) :
  String.concat sep (a :: b :: l) = a +:+ sep +:+ String.concat sep (b :: l).
Proof. reflexivity. Qed.

Lemma string_app_assoc (a b c : string) : (a +:+ b) +:+ c = a +:+ (b +:+ c).
Proof. induction a as [| x a IH]; [reflexivity |]. now rewrite !append_cons, IH. Qed.

Lemma string_app_nil_r (a : string) : a +:+ "" = a.
Proof. induction a as [| x a IH]; [reflexivity |]. now rewrite append_cons, IH. Qed.

Section PrintingFacts.

Variable showDouble : float → string.

(** An array without Arrays among its elements is written on one line: the
    elements, separated by single spaces, between brackets. *)
Lemma printArray_flat (arr : Array) (indent : nat) :
  existsb holdsArray arr = false →
  printArray_of showDouble (EArr arr) indent =
  spaces (indent * 2) +:+ "[" +:+ String.concat " " (map (showElement showDouble) arr) +:+ "]".
Proof.
  intros Hflat. destruct arr as [| e arr]; [reflexivity |].
  cbn [printArray_of]. rewrite Hflat.
  match goal with
  | |- context [?F arr] =>
      lazymatch type of F with
      | list Element → string => set (items := F)
      end
  end.
  assert (Hitems : ∀ l, existsb holdsArray l = false →
            items l = String.concat " " (map (showElement showDouble) l)).
  { induction l as [| x l IH]; intros Hl; [reflexivity |].
    simpl in Hl. apply orb_false_elim in Hl as [Hx Hl].
    change (items (x :: l)) with
      (match x with
       | EArr _ => printArray_of showDouble x indent
       | ENum d => showDouble d
       | EChar c => String c EmptyString
       | EText s => quote +:+ s +:+ quote
       end +:+ match l with [] => EmptyString | _ => " " end +:+ items l).
    rewrite (IH Hl). destruct x; try discriminate; destruct l; cbn [map String.concat showElement];
      rewrite ?string_app_nil_r, ?append_nil_l; reflexivity. }
  simpl in Hflat. apply orb_false_elim in Hflat as [He Hflat].
  rewrite (Hitems _ Hflat).
  destruct e; try discriminate; destruct arr; cbn [map String.concat showElement];
    rewrite ?string_app_nil_r, ?append_nil_l; reflexivity.
Qed.

End PrintingFacts.

(** X20: [.] on an array without Arrays among its elements pops it and writes it
    on one line: the elements, strings in quotes, separated by single spaces
    between brackets, and a line end. *)
Theorem print_writes_a_flat_array_on_one_line
    (showDouble : float → string) (a : Array) (rest : Stack) (out : string) (err : list string) :
  existsb holdsArray a = false →
  builtin_print showDouble (mkMachine (a :: rest) out err) =
  Done (tt, mkMachine rest
              ((out +:+ "[" +:+ String.concat " " (map (showElement showDouble) a) +:+ "]")
               +:+ newline) err).
Proof.
  intros Hflat. unfold builtin_print.
  rewrite (bind_Done _ _ _ _ _ (eq_refl : stack_size _ = Done (_, _))).
  destruct (decide (length (stack (mkMachine (a :: rest) out err)) = 0)) as [H0 | _];
    [discriminate H0 |].
  do 2 mstep. unfold printArray, wcout_put, mbind, M_bind. cbn [stack wcout wcerr].
  now rewrite (printArray_flat showDouble a 0 Hflat).
Qed.

Lemma print_writes_a_flat_array_on_one_line_witness :
  builtin_print (λ _, "7") (mkMachine ([ENum 7; EText "a b"; EChar "c"] :: []) "" []) =
  Done (tt, mkMachine []
              (("" +:+ "[" +:+
                String.concat " " (map (showElement (λ _, "7")) [ENum 7; EText "a b"; EChar "c"])
                +:+ "]") +:+ newline) []).
Proof.
  apply (print_writes_a_flat_array_on_one_line (λ _, "7") [ENum 7; EText "a b"; EChar "c"]).
  reflexivity.
Defined.

(** *** String literals *)

Lemma length_append (a b : string) :
  String.length (a +:+ b) = String.length a + String.length b.
Proof. induction a as [| x a IH]; [reflexivity |]. rewrite append_cons. simpl. now rewrite IH. Qed.

Lemma substring_prefix (a b : string) : substring 0 (String.length a) (a +:+ b) = a.
Proof.
  induction a as [| x a IH]; [now destruct b |]. rewrite append_cons. simpl. now rewrite IH.
Qed.

Lemma quoted_is_a_string_literal (s : string) :
  isStringLiteral (quote +:+ s +:+ quote) = true ∧
  isArrayLiteral (quote +:+ s +:+ quote) = false ∧
  substring 1 (String.length (quote +:+ s +:+ quote) - 2) (quote +:+ s +:+ quote) = s.
Proof.
  assert (Hlen : String.length (quote +:+ s +:+ quote) = S (S (String.length s))).
  { rewrite !length_append. simpl. lia. }
  assert (Hfront : front (quote +:+ s +:+ quote) = Some quoteChar) by reflexivity.
  assert (Hback : back (quote +:+ s +:+ quote) = Some quoteChar).
  { unfold back. rewrite !list_ascii_of_string_app.
    change (list_ascii_of_string quote) with [quoteChar]. now rewrite app_assoc, last_snoc. }
  unfold isStringLiteral, isArrayLiteral. rewrite Hlen, Hfront, Hback.
  repeat split; try reflexivity.
  replace (S (S (String.length s)) - 2) with (String.length s) by lia.
  change (quote +:+ s +:+ quote) with (String quoteChar (s +:+ quote)).
  simpl substring. apply substring_prefix.
Qed.

(** X21: A string literal is parsed into the text between its quotes, and printed
    back with the quotes: when [std::stod] rejects the literal, the array it
    is parsed into holds that one text, which [printArray] writes as the
    literal between brackets. *)
Theorem string_literals_round_trip
    (stod : string → option float) (showDouble : float → string) (s : string) :
  stod (quote +:+ s +:+ quote) = None →
  parseArray stod (quote +:+ s +:+ quote) = [EText s] ∧
  printArray_of showDouble (EArr (parseArray stod (quote +:+ s +:+ quote))) 0 =
    "[" +:+ (quote +:+ s +:+ quote) +:+ "]".
Proof.
  intros Hstod. destruct (quoted_is_a_string_literal s) as (Hstring & Harray & Hsub).
  assert (Hparse : parseArray stod (quote +:+ s +:+ quote) = [EText s]).
  { unfold parseArray. rewrite Harray, parseElement_equation, Hstod, Hstring. now rewrite Hsub. }
  split; [exact Hparse |]. rewrite Hparse. cbn [printArray_of existsb holdsArray orb].
  change (spaces (0 * 2)) with "". rewrite !append_nil_l, string_app_nil_r.
  now rewrite !string_app_assoc.
Qed.

Lemma string_literals_round_trip_witness :
  parseArray (λ _, None) (quote +:+ "Hello world" +:+ quote) = [EText "Hello world"] ∧
  printArray_of (λ _, "") (EArr (parseArray (λ _, None) (quote +:+ "Hello world" +:+ quote))) 0 =
    "[" +:+ (quote +:+ "Hello world" +:+ quote) +:+ "]".
Proof.
  apply (string_literals_round_trip (λ _, None) (λ _, "") "Hello world"). reflexivity.
Defined.

(** *** Nested arrays *)

Section NestedPrinting.

Variable showDouble : float → string.

(** A row as [printArray] writes it at [indent]. *)
Lemma printArray_rows (rows : list Array) (indent : nat) :
  rows ≠ [] →
  Forall (λ row, existsb holdsArray row = false) rows →
  printArray_of showDouble (EArr (map EArr rows)) indent =
  spaces (indent * 2) +:+ "[" +:+ newline +:+
  String.concat ("," +:+ newline)
    (map (λ row, spaces ((indent + 1) * 2) +:+ "[" +:+
                 String.concat " " (map (showElement showDouble) row) +:+ "]") rows) +:+
  newline +:+ spaces (indent * 2) +:+ "]".
Proof.
  intros Hne Hrows. destruct rows as [| row rows]; [contradiction |].
  set (line := λ row : Array, spaces ((indent + 1) * 2) +:+ "[" +:+
                 String.concat " " (map (showElement showDouble) row) +:+ "]").
  assert (Hline : ∀ r, existsb holdsArray r = false →
            printArray_of showDouble (EArr r) (indent + 1) = line r).
  { intros r Hr. exact (printArray_flat showDouble r (indent + 1) Hr). }
  cbn [map]. remember (EArr row) as e0 eqn:He0. remember (map EArr rows) as l eqn:Hl.
  assert (Hnested : existsb holdsArray (e0 :: l) = true) by now subst e0.
  cbn [printArray_of]. rewrite Hnested.
  match goal with
  | |- context [?F l] =>
      lazymatch type of F with
      | list Element → string => set (items := F)
      end
  end.
  assert (Hitems : ∀ r rs, Forall (λ row, existsb holdsArray row = false) (r :: rs) →
            items (map EArr (r :: rs)) =
            String.concat ("," +:+ newline) (map line (r :: rs)) +:+ newline).
  { clear - Hline. intros r rs. revert r. induction rs as [| r2 rs IH]; intros r Hall.
    - apply Forall_cons_1 in Hall as [Hr _].
      change (items (map EArr [r])) with
        (printArray_of showDouble (EArr r) (indent + 1) +:+ newline +:+ "").
      rewrite (Hline r Hr). cbn [map String.concat]. now rewrite string_app_nil_r.
    - apply Forall_cons_1 in Hall as [Hr Hall].
      change (items (map EArr (r :: r2 :: rs))) with
        (printArray_of showDouble (EArr r) (indent + 1) +:+ ("," +:+ newline) +:+
         items (map EArr (r2 :: rs))).
      rewrite (IH r2 Hall), (Hline r Hr).
      change (String.concat ("," +:+ newline) (map line (r :: r2 :: rs))) with
        (line r +:+ ("," +:+ newline) +:+ String.concat ("," +:+ newline) (map line (r2 :: rs))).
      now rewrite !string_app_assoc. }
  apply Forall_cons_1 in Hrows as [Hr Hrows].
  subst e0 l. cbv beta iota. rewrite (Hline row Hr).
  destruct rows as [| r2 rows].
  - cbn [map String.concat]. change (items []) with "".
    now rewrite !string_app_assoc, ?append_nil_l.
  - rewrite (Hitems r2 rows Hrows). cbn [map].
    now rewrite (concat_cons2 ("," +:+ newline) (line row)), !string_app_assoc.
Qed.

End NestedPrinting.

(** X22: An array of flat arrays is written row by row: the opening bracket on a
    line of its own, each row on its line, moved in by two spaces and closed
    by a comma but for the last, and the closing bracket on a line of its
    own. *)
Theorem printArray_writes_rows_on_lines
    (showDouble : float → string) (rows : list Array) (indent : nat) :
  rows ≠ [] →
  Forall (λ row, existsb holdsArray row = false) rows →
  printArray_of showDouble (EArr (map EArr rows)) indent =
  spaces (indent * 2) +:+ "[" +:+ newline +:+
  String.concat ("," +:+ newline)
    (map (λ row, spaces ((indent + 1) * 2) +:+ "[" +:+
                 String.concat " " (map (showElement showDouble) row) +:+ "]") rows) +:+
  newline +:+ spaces (indent * 2) +:+ "]".
Proof. apply printArray_rows. Qed.

Lemma printArray_writes_rows_on_lines_witness :
  printArray_of (λ _, "0") (EArr (map EArr [[ENum 0; ENum 0]; [EText "a"; EChar "b"]])) 0 =
  spaces (0 * 2) +:+ "[" +:+ newline +:+
  String.concat ("," +:+ newline)
    (map (λ row, spaces ((0 + 1) * 2) +:+ "[" +:+
                 String.concat " " (map (showElement (λ _, "0")) row) +:+ "]")
       [[ENum 0; ENum 0]; [EText "a"; EChar "b"]]) +:+
  newline +:+ spaces (0 * 2) +:+ "]".
Proof.
  apply (printArray_writes_rows_on_lines (λ _, "0")
           [[ENum 0; ENum 0]; [EText "a"; EChar "b"]] 0).
  - discriminate.
  - repeat constructor.
Defined.

(** ** More on the evaluator *)

Section EvaluatorFacts.

Variable pow : float → float → float.
Variable showDouble : float → string.
Variable stod : string → option float.

Abbreviation evalLoop := (evaluateLoop pow showDouble stod).
Abbreviation eval := (evaluate pow showDouble stod).

Lemma eval_nil depth isFB st : eval (S depth) [] isFB st = Some (Done st).
Proof. reflexivity. Qed.

(** A header with nothing after it. *)
Lemma eval_lone_header depth (name : string) st :
  name ≠ "" → name ≠ "dump" →
  eval (S depth) [":" +:+ name] false st =
  Some (Done (mkInterp (functions st)
                (withDiagnostic "Error: Invalid function definition" (machine st)))).
Proof.
  intros Hne Hdump. destruct (header_of_name name Hne Hdump) as (Hnotdump & Hheader & _).
  rewrite eval_unfold. cbn [evaluateLoop]. rewrite Hnotdump, Hheader. reflexivity.
Qed.

(** A word whose body starts with a call of itself. *)
Lemma eval_self_call (w : string) (body : list string) st :
  functions st !! w = Some (w :: body) → w ≠ ":dump" →
  ∀ depth tokens isFB, isFB = true ∨ isHeader w = false →
  eval depth (w :: tokens) isFB st = None.
Proof.
  intros Hw Hdump. induction depth as [| depth IH]; intros tokens isFB HFB; [reflexivity |].
  rewrite (eval_call pow showDouble stod depth w (w :: body) tokens isFB st Hw Hdump HFB).
  now rewrite (IH body true (or_introl eq_refl)).
Qed.


Lemma isNameChar_front (token : string) :
  isFunctionName token = true → ∃ c, front token = Some c ∧ isNameChar c = true.
Proof.
  unfold isFunctionName, front. destruct token as [| c token]; [discriminate |].
  destruct (String.eqb _ "" || String.eqb _ ":end" || String.eqb _ ":dump"); [discriminate |].
  simpl. intros H. apply andb_prop in H as [Hc _]. eauto.
Qed.

Lemma name_is_no_literal (token : string) :
  isFunctionName token = true → isStringLiteral token = false ∧ isArrayLiteral token = false.
Proof.
  intros Hname. destruct (isNameChar_front token Hname) as (c & Hfront & Hc).
  unfold isStringLiteral, isArrayLiteral. rewrite Hfront. split.
  - rewrite (bool_decide_eq_false_2 (Some c = Some quoteChar)); [now rewrite andb_false_r |].
    intros [= ->]. discriminate Hc.
  - rewrite (bool_decide_eq_false_2 (Some c = Some "["%char)); [now rewrite andb_false_r |].
    intros [= ->]. discriminate Hc.
Qed.

Lemma eval_single_call depth (w : string) (body : list string) isFB st :
  functions st !! w = Some body → w ≠ ":dump" → isFB = true ∨ isHeader w = false →
  eval (S depth) [w] isFB st = eval depth body true st.
Proof.
  intros Hw Hdump HFB.
  rewrite (eval_call pow showDouble stod depth w body [] isFB st Hw Hdump HFB).
  destruct (eval depth body true st) as [[st' | |] |]; reflexivity.
Qed.

Lemma eval_invalid_header depth (token : string) (rest : list string) st :
  isHeader token = true → token ≠ ":dump" →
  isFunctionName (substring 1 (String.length token - 1) token) = false →
  eval (S depth) (token :: rest) false st =
  andThen (Some (onMachine (wcerr_line "Error: Invalid function definition") st))
    (eval (S depth) rest false).
Proof.
  intros Hheader Hdump Hname. apply String.eqb_neq in Hdump.
  rewrite eval_unfold. cbn [evaluateLoop]. rewrite Hdump, Hheader, Hname, andb_false_r.
  cbn [negb andb]. apply andThen_ext. intros st' _. rewrite eval_unfold.
  apply evalLoop_funcName.
Qed.

Lemma eval_unknown_word depth (token : string) isFB st :
  isFunctionName token = true → stod token = None →
  functions st !! token = None → builtIns pow showDouble token = None →
  eval (S depth) [token] isFB st =
  Some (Done (mkInterp (functions st)
                (mkMachine ([asText token] :: stack (machine st))
                   (wcout (machine st)) (wcerr (machine st))))).
Proof.
  intros Hname Hstod Hfun Hbuiltin.
  destruct (isFunctionName_not_header token Hname) as (Hheader & Hdump & _).
  destruct (name_is_no_literal token Hname) as (Hstring & Harray).
  apply String.eqb_neq in Hdump.
  rewrite eval_unfold. cbn [evaluateLoop].
  rewrite Hdump, Hheader, andb_false_r, Hfun, Hbuiltin.
  unfold parseArray. rewrite Harray, parseElement_equation, Hstod, Hstring, Harray.
  unfold isWChar, isNumber, asText, front. rewrite Hstod.
  destruct token as [| c [| c2 token]]; reflexivity.
Qed.

End EvaluatorFacts.

(** X23: A definition that is not closed by [:end] on its line defines nothing
    and runs none of its tokens but [:dump]: the tokens after the header are
    taken for the body and dropped with it, so that the dictionary, the
    stack and the diagnostics stay as they were, and the output gains one
    dump of the stack for each [:dump] among the tokens.  A header that ends
    the line is reported instead. *)
Theorem unterminated_definition_is_dropped
    (pow : float → float → float) (showDouble : float → string) (stod : string → option float)
    (depth : nat) (name : string) (body : list string) (st : Interp) :
  isFunctionName name = true → name ≠ "dump" → Forall (λ token, token ≠ ":end") body →
  evaluate pow showDouble stod (S depth) ((":" +:+ name) :: body) false st =
  Some (Done (if isEmpty body
              then mkInterp (functions st)
                     (withDiagnostic "Error: Invalid function definition" (machine st))
              else dumped showDouble (dumpCount body) st)) ∧
  functions (dumped showDouble (dumpCount body) st) = functions st ∧
  stack (machine (dumped showDouble (dumpCount body) st)) = stack (machine st) ∧
  wcerr (machine (dumped showDouble (dumpCount body) st)) = wcerr (machine st) ∧
  (Forall storable body → dumped showDouble (dumpCount body) st = st).
Proof.
  intros Hname Hdump Hbody. split; [| split; [| split; [| split]]];
    try apply (stack_dumped showDouble).
  - destruct body as [| token body].
    + destruct (isFunctionName_not_header name Hname) as (_ & _ & Hne).
      now apply eval_lone_header.
    + now apply eval_open_definition_any.
  - intros Hstorable. destruct (storedTokens_storable body Hstorable) as [_ ->].
    now destruct st as [dict []].
Qed.

(** [:sq dup :dump *] with nothing to close it. *)
Lemma unterminated_definition_is_dropped_witness :
  evaluate PrimFloat.mul (λ _, "") (λ _, None) 1 ((":" +:+ "sq") :: ["dup"; ":dump"; "*"]) false
    exampleInterp =
  Some (Done (if isEmpty ["dup"; ":dump"; "*"]
              then mkInterp (functions exampleInterp)
                     (withDiagnostic "Error: Invalid function definition"
                        (machine exampleInterp))
              else dumped (λ _, "") (dumpCount ["dup"; ":dump"; "*"]) exampleInterp)).
Proof.
  apply (proj1 (unterminated_definition_is_dropped PrimFloat.mul (λ _, "") (λ _, None) 0 "sq"
                  ["dup"; ":dump"; "*"] exampleInterp eq_refl
                  ltac:(discriminate) ltac:(repeat constructor; discriminate))).
Defined.

(** X24: A word whose body starts with a call of itself never returns: however
    deep the calls may nest, the evaluation does not come to an end. *)
Theorem recursive_word_never_returns
    (pow : float → float → float) (showDouble : float → string) (stod : string → option float)
    (w : string) (body tokens : list string) (st : Interp) (depth : nat) :
  functions st !! w = Some (w :: body) →
  isFunctionName w = true →
  evaluate pow showDouble stod depth (w :: tokens) false st = None.
Proof.
  intros Hw Hname. destruct (isFunctionName_not_header w Hname) as (Hheader & Hdump & _).
  apply (eval_self_call pow showDouble stod w body st Hw Hdump). now right.
Qed.

Lemma recursive_word_never_returns_witness :
  evaluate PrimFloat.mul (λ _, "") (λ _, None) 1000 ("loop" :: ["dup"]) false
    (mkInterp (<["loop" := ["loop"; "dup"]]> ∅) (mkMachine [] "" [])) = None.
Proof.
  apply (recursive_word_never_returns PrimFloat.mul (λ _, "") (λ _, None) "loop" ["dup"] ["dup"]
           (mkInterp (<["loop" := ["loop"; "dup"]]> ∅) (mkMachine [] "" [])) 1000).
  - reflexivity.
  - reflexivity.
Defined.

(** X25: A word that is neither defined nor built in is no error: a name that
    [std::stod] does not read as a number is pushed as an array that holds
    it, as a character when it is a single one and as text otherwise, and
    nothing is written. *)
Theorem unknown_word_is_pushed_as_text
    (pow : float → float → float) (showDouble : float → string) (stod : string → option float)
    (depth : nat) (token : string) (isFunctionBody : bool) (st : Interp) :
  isFunctionName token = true → stod token = None →
  functions st !! token = None → builtIns pow showDouble token = None →
  evaluate pow showDouble stod (S depth) [token] isFunctionBody st =
  Some (Done (mkInterp (functions st)
                (mkMachine ([asText token] :: stack (machine st))
                   (wcout (machine st)) (wcerr (machine st))))).
Proof. apply eval_unknown_word. Qed.

Lemma unknown_word_is_pushed_as_text_witness :
  evaluate PrimFloat.mul (λ _, "") (λ _, None) 1 ["duo"] false exampleInterp =
  Some (Done (mkInterp (functions exampleInterp)
                (mkMachine ([asText "duo"] :: stack (machine exampleInterp))
                   (wcout (machine exampleInterp)) (wcerr (machine exampleInterp))))).
Proof.
  apply (unknown_word_is_pushed_as_text PrimFloat.mul (λ _, "") (λ _, None) 0 "duo" false
           exampleInterp); reflexivity.
Defined.

(** X26: Calling words never changes the dictionary: a body is evaluated with
    definitions switched off, so whatever a call does, the words defined
    afterwards are those defined before. *)
Theorem calls_leave_the_dictionary
    (pow : float → float → float) (showDouble : float → string) (stod : string → option float)
    (depth : nat) (tokens : list string) (st st' : Interp) :
  evaluate pow showDouble stod depth tokens true st = Some (Done st') →
  functions st' = functions st.
Proof. apply eval_body_functions. Qed.

Lemma calls_leave_the_dictionary_witness :
  functions (mkInterp (functions exampleInterp) (mkMachine [[ENum 6]; [ENum 3]] "" [])) =
  functions exampleInterp.
Proof.
  apply (calls_leave_the_dictionary PrimFloat.mul (λ _, "") (λ _, None) 2 ["dup"; "double"]
           exampleInterp).
  vm_compute. reflexivity.
Defined.

(** X27: A defined word takes precedence over anything else its name could mean:
    once a name is in the dictionary with a body of built-in words and
    literals, be the name that of a built-in such as [dup] or a token that
    reads as a number, evaluating the token returns with the effect of the
    tokens of the body, in their order. *)
Theorem defined_words_take_precedence
    (pow : float → float → float) (showDouble : float → string) (stod : string → option float)
    (depth : nat) (w : string) (body : list string) (isFunctionBody : bool) (st : Interp) :
  isFunctionName w = true →
  functions st !! w = Some body →
  Forall (plainToken (functions st)) body →
  evaluate pow showDouble stod (S (S depth)) [w] isFunctionBody st =
  Some (onMachine (runPlain pow showDouble stod body) st).
Proof.
  intros Hname Hw Hbody. destruct (isFunctionName_not_header w Hname) as (Hheader & Hdump & _).
  rewrite eval_single_call with (body := body) by auto.
  now apply eval_plain.
Qed.

Lemma defined_words_take_precedence_witness :
  evaluate PrimFloat.mul (λ _, "") (λ _, Some 1%float) 2 ["dup"] false
    (define "dup" ["swap"] (mkInterp ∅ (mkMachine [[ENum 1]; [ENum 2]] "" []))) =
  Some (onMachine (runPlain PrimFloat.mul (λ _, "") (λ _, Some 1%float) ["swap"])
          (define "dup" ["swap"] (mkInterp ∅ (mkMachine [[ENum 1]; [ENum 2]] "" [])))).
Proof.
  apply (defined_words_take_precedence PrimFloat.mul (λ _, "") (λ _, Some 1%float) 0 "dup"
           ["swap"] false
           (define "dup" ["swap"] (mkInterp ∅ (mkMachine [[ENum 1]; [ENum 2]] "" [])))).
  - reflexivity.
  - reflexivity.
  - repeat constructor; try discriminate; reflexivity.
Defined.

(** With [dup] defined as [swap], the token [dup] swaps. *)
Example dup_redefined_swaps :
  evaluate PrimFloat.mul (λ _, "") (λ _, Some 1%float) 2 ["dup"] false
    (define "dup" ["swap"] (mkInterp ∅ (mkMachine [[ENum 1]; [ENum 2]] "" []))) =
  Some (Done (define "dup" ["swap"] (mkInterp ∅ (mkMachine [[ENum 2]; [ENum 1]] "" [])))).
Proof. vm_compute. reflexivity. Qed.

(** X28: A header whose name is not a word name, such as [:+], is reported and
    defines nothing, and the tokens after it, meant as the body, are
    evaluated as ordinary code: where they are built-in words and literals,
    the run returns with the diagnostic and then their effect, in their
    order; and an [:end] that closes the line after them is reported in the
    same way, being a header with nothing after it. *)
Theorem invalid_header_runs_its_body
    (pow : float → float → float) (showDouble : float → string) (stod : string → option float)
    (depth : nat) (token : string) (body : list string) (st : Interp) :
  isHeader token = true → token ≠ ":dump" →
  isFunctionName (substring 1 (String.length token - 1) token) = false →
  Forall (plainToken (functions st)) body →
  evaluate pow showDouble stod (S depth) (token :: body) false st =
    Some (onMachine (wcerr_line "Error: Invalid function definition";;
                     runPlain pow showDouble stod body) st) ∧
  evaluate pow showDouble stod (S depth) (token :: body ++ [":end"]) false st =
    Some (onMachine (wcerr_line "Error: Invalid function definition";;
                     runPlain pow showDouble stod body;;
                     wcerr_line "Error: Invalid function definition") st).
Proof.
  intros Hheader Hdump Hname Hbody. split.
  - rewrite eval_invalid_header by assumption.
    apply andThen_onMachine. intros st' Hst'. apply eval_plain. now rewrite Hst'.
  - rewrite eval_invalid_header by assumption.
    apply andThen_onMachine. intros st' Hst'. rewrite eval_unfold.
    rewrite evalLoop_plain_app by now rewrite Hst'.
    apply andThen_onMachine. intros st2 _. reflexivity.
Qed.

Lemma invalid_header_runs_its_body_witness :
  evaluate PrimFloat.mul (λ _, "") (λ _, None) 1 (":+" :: ["dup"; "*"]) false exampleInterp =
    Some (onMachine (wcerr_line "Error: Invalid function definition";;
                     runPlain PrimFloat.mul (λ _, "") (λ _, None) ["dup"; "*"]) exampleInterp) ∧
  evaluate PrimFloat.mul (λ _, "") (λ _, None) 1 (":+" :: ["dup"; "*"] ++ [":end"]) false
    exampleInterp =
    Some (onMachine (wcerr_line "Error: Invalid function definition";;
                     runPlain PrimFloat.mul (λ _, "") (λ _, None) ["dup"; "*"];;
                     wcerr_line "Error: Invalid function definition") exampleInterp).
Proof.
  apply (invalid_header_runs_its_body PrimFloat.mul (λ _, "") (λ _, None) 0 ":+"
           ["dup"; "*"] exampleInterp).
  - reflexivity.
  - discriminate.
  - reflexivity.
  - repeat constructor; try discriminate; vm_compute; reflexivity.
Defined.

(** [:+ dup * :end] with 3 on the stack: two diagnostics, and 9 on the
    stack. *)
Example invalid_definition_of_plus :
  evaluate PrimFloat.mul (λ _, "") (λ _, None) 1 [":+"; "dup"; "*"; ":end"] false
    (mkInterp ∅ (mkMachine [[ENum 3]] "" [])) =
  Some (Done (mkInterp ∅
                (mkMachine [[ENum 9]] ""
                   ["Error: Invalid function definition";
                    "Error: Invalid function definition"]))).
Proof. vm_compute. reflexivity. Qed.

(** X29: [:dump] is not destructive: the two loops of the branch, which move the
    whole stack to a temporary one while printing it and then move it back,
    leave the stack as it was; the output gains the heading and one line for
    each array from the top down (or the note that the stack is empty), and
    no diagnostic is written. *)
Theorem dump_restores_the_stack (showDouble : float → string) (m : Machine) :
  dumpStack showDouble m = Done (tt, dumpLoops showDouble m) ∧
  stack (dumpLoops showDouble m) = stack m ∧
  wcerr (dumpLoops showDouble m) = wcerr m ∧
  wcout (dumpLoops showDouble m) =
    match stack m with
    | [] => (wcout m +:+ ("Stack:" +:+ newline)) +:+ ("(empty)" +:+ newline)
    | s => dumpLines showDouble s (wcout m +:+ ("Stack:" +:+ newline))
    end.
Proof.
  split; [apply dumpStack_run |]. rewrite dumpLoops_run. repeat split; reflexivity.
Qed.

(** ** Lines *)

Lemma tokenize_blank (iswspace : ascii → bool) (input : string) :
  forallb (isSeparator iswspace) (list_ascii_of_string input) = true →
  tokenize iswspace input = [].
Proof.
  induction input as [| c input IH]; [reflexivity |]. simpl. intros H.
  apply andb_prop in H as [Hc H]. rewrite tokenize_separator_first by exact Hc. now apply IH.
Qed.

(** X30: A line that is empty or holds white space only changes nothing: no
    token is cut from it, and the interpreter is left as it was. *)
Theorem blank_line_changes_nothing
    (pow : float → float → float) (showDouble : float → string) (stod : string → option float)
    (iswspace : ascii → bool) (depth : nat) (input : string) (st : Interp) :
  forallb (isSeparator iswspace) (list_ascii_of_string input) = true →
  process pow showDouble stod iswspace (S depth) input st = Some (Done st).
Proof. intros Hblank. unfold process. now rewrite tokenize_blank. Qed.

Lemma blank_line_changes_nothing_witness :
  process PrimFloat.mul (λ _, "") (λ _, None) isspaceC 1 "   " exampleInterp =
  Some (Done exampleInterp).
Proof.
  apply (blank_line_changes_nothing PrimFloat.mul (λ _, "") (λ _, None) isspaceC 0 "   "
           exampleInterp).
  reflexivity.
Defined.

